(** * crypto-sql-portfolio: monthly correlations and temporal network metrics

    A shallow embedding of the two batch scripts

    - [src/build_monthly_correlations.py]  (module [Correlations])
    - [src/build_network_metrics.py]       (module [Network])

    together with the properties stated about them in the specification.

    Modelling conventions.

    - A double precision value is either [NaN] or an exact rational [Fin q]:
      arithmetic is idealised (no rounding, no infinities), but the way the
      scripts and the libraries they call treat missing values is kept.
    - An SQL column that may hold NULL has type [option float64]; pandas
      writes [NaN] as an empty CSV field, which COPY loads as NULL.
    - A Python exception is a [Raise] in the [result] monad.
    - The pandas operations are modelled as documented: [groupby] yields
      its groups in key order, [pivot] refuses duplicate (index, column)
      entries with a [ValueError], [count] counts the non-missing cells and
      [corr] is the pairwise Pearson correlation with [min_periods=1].
    - The scripts pin no pandas release, and what they rely on differs
      between releases: whether [DataFrame.stack()] drops the missing
      entries, and which dates the conversions to timestamps can hold.
      These are the fields of the record [pandas], a parameter of the two
      runs.
    - A table is the list of its rows in the order in which the server
      returns them; no query of the scripts has an [ORDER BY].
    - A [networkx.Graph] is its adjacency dictionary [_adj], a finite map
      from node to (finite map from neighbour to edge weight).  The metrics
      computed from it do not depend on dictionary order.
    - The square root used by the Pearson kernel is a section variable
      [sqrt]; nothing proved here depends on how it rounds. *)

From Stdlib Require Import QArith Qabs.
From stdpp Require Import gmap strings list fin_maps sorting.

#[local] Set Warnings "-clear-no-such-hyp".

(** ** Values shared by the two scripts *)

Record date := mkDate { year : Z; mon : Z; mday : Z }.

Global Instance date_eq_dec : EqDecision date.
Proof. solve_decision. Defined.

(** Chronological order on dates. *)
Definition date_le (a b : date) : Prop :=
  (year a < year b
   ∨ (year a = year b
      ∧ (mon a < mon b ∨ (mon a = mon b ∧ mday a ≤ mday b))))%Z.

Global Instance date_le_dec : RelDecision date_le.
Proof. intros a b. unfold date_le. apply _. Defined.

Inductive float64 := NaN | Fin (q : Q).

Definition isna (x : float64) : bool :=
  match x with NaN => true | Fin _ => false end.

Inductive exn := ValueError | ZeroDivisionError | OutOfBoundsDatetime.

Inductive result (A : Type) := Ok (a : A) | Raise (e : exn).
Arguments Ok {A} a.
Arguments Raise {A} e.

Global Instance result_ret : MRet result := λ A a, Ok a.
Global Instance result_bind : MBind result := λ A B k m,
  match m with Ok a => k a | Raise e => Raise e end.

(** A [for] loop whose body may raise or [continue]: the bodies run in
    order, the first exception aborts the loop, and the values of the
    iterations that reached [records.append] are collected. *)
Fixpoint for_each {A B} (body : A → result (option B)) (l : list A)
  : result (list B) :=
  match l with
  | [] => Ok []
  | x :: l' =>
      r ← body x;
      rs ← for_each body l';
      Ok (match r with Some y => y :: rs | None => rs end)
  end.

(** A comprehension whose element expression may raise. *)
Fixpoint comprehension {A B} (elt : A → result B) (l : list A)
  : result (list B) :=
  match l with
  | [] => Ok []
  | x :: l' =>
      y ← elt x;
      ys ← comprehension elt l';
      Ok (y :: ys)
  end.

(** What the scripts leave to the installed pandas. *)
Record pandas := mkPandas
  { (** whether [DataFrame.stack()], called without arguments, drops the
        missing entries: it does before release 3.0 ([dropna=True]) and
        keeps them from 3.0 on *)
    stack_dropna : bool;
    (** the dates that [pd.to_datetime] can convert *)
    representable : date → bool;
    (** the first days of a month that [PeriodArray.to_timestamp] can
        convert *)
    month_representable : date → bool }.

(** [pd.to_datetime(column)]: a date that the timestamp type cannot hold
    raises [OutOfBoundsDatetime]. *)
Definition to_datetime (pd : pandas) (column : list date) : result (list date) :=
  comprehension
    (λ d, if representable pd d then Ok d else Raise OutOfBoundsDatetime)
    column.

(** The sorted distinct values of a column (group keys, pivot labels). *)
Definition unique_sorted {A} `{EqDecision A} (R : relation A)
    `{∀ x y, Decision (R x y)} (l : list A) : list A :=
  merge_sort R (remove_dups l).

Definition string_le (a b : string) : Prop := Is_true (String.leb a b).

Global Instance string_le_dec : RelDecision string_le.
Proof. intros a b. unfold string_le. apply _. Defined.

(** Rows of a frame with the columns [month, asset_i, asset_j, corr]. *)
Record corr_row := mkCorr
  { month : date; asset_i : string; asset_j : string; corr : float64 }.

(** Rows of the table [monthly_correlations]: [corr] is nullable. *)
Record monthly_correlations := mkMC
  { mc_month : date; mc_asset_i : string; mc_asset_j : string;
    mc_corr : option float64 }.

(** [to_csv] followed by [COPY ... WITH (FORMAT csv)]. *)
Definition copy_row (r : corr_row) : monthly_correlations :=
  {| mc_month := month r; mc_asset_i := asset_i r; mc_asset_j := asset_j r;
     mc_corr := match corr r with NaN => None | Fin q => Some (Fin q) end |}.

(** ** build_monthly_correlations.py *)

Module Correlations.

(** Rows of the table [ohlc_daily], restricted to the selected columns. *)
Record ohlc_daily := mkOhlc
  { ohlc_asset_address : string; ohlc_day : date;
    ohlc_log_return : option float64 }.

(** Rows of [df]: the query result with the added [month] column. *)
Record ret_row := mkRet
  { asset_address : string; day : date; log_return : float64;
    ret_month : date }.

(** The first day of the month of [d]. *)
Definition to_month (d : date) : date :=
  {| year := year d; mon := mon d; mday := 1 |}.

(** [pd.read_sql(query, conn)] with
    [SELECT asset_address, day, log_return ... WHERE log_return IS NOT NULL]. *)
Definition read_sql (table : list ohlc_daily) : list (string * date * float64) :=
  omap (λ t, match ohlc_log_return t with
             | Some x => Some (ohlc_asset_address t, ohlc_day t, x)
             | None => None
             end) table.

(** [column.dt.to_period("M").dt.to_timestamp()]: the first day of the
    month of every day, as a timestamp again; a first day that the
    conversion cannot hold raises [OutOfBoundsDatetime]. *)
Definition to_month_start (pd : pandas) (column : list date)
  : result (list date) :=
  comprehension
    (λ d, if month_representable pd (to_month d) then Ok (to_month d)
          else Raise OutOfBoundsDatetime)
    column.

(** [df] after the two assignments that follow the query:
    [df["day"] = pd.to_datetime(df["day"])] and
    [df["month"] = df["day"].dt.to_period("M").dt.to_timestamp()]. *)
Definition load (pd : pandas) (table : list ohlc_daily) : result (list ret_row) :=
  let df := read_sql table in
  days ← to_datetime pd (df.*1.*2);
  months ← to_month_start pd days;
  Ok (zip_with (λ t dm, mkRet t.1.1 dm.1 t.2 dm.2) df (zip days months)).

(** The value the script gives to its module-level constant.  The
    definitions below take the minimum as an argument [min_days], as the
    specification does. *)
Definition min_days_per_asset : nat := 10.

(** [df.groupby("month")]: the groups in increasing key order. *)
Definition groupby_month (df : list ret_row) : list (date * list ret_row) :=
  (λ m, (m, filter (λ r, ret_month r = m) df))
    <$> unique_sorted date_le (ret_month <$> df).

(** A frame indexed by day with one labelled column per asset. *)
Record frame := mkFrame
  { index : list date; columns : list (string * list float64) }.

Definition cell (df_month : list ret_row) (d : date) (a : string) : float64 :=
  match list_find (λ r, day r = d ∧ asset_address r = a) df_month with
  | Some (_, r) => log_return r
  | None => NaN
  end.

(** [df_month.pivot(index="day", columns="asset_address",
    values="log_return")]; duplicate (day, asset) entries cannot be
    reshaped. *)
Definition pivot (df_month : list ret_row) : result frame :=
  if decide (NoDup ((λ r, (day r, asset_address r)) <$> df_month)) then
    let idx := unique_sorted date_le (day <$> df_month) in
    let labels := unique_sorted string_le (asset_address <$> df_month) in
    Ok {| index := idx;
          columns := (λ a, (a, (λ d, cell df_month d a) <$> idx)) <$> labels |}
  else Raise ValueError.

(** [pivot.count()]: non-missing cells per column. *)
Definition count (col : list float64) : nat :=
  length (filter (λ x, isna x = false) col).

Definition valid_counts (p : frame) : list (string * nat) :=
  (λ c, (c.1, count c.2)) <$> columns p.

Definition keep_cols (min_days : nat) (p : frame) : list string :=
  fst <$> filter (λ c, min_days ≤ c.2) (valid_counts p).

(** [pivot[keep_cols]] *)
Definition select (labels : list string) (p : frame) : frame :=
  {| index := index p;
     columns := filter (λ c, c.1 ∈ labels) (columns p) |}.

(** Whether [stack] leaves an entry out. *)
Definition dropped (dropna : bool) (x : float64) : bool := dropna && isna x.

(** [corr_matrix.stack().reset_index(name="corr")]: row-major long
    format, without the missing entries when [stack] drops them. *)
Definition stack (dropna : bool) (m : list (string * list (string * float64)))
  : list (string * string * float64) :=
  r ← m; c ← r.2; if dropped dropna c.2 then [] else [(r.1, c.1, c.2)].

Section Pearson.

Variable pd : pandas.
Variable sqrt : Q → Q.

(** Running state of the pairwise kernel. *)
Record welford := mkW
  { nobs : nat; meanx : Q; meany : Q; ssqdm_x : Q; ssqdm_y : Q; covxy : Q }.

Definition welford_step (s : welford) (xy : float64 * float64) : welford :=
  match xy with
  | (Fin vx, Fin vy) =>
      let n := S (nobs s) in
      let dx := (vx - meanx s)%Q in
      let dy := (vy - meany s)%Q in
      let mx := (meanx s + 1 / inject_Z (Z.of_nat n) * dx)%Q in
      let my := (meany s + 1 / inject_Z (Z.of_nat n) * dy)%Q in
      {| nobs := n; meanx := mx; meany := my;
         ssqdm_x := (ssqdm_x s + (vx - mx) * dx)%Q;
         ssqdm_y := (ssqdm_y s + (vy - my) * dy)%Q;
         covxy := (covxy s + (vx - mx) * dy)%Q |}
  | _ => s
  end.

(** One entry of [DataFrame.corr()] (Pearson, [min_periods=1]): only the
    days on which both columns are present take part. *)
Definition nancorr (xs ys : list float64) : float64 :=
  let s := foldl welford_step (mkW 0 0 0 0 0 0) (zip xs ys) in
  if (nobs s <? 1)%nat then NaN
  else
    let divisor := sqrt (ssqdm_x s * ssqdm_y s) in
    if Qeq_bool divisor 0 then NaN else Fin (covxy s / divisor).

(** [pivot.corr()]: the kernel runs once per unordered pair of columns
    and its value is stored at both positions. *)
Definition corr_matrix (p : frame) : list (string * list (string * float64)) :=
  imap (λ xi cx,
          (cx.1,
           imap (λ yi cy,
                   (cy.1,
                    if decide (yi ≤ xi) then nancorr cx.2 cy.2
                    else nancorr cy.2 cx.2))
                (columns p)))
       (columns p).

(** The body of the loop over the month groups. *)
Definition month_records (min_days : nat) (g : date * list ret_row)
  : result (option (list corr_row)) :=
  p ← pivot g.2;
  let p := select (keep_cols min_days p) p in
  if (length (columns p) <? 2)%nat then Ok None
  else
    let corr_long := stack (stack_dropna pd) (corr_matrix p) in
    let corr_long := filter (λ t, t.1.1 ≠ t.1.2) corr_long in
    Ok (Some ((λ t, mkCorr g.1 t.1.1 t.1.2 t.2) <$> corr_long)).

Definition monthly_corr (min_days : nat) (table : list ohlc_daily)
  : result (list corr_row) :=
  df ← load pd table;
  records ← for_each (month_records min_days) (groupby_month df);
  Ok (match records with [] => [] | _ => concat records end).

End Pearson.

End Correlations.

(** ** build_network_metrics.py *)

Module Network.

(** The value the script gives to its module-level constant; the
    definitions below take the threshold as an argument. *)
Definition CORR_THRESHOLD : Q := 1 # 2.

(** [SELECT ... FROM monthly_correlations WHERE corr IS NOT NULL] *)
Definition read_sql (table : list monthly_correlations) : list corr_row :=
  omap (λ t, match mc_corr t with
             | Some x => Some (mkCorr (mc_month t) (mc_asset_i t) (mc_asset_j t) x)
             | None => None
             end) table.

(** [df] after [df["month"] = pd.to_datetime(df["month"])]. *)
Definition load (pd : pandas) (table : list monthly_correlations)
  : result (list corr_row) :=
  let df := read_sql table in
  months ← to_datetime pd (month <$> df);
  Ok (zip_with (λ r m, mkCorr m (asset_i r) (asset_j r) (corr r)) df months).

(** [df.groupby("month")]: the groups in increasing key order. *)
Definition groupby_month (df : list corr_row) : list (date * list corr_row) :=
  (λ m, (m, filter (λ r, month r = m) df))
    <$> unique_sorted date_le (month <$> df).

(** [np.abs(x) >= threshold]; a comparison with NaN is false. *)
Definition abs_ge (threshold : Q) (x : float64) : bool :=
  match x with
  | NaN => false
  | Fin q => Qle_bool threshold (Qabs q)
  end.

(** *** The part of networkx the script uses *)

Abbreviation Graph := (gmap string (gmap string float64)).

Definition add_node (u : string) (G : Graph) : Graph :=
  match G !! u with Some _ => G | None => <[u := ∅]> G end.

(** [G.add_edge(u, v, weight=w)] *)
Definition add_edge (u v : string) (w : float64) (G : Graph) : Graph :=
  let G := add_node v (add_node u G) in
  let G := <[u := <[v := w]> (G !!! u)]> G in
  <[v := <[u := w]> (G !!! v)]> G.

(** [G[v]]: the neighbours of [v]. *)
Definition neighbors (G : Graph) (v : string) : gset string := dom (G !!! v).

Definition has_edge (G : Graph) (u v : string) : Prop := v ∈ neighbors G u.

Global Instance has_edge_dec (G : Graph) : RelDecision (has_edge G).
Proof. intros u v. unfold has_edge. apply _. Defined.

Definition number_of_nodes (G : Graph) : nat := size G.

(** [G.degree()]: a self-loop counts twice. *)
Definition degree (v : string) (nbrs : gmap string float64) : nat :=
  size nbrs + (if decide (v ∈ dom nbrs) then 1 else 0).

Definition degrees (G : Graph) : list nat :=
  (λ vn, degree vn.1 vn.2) <$> map_to_list G.

(** [G.number_of_edges()]: half the sum of the degrees. *)
Definition number_of_edges (G : Graph) : nat := sum_list (degrees G) / 2.

(** Python's [/] on integers. *)
Definition truediv (a b : Z) : result Q :=
  if decide (b = 0%Z) then Raise ZeroDivisionError
  else Ok (inject_Z a / inject_Z b)%Q.

(** [nx.density(G)] for an undirected graph. *)
Definition density (G : Graph) : result Q :=
  let n := Z.of_nat (number_of_nodes G) in
  let m := Z.of_nat (number_of_edges G) in
  if decide (m = 0 ∨ n ≤ 1)%Z then Ok 0%Q
  else
    d ← truediv m (n * (n - 1));
    Ok (d * 2)%Q.

(** [np.mean]: NaN on an empty sequence. *)
Definition Qsum (l : list Q) : Q := foldr Qplus 0%Q l.

Definition mean (l : list Q) : float64 :=
  match l with
  | [] => NaN
  | _ => Fin (Qsum l / inject_Z (Z.of_nat (length l)))
  end.

(** [_triangles_and_degree_iter]: for a node [v] with adjacency [nbrs],
    the number of neighbours other than [v], and twice the number of
    triangles through [v]. *)
Definition triangles_and_degree (G : Graph) (v : string)
    (nbrs : gmap string float64) : nat * nat :=
  let vs := dom nbrs ∖ {[v]} in
  (size vs,
   sum_list ((λ w, size (vs ∩ (neighbors G w ∖ {[w]}))) <$> elements vs)).

(** [nx.clustering(G, weight=None)]: the values of the returned
    dictionary, one per node. *)
Definition clustering (G : Graph) : result (list (string * Q)) :=
  comprehension
    (λ vn,
       let '(d, t) := triangles_and_degree G vn.1 vn.2 in
       if decide (t = 0) then Ok (vn.1, 0%Q)
       else
         c ← truediv (Z.of_nat t) (Z.of_nat d * (Z.of_nat d - 1));
         Ok (vn.1, c))
    (map_to_list G).

(** [_plain_bfs]: level by level; [fuel] bounds the number of levels. *)
Fixpoint plain_bfs_loop (fuel : nat) (G : Graph) (seen thislevel : gset string)
  : gset string :=
  match fuel with
  | O => seen
  | S fuel' =>
      if decide (thislevel = ∅) then seen
      else
        let nextlevel :=
          (⋃ (neighbors G <$> elements thislevel)) ∖ seen in
        plain_bfs_loop fuel' G (seen ∪ nextlevel) nextlevel
  end.

Definition plain_bfs (G : Graph) (source : string) : gset string :=
  plain_bfs_loop (S (size G)) G {[source]} {[source]}.

(** [nx.connected_components(G)] *)
Fixpoint components_loop (G : Graph) (nodes : list string) (seen : gset string)
  : list (gset string) :=
  match nodes with
  | [] => []
  | v :: nodes' =>
      if decide (v ∈ seen) then components_loop G nodes' seen
      else
        let c := plain_bfs G v in
        c :: components_loop G nodes' (seen ∪ c)
  end.

Definition connected_components (G : Graph) : list (gset string) :=
  components_loop G (elements (dom G)) ∅.

(** [max(iterable, key=len)]: the first longest item; an empty iterable
    is a [ValueError]. *)
Definition max_by_len (l : list (gset string)) : result (gset string) :=
  match l with
  | [] => Raise ValueError
  | c :: l' => Ok (foldl (λ best x, if (size best <? size x)%nat then x else best) c l')
  end.

(** *** The script *)

Record metrics_row := mkMetrics
  { m_month : date; n_assets : nat; n_edges : nat; m_density : Q;
    avg_degree : float64; max_degree : nat; avg_clustering : float64;
    lcc_size : nat }.

Definition build_graph (df_edges : list corr_row) : Graph :=
  foldl (λ G row, add_edge (asset_i row) (asset_j row) (corr row) G) ∅ df_edges.

(** The body of the loop over the month groups. *)
Definition month_record (threshold : Q) (g : date * list corr_row)
  : result (option metrics_row) :=
  let df_edges := filter (λ r, abs_ge threshold (corr r) = true) g.2 in
  if decide (df_edges = []) then Ok None
  else
    let G := build_graph df_edges in
    let n_nodes := number_of_nodes G in
    let n_edges := number_of_edges G in
    if decide (n_nodes = 0) then Ok None
    else
      density ← density G;
      let degrees := degrees G in
      let avg_degree :=
        if decide (0 < length degrees)
        then mean ((λ d, inject_Z (Z.of_nat d)) <$> degrees) else Fin 0 in
      let max_degree :=
        if decide (0 < length degrees) then max_list degrees else 0 in
      clustering_dict ← clustering G;
      let avg_clustering :=
        if decide (clustering_dict = []) then Fin 0
        else mean (snd <$> clustering_dict) in
      lcc ← max_by_len (connected_components G);
      Ok (Some {| m_month := g.1; n_assets := n_nodes; n_edges := n_edges;
                  m_density := density; avg_degree := avg_degree;
                  max_degree := max_degree; avg_clustering := avg_clustering;
                  lcc_size := size lcc |}).

Definition month_le (a b : metrics_row) : Prop := date_le (m_month a) (m_month b).

Global Instance month_le_dec : RelDecision month_le.
Proof. intros a b. unfold month_le. apply _. Defined.

(** [metrics_df]: the collected rows sorted by month, or the empty frame
    with the same columns. *)
Definition metrics_df (pd : pandas) (threshold : Q)
    (table : list monthly_correlations) : result (list metrics_row) :=
  df ← load pd table;
  records ← for_each (month_record threshold) (groupby_month df);
  Ok (match records with [] => [] | _ => merge_sort month_le records end).

End Network.

(** ** Vocabulary of the specification *)

(** *** Correlation Builder *)

Module CorrelationSpec.
Import Correlations.

(** The key on which [pivot] reshapes. *)
Definition key (r : ret_row) : date * string := (day r, asset_address r).

(** The rows of [df] in a run that gets past the conversion of the dates:
    the rows of the table with a non-NULL return, each with the first day
    of its month. *)
Definition observations (table : list ohlc_daily) : list ret_row :=
  omap (λ t, match ohlc_log_return t with
             | Some x => Some {| asset_address := ohlc_asset_address t;
                                 day := ohlc_day t; log_return := x;
                                 ret_month := to_month (ohlc_day t) |}
             | None => None
             end) table.

(** The installed pandas can convert every day with a non-NULL return,
    and the first day of its month. *)
Definition dates_fit (pd : pandas) (table : list ohlc_daily) : Prop :=
  Forall (λ r, representable pd (day r) ∧ month_representable pd (ret_month r))
         (observations table).

Global Instance dates_fit_dec pd table : Decision (dates_fit pd table).
Proof. unfold dates_fit. apply _. Defined.

(** The observations of month [m]. *)
Definition month_rows (table : list ohlc_daily) (m : date) : list ret_row :=
  filter (λ r, ret_month r = m) (observations table).

(** The day × asset matrix of month [m] after the [min_days] filter. *)
Definition month_frame (min_days : nat) (table : list ohlc_daily) (m : date)
  : frame :=
  match pivot (month_rows table m) with
  | Ok p => select (keep_cols min_days p) p
  | Raise _ => mkFrame [] []
  end.

(** The assets of month [m] that survive the [min_days] filter. *)
Definition survivors (min_days : nat) (table : list ohlc_daily) (m : date)
  : list string :=
  (columns (month_frame min_days table m)).*1.

Definition present (x : option float64) : bool :=
  match x with Some (Fin _) => true | _ => false end.

(** Number of non-absent daily observations of asset [a] within [m]. *)
Definition valid_days (table : list ohlc_daily) (m : date) (a : string) : nat :=
  length (filter (λ t, to_month (ohlc_day t) = m ∧ ohlc_asset_address t = a
                       ∧ present (ohlc_log_return t) = true) table).

(** The assets of the table that have at least [min_days] non-absent
    daily observations within [m]. *)
Definition qualifying (min_days : nat) (table : list ohlc_daily) (m : date)
  : list string :=
  filter (λ a, min_days ≤ valid_days table m a)
         (remove_dups (ohlc_asset_address <$> table)).

(** [corr_matrix.loc[i, j]] *)
Definition corr_at (sqrt : Q → Q) (p : frame) (i j : string) : float64 :=
  match list_find (λ c, c.1 = i) (columns p),
        list_find (λ c, c.1 = j) (columns p) with
  | Some (xi, cx), Some (yi, cy) =>
      if decide (yi ≤ xi) then nancorr sqrt cx.2 cy.2
      else nancorr sqrt cy.2 cx.2
  | _, _ => NaN
  end.

(** The correlation of the surviving assets [i] and [j] in month [m]. *)
Definition pair_corr (sqrt : Q → Q) (min_days : nat)
    (table : list ohlc_daily) (m : date) (i j : string) : float64 :=
  corr_at sqrt (month_frame min_days table m) i j.

(** Ordered pairs of distinct survivors whose correlation is absent. *)
Definition absent_pairs (sqrt : Q → Q) (min_days : nat)
    (table : list ohlc_daily) (m : date) : list (string * string) :=
  let K := survivors min_days table m in
  filter (λ ij, ij.1 ≠ ij.2 ∧ isna (pair_corr sqrt min_days table m ij.1 ij.2) = true)
         (cprod K K).

(** The edges emitted for month [m]. *)
Definition edges_in (m : date) (out : list corr_row) : list corr_row :=
  filter (λ e, month e = m) out.

(** Number of days on which both columns are present. *)
Definition overlap (xs ys : list float64) : nat :=
  length (filter (λ xy, isna xy.1 = false ∧ isna xy.2 = false) (zip xs ys)).

End CorrelationSpec.

(** *** Network Metrics Builder *)

Module NetworkSpec.
Import Network.

(** The row has a present correlation of magnitude at least [threshold]. *)
Definition passes (threshold : Q) (t : monthly_correlations) : Prop :=
  ∃ q, mc_corr t = Some (Fin q) ∧ (threshold <= Qabs q)%Q.

(** The installed pandas can convert every month with a non-NULL
    correlation. *)
Definition months_fit (pd : pandas) (table : list monthly_correlations) : Prop :=
  Forall (λ r, representable pd (month r)) (read_sql table).

Global Instance months_fit_dec pd table : Decision (months_fit pd table).
Proof. unfold months_fit. apply _. Defined.

(** The rows of month [m] that pass the threshold. *)
Definition month_edges (threshold : Q) (table : list monthly_correlations)
    (m : date) : list corr_row :=
  filter (λ r, abs_ge threshold (corr r) = true)
         (filter (λ r, month r = m) (read_sql table)).

(** The graph built for month [m]. *)
Definition month_graph (threshold : Q) (table : list monthly_correlations)
    (m : date) : Graph :=
  build_graph (month_edges threshold table m).

(** The metrics row computed for month [m], if the month is not skipped. *)
Definition month_row (threshold : Q) (table : list monthly_correlations)
    (m : date) : option metrics_row :=
  match month_record threshold (m, filter (λ r, month r = m) (read_sql table)) with
  | Ok r => r
  | Raise _ => None
  end.

Definition nodes (G : Graph) : list string := (map_to_list G).*1.

(** The node and edge sets of a graph, without the weights. *)
Definition adjacency (G : Graph) : gmap string (gset string) := dom <$> G.

Definition undirected (G : Graph) : Prop :=
  ∀ u v, has_edge G u v → has_edge G v u.

(** Every two nodes are joined by a path. *)
Definition connected (G : Graph) : Prop :=
  ∀ u v, u ∈ dom G → v ∈ dom G → rtc (has_edge G) u v.

(** What the loop of [_plain_bfs] from source [s] maintains: the current
    level is seen, every seen node is reachable from the source, and the
    neighbours of the nodes of earlier levels are seen. *)
Definition bfs_inv (G : Graph) (s : string) (seen level : gset string) : Prop :=
  s ∈ seen ∧ level ⊆ seen ∧ seen ⊆ dom G
  ∧ (∀ x, x ∈ seen → rtc (has_edge G) s x)
  ∧ (∀ x y, x ∈ seen → x ∉ level → has_edge G x y → y ∈ seen).

(** Number of unordered pairs of members of [l] joined by an edge. *)
Fixpoint connected_pairs (G : Graph) (l : list string) : nat :=
  match l with
  | [] => 0
  | a :: l' => length (filter (λ b, has_edge G a b) l') + connected_pairs G l'
  end.

(** The local clustering coefficient of [v]: the fraction of the pairs
    of neighbours of [v] that are joined by an edge, and 0 for a node with
    fewer than two neighbours. *)
Definition local_clustering (G : Graph) (v : string) : Q :=
  let nb := elements (neighbors G v ∖ {[v]}) in
  let d := length nb in
  if (d <? 2)%nat then 0%Q
  else (inject_Z (Z.of_nat (connected_pairs G nb))
        / (inject_Z (Z.of_nat (d * (d - 1))) / 2))%Q.

(** The rows of the table satisfy the invariant of the data model:
    an edge joins two different assets. *)
Definition no_self_pairs (table : list monthly_correlations) : Prop :=
  Forall (λ t, mc_asset_i t ≠ mc_asset_j t) table.

End NetworkSpec.

(** ** Sample inputs *)

Module Examples.
Import Correlations.

(** A square root that is exact on the squares of rationals. *)
Definition sqrt_exact (q : Q) : Q := Z.sqrt (Qnum q * Zpos (Qden q)) # Qden q.

(** A 64-bit count of nanoseconds since 1970 reaches from 1677-09-21
    (after midnight) to 2262-04-11. *)
Definition ns_range (d : date) : bool :=
  bool_decide (date_le (mkDate 1677 9 22) d ∧ date_le d (mkDate 2262 4 11)).

(** A pandas of the 2.x series: [stack] drops the missing entries and
    timestamps count nanoseconds. *)
Definition pandas2 : pandas :=
  {| stack_dropna := true; representable := ns_range;
     month_representable := ns_range |}.

(** A pandas whose [stack] keeps the missing entries, as the releases
    from 3.0 on do.  The ranges are those of [pandas2]: the samples that
    use this record stay inside them. *)
Definition pandas3 : pandas :=
  {| stack_dropna := false; representable := ns_range;
     month_representable := ns_range |}.

Definition jan (d : Z) : date := mkDate 2024 1 d.
Definition feb (d : Z) : date := mkDate 2024 2 d.

(** [n] daily observations of asset [a] from day [first] of January 2024;
    the return on the [k]-th of them is [f k]. *)
Definition series (a : string) (first : Z) (f : Z → Q) (n : nat)
  : list ohlc_daily :=
  (λ k, mkOhlc a (jan (first + Z.of_nat k)) (Some (Fin (f (Z.of_nat k)))))
    <$> seq 0 n.

(** Two assets with ten observations each, on disjoint days. *)
Definition disjoint_days : list ohlc_daily :=
  series "A" 1 (λ _, 0%Q) 10 ++ series "B" 11 (λ _, 0%Q) 10.

(** Three assets observed on the same three days, a fourth one observed
    once, and a lone asset in February. *)
Definition small_table : list ohlc_daily :=
  series "X" 1 (λ k, inject_Z k) 3
  ++ series "Y" 1 (λ k, inject_Z (2 * k)) 3
  ++ series "Z" 1 (λ k, inject_Z (k * (2 - k))) 3
  ++ [mkOhlc "W" (jan 2) (Some (Fin 1)); mkOhlc "W" (jan 3) None;
      mkOhlc "X" (feb 1) (Some (Fin 1)); mkOhlc "X" (feb 2) (Some (Fin 2))].

(** The rows emitted for [small_table] with a minimum of two days. *)
Definition small_out : list corr_row :=
  Eval vm_compute in
    match monthly_corr pandas2 sqrt_exact 2 small_table with
    | Ok out => out
    | Raise _ => []
    end.

Definition edge (m : date) (a b : string) (q : Q) : monthly_correlations :=
  mkMC m a b (Some (Fin q)).

(** January: X-Y strongly correlated in both directions, X-Z weakly,
    Y-Z absent.  February: a triangle A-B-C and a separate pair D-E.
    March: one weak pair. *)
Definition sample_edges : list monthly_correlations :=
  [edge (feb 1) "A" "B" 1;
   edge (jan 1) "X" "Y" 1; edge (jan 1) "Y" "X" 1;
   edge (jan 1) "X" "Z" (1 # 10); edge (jan 1) "Z" "X" (1 # 10);
   mkMC (jan 1) "Y" "Z" None; mkMC (jan 1) "Z" "Y" (Some NaN);
   edge (feb 1) "B" "C" (- (3 # 4)); edge (feb 1) "C" "A" (6 # 10);
   edge (feb 1) "D" "E" 1;
   edge (mkDate 2024 3 1) "A" "B" (1 # 3)].

Definition sample_metrics : list Network.metrics_row :=
  Eval vm_compute in
    match Network.metrics_df pandas2 Network.CORR_THRESHOLD sample_edges with
    | Ok out => out
    | Raise _ => []
    end.

Definition january_row : Network.metrics_row :=
  Eval vm_compute in
    default (Network.mkMetrics (jan 1) 0 0 0 NaN 0 NaN 0) (sample_metrics !! 0).

Definition february_row : Network.metrics_row :=
  Eval vm_compute in
    default (Network.mkMetrics (jan 1) 0 0 0 NaN 0 NaN 0) (sample_metrics !! 1).


(** One observation in the year 2300, beyond the nanosecond range. *)
Definition far_future : list ohlc_daily :=
  [mkOhlc "A" (mkDate 2300 1 1) (Some (Fin 0))].

(** One weak pair in the year 2300. *)
Definition far_future_edges : list monthly_correlations :=
  [edge (mkDate 2300 1 1) "A" "B" (1 # 10)].


End Examples.

(** ** Further vocabulary *)

(** Strictly earlier. *)
Definition date_lt (a b : date) : Prop := date_le a b ∧ a ≠ b.

Module TableSpec.
Import Correlations CorrelationSpec.

(** Asset [a] has a row with a non-NULL return in month [m]. *)
Definition listed (table : list ohlc_daily) (m : date) (a : string) : Prop :=
  ∃ t, t ∈ table ∧ to_month (ohlc_day t) = m ∧ ohlc_asset_address t = a
       ∧ ohlc_log_return t ≠ None.

(** Asset [a] has a present return on day [d]. *)
Definition observed (table : list ohlc_daily) (a : string) (d : date) : Prop :=
  Exists (λ t, ohlc_asset_address t = a ∧ ohlc_day t = d
               ∧ present (ohlc_log_return t) = true) table.

Global Instance observed_dec table a d : Decision (observed table a d).
Proof. unfold observed. apply _. Defined.

(** Number of days of month [m] on which both [i] and [j] have a present
    return. *)
Definition common_days (table : list ohlc_daily) (m : date) (i j : string)
  : nat :=
  length (filter (λ d, observed table i d ∧ observed table j d)
                 (remove_dups
                    (ohlc_day <$> filter (λ t, to_month (ohlc_day t) = m) table))).

End TableSpec.

Module GraphSpec.
Import Network NetworkSpec.

(** The assets that occur in the rows. *)
Definition node_set (rows : list corr_row) : gset string :=
  list_to_set (rows ≫= λ r, [asset_i r; asset_j r]).

(** The unordered pairs of assets joined by the rows. *)
Definition edge_set (rows : list corr_row) : gset (gset string) :=
  list_to_set ((λ r, {[asset_i r; asset_j r]} : gset string) <$> rows).

(** The unordered pair behind an ordered one. *)
Definition pair_set (p : string * string) : gset string := {[p.1; p.2]}.

(** [G.degree(v)] for a node or a non-node [v]. *)
Definition degree_of (G : Graph) (v : string) : nat := degree v (G !!! v).

(** Every two different nodes are joined by an edge. *)
Definition complete (G : Graph) : Prop :=
  ∀ u v, u ∈ dom G → v ∈ dom G → u ≠ v → has_edge G u v.

End GraphSpec.

(** ** Further sample inputs *)

Module PipelineExamples.
Import Examples.

(** The metrics computed from the rows written for [small_table]. *)
Definition small_metrics : list Network.metrics_row :=
  Eval vm_compute in
    match Network.metrics_df pandas2 Network.CORR_THRESHOLD (copy_row <$> small_out) with
    | Ok out => out
    | Raise _ => []
    end.

Definition small_row : Network.metrics_row :=
  Eval vm_compute in
    default (Network.mkMetrics (jan 1) 0 0 0 NaN 0 NaN 0) (small_metrics !! 0).

(** The metrics of [sample_edges] at the lower threshold 0.1. *)
Definition sample_metrics_low : list Network.metrics_row :=
  Eval vm_compute in
    match Network.metrics_df pandas2 (1 # 10) sample_edges with
    | Ok out => out
    | Raise _ => []
    end.

End PipelineExamples.

(** * Proofs *)

(** ** Generic facts *)

Section Generic.
Context {A B : Type}.

Lemma for_each_Ok (body : A → result (option B)) (l : list A) :
  (∀ x, x ∈ l → ∃ r, body x = Ok r) →
  for_each body l
  = Ok (omap (λ x, match body x with Ok r => r | Raise _ => None end) l).
Proof.
  induction l as [|x l IH]; intros Hall; [done|].
  destruct (Hall x) as [r Hr]; [left|].
  cbn [for_each]. rewrite Hr, IH by (intros; apply Hall; by right).
  cbn. rewrite Hr. by destruct r.
Qed.

Lemma for_each_Ok_inv (body : A → result (option B)) (l : list A) rs :
  for_each body l = Ok rs → ∀ x, x ∈ l → ∃ r, body x = Ok r.
Proof.
  revert rs. induction l as [|x l IH]; intros rs Hrs y Hy.
  { by apply elem_of_nil in Hy. }
  cbn [for_each] in Hrs. destruct (body x) as [r|e] eqn:Hx; [|done].
  cbn in Hrs. destruct (for_each body l) as [rs'|e] eqn:Hl; [|done].
  apply elem_of_cons in Hy as [->|Hy]; eauto.
Qed.

Lemma concat_or_empty (records : list (list A)) :
  match records with [] => [] | _ => concat records end = concat records.
Proof. by destruct records. Qed.

End Generic.

Section UniqueSorted.
Context {A : Type} `{EqDecision A} (R : relation A) `{∀ x y, Decision (R x y)}.

Lemma unique_sorted_Permutation (l : list A) :
  unique_sorted R l ≡ₚ remove_dups l.
Proof. apply merge_sort_Permutation. Qed.

Lemma elem_of_unique_sorted (l : list A) x : x ∈ unique_sorted R l ↔ x ∈ l.
Proof. by rewrite unique_sorted_Permutation, elem_of_remove_dups. Qed.

Lemma NoDup_unique_sorted (l : list A) : NoDup (unique_sorted R l).
Proof. rewrite unique_sorted_Permutation. apply NoDup_remove_dups. Qed.

End UniqueSorted.

Global Instance date_le_total : Total date_le.
Proof. intros [] []. unfold date_le. simpl. lia. Qed.

Global Instance date_le_trans : Transitive date_le.
Proof. intros [] [] []. unfold date_le. simpl. lia. Qed.

Lemma date_le_antisym (a b : date) : date_le a b → date_le b a → a = b.
Proof.
  destruct a, b. unfold date_le. simpl. intros ??.
  f_equal; lia.
Qed.

(** ** Correlation Builder *)

Section ListFacts.
Context {A B C : Type}.

Lemma bind_fmap_list (f : A → B) (g : B → list C) (l : list A) :
  (f <$> l) ≫= g = l ≫= (λ x, g (f x)).
Proof. induction l as [|x l IH]; [done|]. cbn. by rewrite IH. Qed.

Lemma NoDup_fmap_fst_filter (P : A * B → Prop) `{∀ x, Decision (P x)}
    (l : list (A * B)) :
  NoDup l.*1 → NoDup (filter P l).*1.
Proof.
  intros Hnd. apply (sublist_NoDup _ l.*1); [done|].
  apply fmap_sublist, sublist_filter.
Qed.

Lemma NoDup_cprod (K : list A) (L : list B) :
  NoDup K → NoDup L → NoDup (cprod K L).
Proof.
  intros HK HL. unfold cprod, list_cprod.
  apply NoDup_bind; [| |done].
  - intros x1 x2 [a b] _ _ H1 H2.
    apply list_elem_of_fmap in H1 as (?&?&?), H2 as (?&?&?). congruence.
  - intros x _. apply NoDup_fmap_2; [|done]. by intros ?? [=].
Qed.

Lemma length_filter_split (P : A → Prop) (Q1 : A → bool) `{∀ x, Decision (P x)}
    (l : list A) :
  length (filter (λ x, P x ∧ Q1 x = false) l)
  + length (filter (λ x, P x ∧ Q1 x = true) l)
  = length (filter P l).
Proof.
  induction l as [|x l IH]; [done|].
  rewrite !filter_cons.
  destruct (decide (P x)) as [HP|HP], (Q1 x) eqn:HQ.
  - rewrite decide_False, !decide_True by intuition congruence. simpl. lia.
  - rewrite !decide_True, decide_False by intuition congruence. simpl. lia.
  - rewrite !decide_False by intuition congruence. lia.
  - rewrite !decide_False by intuition congruence. lia.
Qed.

End ListFacts.

Lemma length_filter_ne {A} `{EqDecision A} (L : list A) (i : A) :
  NoDup L → i ∈ L → length (filter (λ j, i ≠ j) L) = length L - 1.
Proof.
  induction 1 as [|x L Hx HL IH]; intros Hi; [by apply elem_of_nil in Hi|].
  rewrite filter_cons. case_decide as Hne; simpl.
  - apply elem_of_cons in Hi as [->|Hi]; [done|].
    rewrite IH by done. destruct L; [by apply elem_of_nil in Hi|simpl; lia].
  - subst x.
    assert (filter (λ j, i ≠ j) L = L) as ->; [|lia].
    clear IH HL Hi. induction L as [|y L IH]; [done|].
    rewrite filter_cons, decide_True by set_solver.
    f_equal. apply IH. set_solver.
Qed.

Lemma length_offdiag {A} `{EqDecision A} (K L : list A) :
  NoDup L → K ⊆ L →
  length (filter (λ ij, ij.1 ≠ ij.2) (cprod K L)) = length K * (length L - 1).
Proof.
  intros HL. induction K as [|i K IH]; intros Hsub; [done|].
  unfold cprod, list_cprod in *. cbn [mbind list_bind].
  rewrite filter_app, length_app, IH by set_solver. cbn [length].
  assert (length (filter (λ ij : A * A, ij.1 ≠ ij.2) ((i,.) <$> L))
          = length (filter (λ j, i ≠ j) L)) as ->.
  { clear. induction L as [|j L IH]; [done|].
    cbn [fmap list_fmap]. rewrite !filter_cons. simpl.
    repeat case_decide; simpl; try done; by rewrite IH. }
  rewrite length_filter_ne; [lia|done|set_solver].
Qed.

(** ** Loading the tables *)

Section Loading.
Context (pd : pandas).

Lemma to_datetime_spec (column : list date) :
  to_datetime pd column
  = if decide (Forall (λ d, representable pd d) column) then Ok column
    else Raise OutOfBoundsDatetime.
Proof.
  unfold to_datetime. induction column as [|d l IH]; [done|].
  cbn [comprehension]. destruct (representable pd d) eqn:Hd.
  - cbn. rewrite IH. case_decide as Hl.
    + rewrite decide_True; [done|]. constructor; [by rewrite Hd|done].
    + rewrite decide_False; [done|]. by intros [_ ?]%Forall_cons.
  - cbn. rewrite decide_False; [done|].
    intros [Hfit _]%Forall_cons. by rewrite Hd in Hfit.
Qed.

Lemma to_datetime_Ok (column days : list date) :
  to_datetime pd column = Ok days →
  days = column ∧ Forall (λ d, representable pd d) column.
Proof. rewrite to_datetime_spec. case_decide; [|done]. by intros [= <-]. Qed.

End Loading.

Section LoadingDaily.
Import Correlations CorrelationSpec.
Context (pd : pandas).

Lemma observations_read_sql (table : list ohlc_daily) :
  observations table
  = (λ t, mkRet t.1.1 t.1.2 t.2 (to_month t.1.2)) <$> read_sql table.
Proof.
  unfold observations, read_sql. induction table as [|t table IH]; [done|].
  cbn [omap list_omap]. destruct (ohlc_log_return t); [|done].
  cbn [fmap list_fmap]. by rewrite IH.
Qed.

Lemma zip_with_columns {A B} (f : A → date) (g : date → date)
    (h : A → date → date → B) (l : list A) :
  zip_with (λ t dm, h t dm.1 dm.2) l (zip (f <$> l) (g <$> (f <$> l)))
  = (λ t, h t (f t) (g (f t))) <$> l.
Proof. induction l as [|t l IH]; [done|]. cbn. by rewrite <-IH. Qed.

Lemma to_month_start_spec (column : list date) :
  to_month_start pd column
  = if decide (Forall (λ d, month_representable pd (to_month d)) column)
    then Ok (to_month <$> column) else Raise OutOfBoundsDatetime.
Proof.
  unfold to_month_start. induction column as [|d l IH]; [done|].
  cbn [comprehension]. destruct (month_representable pd (to_month d)) eqn:Hd.
  - cbn. rewrite IH. case_decide as Hl.
    + rewrite decide_True; [done|]. constructor; [by rewrite Hd|done].
    + rewrite decide_False; [done|]. by intros [_ ?]%Forall_cons.
  - cbn. rewrite decide_False; [done|].
    intros [Hfit _]%Forall_cons. by rewrite Hd in Hfit.
Qed.

(** The conversions either fail on a date that does not fit, or leave the
    rows of the query with the first day of their month. *)
Lemma load_spec (table : list ohlc_daily) :
  load pd table
  = if decide (dates_fit pd table) then Ok (observations table)
    else Raise OutOfBoundsDatetime.
Proof.
  set (df := read_sql table).
  assert (dates_fit pd table
          ↔ Forall (λ d, representable pd d) df.*1.*2
            ∧ Forall (λ d, month_representable pd (to_month d)) df.*1.*2)
    as Hfit.
  { unfold dates_fit. rewrite observations_read_sql, !Forall_fmap.
    fold df. rewrite !Forall_forall. simpl. naive_solver. }
  unfold load. fold df. rewrite to_datetime_spec.
  destruct (decide (Forall (λ d, representable pd d) df.*1.*2)) as [Hd|Hd].
  - cbn [mbind result_bind]. rewrite to_month_start_spec.
    destruct (decide (Forall _ df.*1.*2)) as [Hm|Hm].
    + cbn [mbind result_bind]. rewrite decide_True by (by apply Hfit).
      f_equal. rewrite observations_read_sql. fold df.
      rewrite <-list_fmap_compose.
      apply (zip_with_columns (λ t, t.1.2) to_month
               (λ t d m, mkRet t.1.1 d t.2 m)).
    + cbn [mbind result_bind]. rewrite decide_False; [done|].
      by intros [_ ?]%Hfit.
  - cbn [mbind result_bind]. rewrite decide_False; [done|].
    by intros [? _]%Hfit.
Qed.

End LoadingDaily.

Section LoadingEdges.
Import Network NetworkSpec.
Context (pd : pandas).

Lemma load_edges_spec (table : list monthly_correlations) :
  load pd table
  = if decide (months_fit pd table) then Ok (read_sql table)
    else Raise OutOfBoundsDatetime.
Proof.
  assert (months_fit pd table
          ↔ Forall (λ d, representable pd d) (month <$> read_sql table)) as Hfit.
  { unfold months_fit. by rewrite Forall_fmap. }
  unfold load. rewrite to_datetime_spec.
  destruct (decide (Forall _ (month <$> read_sql table))) as [Hm|Hm].
  - cbn [mbind result_bind]. rewrite decide_True by (by apply Hfit). f_equal.
    generalize (read_sql table). clear. intros l.
    induction l as [|[m i j c] l IH]; [done|]. cbn. by rewrite IH.
  - cbn [mbind result_bind]. rewrite decide_False; [done|]. by intros ?%Hfit.
Qed.

End LoadingEdges.

Section CorrelationFrames.
Import Correlations CorrelationSpec.
Context (sqrt : Q → Q) (dropna : bool).

Lemma list_find_label (cols : list (string * list float64)) i c :
  NoDup cols.*1 → cols !! i = Some c →
  list_find (λ c', c'.1 = c.1) cols = Some (i, c).
Proof.
  intros Hnd Hi. apply list_find_Some. split_and!; [done..|].
  intros j y Hj Hlt Heq.
  assert (i = j); [|lia].
  apply (NoDup_lookup _ _ _ c.1 Hnd); rewrite list_lookup_fmap.
  - by rewrite Hi.
  - rewrite Hj. simpl. by rewrite Heq.
Qed.

(** With distinct labels, the matrix built by position is the table of
    [corr_at] over the labels. *)
Lemma corr_matrix_labels (p : frame) :
  NoDup (columns p).*1 →
  corr_matrix sqrt p
  = (λ cx, (cx.1, (λ cy, (cy.1, corr_at sqrt p cx.1 cy.1)) <$> columns p))
      <$> columns p.
Proof.
  intros Hnd. unfold corr_matrix.
  rewrite <-(imap_const (λ cx, (cx.1, _))). apply imap_ext.
  intros xi cx Hxi. simpl. f_equal.
  rewrite <-(imap_const (λ cy, (cy.1, _))). apply imap_ext.
  intros yi cy Hyi. simpl. f_equal.
  unfold corr_at.
  by rewrite (list_find_label _ xi cx), (list_find_label _ yi cy).
Qed.

Lemma stack_corr_matrix (p : frame) :
  NoDup (columns p).*1 →
  stack dropna (corr_matrix sqrt p)
  = i ← (columns p).*1; j ← (columns p).*1;
    if dropped dropna (corr_at sqrt p i j) then []
    else [(i, j, corr_at sqrt p i j)].
Proof.
  intros Hnd. rewrite corr_matrix_labels by done. unfold stack.
  rewrite !bind_fmap_list. apply list_bind_ext; [|done].
  intros cx. simpl. by rewrite !bind_fmap_list.
Qed.

Lemma offdiag_long (V : string → string → float64) (K L : list string) :
  filter (λ t : string * string * float64, t.1.1 ≠ t.1.2)
    (i ← K; j ← L; if dropped dropna (V i j) then [] else [(i, j, V i j)])
  = (λ ij, (ij.1, ij.2, V ij.1 ij.2))
      <$> filter (λ ij, ij.1 ≠ ij.2 ∧ dropped dropna (V ij.1 ij.2) = false)
                 (cprod K L).
Proof.
  unfold cprod, list_cprod.
  induction K as [|i K IH]; [done|].
  cbn [mbind list_bind]. rewrite !filter_app, fmap_app, IH. f_equal.
  clear IH. induction L as [|j L IH]; [done|].
  cbn [mbind list_bind fmap list_fmap].
  rewrite filter_app, IH, (filter_cons _ (i, j)). simpl.
  destruct (dropped dropna (V i j)) eqn:Hna; simpl.
  - rewrite decide_False by (intros [_ ?]; congruence). done.
  - rewrite filter_cons. simpl.
    destruct (decide (i ≠ j)).
    + by rewrite decide_True.
    + rewrite decide_False by tauto. done.
Qed.

(** The rows appended for a month whose filtered frame is [p]. *)
Lemma month_block (m : date) (p : frame) :
  NoDup (columns p).*1 →
  (λ t, mkCorr m t.1.1 t.1.2 t.2)
    <$> filter (λ t, t.1.1 ≠ t.1.2) (stack dropna (corr_matrix sqrt p))
  = (λ ij, mkCorr m ij.1 ij.2 (corr_at sqrt p ij.1 ij.2))
      <$> filter (λ ij, ij.1 ≠ ij.2
                        ∧ dropped dropna (corr_at sqrt p ij.1 ij.2) = false)
                 (cprod (columns p).*1 (columns p).*1).
Proof.
  intros Hnd. rewrite stack_corr_matrix, offdiag_long by done.
  by rewrite <-list_fmap_compose.
Qed.

Lemma pivot_Ok (g : list ret_row) :
  NoDup (key <$> g) → ∃ p, pivot g = Ok p.
Proof. intros Hnd. unfold pivot. rewrite decide_True by done. eauto. Qed.

Lemma pivot_Ok_inv (g : list ret_row) p :
  pivot g = Ok p →
  NoDup (key <$> g)
  ∧ index p = unique_sorted date_le (day <$> g)
  ∧ columns p
    = (λ a, (a, (λ d, cell g d a) <$> unique_sorted date_le (day <$> g)))
        <$> unique_sorted string_le (asset_address <$> g).
Proof.
  unfold pivot. case_decide; [|done]. intros [= <-]. done.
Qed.

Lemma pivot_labels (g : list ret_row) p :
  pivot g = Ok p →
  (columns p).*1 = unique_sorted string_le (asset_address <$> g).
Proof.
  intros (_ & _ & ->)%pivot_Ok_inv.
  rewrite <-list_fmap_compose. apply list_fmap_id.
Qed.

Lemma pivot_NoDup_labels (g : list ret_row) p :
  pivot g = Ok p → NoDup (columns p).*1.
Proof. intros ->%pivot_labels. apply NoDup_unique_sorted. Qed.

Lemma select_NoDup_labels (labels : list string) (p : frame) :
  NoDup (columns p).*1 → NoDup (columns (select labels p)).*1.
Proof. apply NoDup_fmap_fst_filter. Qed.

End CorrelationFrames.

Section FilterFacts.
Context {A : Type} (P : A → Prop) `{∀ x, Decision (P x)}.

Lemma filter_all (l : list A) : (∀ x, x ∈ l → P x) → filter P l = l.
Proof.
  induction l as [|x l IH]; intros Hall; [done|].
  rewrite filter_cons, decide_True by (apply Hall; left).
  f_equal. apply IH. intros. apply Hall. by right.
Qed.

Lemma filter_none (l : list A) : (∀ x, x ∈ l → ¬ P x) → filter P l = [].
Proof.
  induction l as [|x l IH]; intros Hall; [done|].
  rewrite filter_cons, decide_False by (apply Hall; left).
  apply IH. intros. apply Hall. by right.
Qed.

End FilterFacts.

Section CorrelationRun.
Import Correlations CorrelationSpec.
Context (pd : pandas) (sqrt : Q → Q) (min_days : nat).

Lemma concat_omap {A B} (f : A → option (list B)) (l : list A) :
  concat (omap f l) = l ≫= (λ x, default [] (f x)).
Proof.
  induction l as [|x l IH]; [done|]. cbn. destruct (f x); cbn; by rewrite IH.
Qed.

Lemma filter_bind_keys {A} (F : date → list A) (mo : A → date)
    (keys : list date) (m : date) :
  NoDup keys → (∀ k e, e ∈ F k → mo e = k) →
  filter (λ e, mo e = m) (keys ≫= F) = if decide (m ∈ keys) then F m else [].
Proof.
  intros Hnd HF. induction Hnd as [|k keys Hk Hnd IH]; [done|].
  cbn [mbind list_bind]. rewrite filter_app, IH.
  destruct (decide (k = m)) as [->|Hne].
  - rewrite (decide_True (P := m ∈ m :: keys)) by left.
    rewrite decide_False by done.
    rewrite app_nil_r. apply filter_all. intros e He. by apply HF.
  - rewrite filter_none.
    2:{ intros e He Hm. apply Hne. by rewrite <-(HF k e He). }
    simpl. destruct (decide (m ∈ keys)).
    + rewrite decide_True; [done|by right].
    + rewrite decide_False; [done|]. intros [->|?]%elem_of_cons; done.
Qed.

(** The edges of month [m] as the specification describes them: one per
    ordered pair of distinct survivors whose correlation is present. *)
Lemma short_no_pairs {A} `{EqDecision A} (P : A * A → Prop)
    `{∀ x, Decision (P x)} (K : list A) :
  length K < 2 → filter (λ ij, ij.1 ≠ ij.2 ∧ P ij) (cprod K K) = [].
Proof.
  intros Hlen. destruct K as [|a [|b K]]; [done| |simpl in Hlen; lia].
  apply filter_none. intros [i j] [[=]|[]%elem_of_nil]%elem_of_cons.
  simpl. intros [Hne _]. congruence.
Qed.

Lemma month_records_eq (g : date * list ret_row) :
  month_records pd sqrt min_days g
  = match pivot g.2 with
    | Ok p =>
        let p := select (keep_cols min_days p) p in
        if (length (columns p) <? 2)%nat then Ok None
        else Ok (Some ((λ t, mkCorr g.1 t.1.1 t.1.2 t.2)
                         <$> filter (λ t, t.1.1 ≠ t.1.2)
                                    (stack (stack_dropna pd)
                                       (corr_matrix sqrt p))))
    | Raise e => Raise e
    end.
Proof. unfold month_records. by destruct (pivot g.2). Qed.

Lemma month_records_block (table : list ohlc_daily) (m : date) r :
  month_records pd sqrt min_days (m, month_rows table m) = Ok r →
  default [] r
  = (λ ij, mkCorr m ij.1 ij.2 (pair_corr sqrt min_days table m ij.1 ij.2))
      <$> filter (λ ij, ij.1 ≠ ij.2
                        ∧ dropped (stack_dropna pd)
                            (pair_corr sqrt min_days table m ij.1 ij.2) = false)
                 (cprod (survivors min_days table m) (survivors min_days table m)).
Proof.
  rewrite month_records_eq. unfold survivors, pair_corr, month_frame.
  cbn [fst snd].
  destruct (pivot (month_rows table m)) as [p|e] eqn:Hp; [|done].
  cbv zeta. destruct (Nat.ltb _ 2) eqn:Hlen; intros [= <-]; simpl.
  - apply Nat.ltb_lt in Hlen.
    rewrite (short_no_pairs (λ ij, dropped _ _ = false)); [done|].
    by rewrite length_fmap.
  - apply month_block, select_NoDup_labels. by eapply pivot_NoDup_labels.
Qed.

Lemma groupby_month_keys (df : list ret_row) :
  groupby_month df
  = (λ m, (m, filter (λ r, ret_month r = m) df))
      <$> unique_sorted date_le (ret_month <$> df).
Proof. done. Qed.

Lemma pivot_nil : pivot [] = Ok (mkFrame [] []).
Proof. done. Qed.

(** The run: the conversion of the dates, then the loop over the months. *)
Lemma monthly_corr_eq (table : list ohlc_daily) :
  monthly_corr pd sqrt min_days table
  = if decide (dates_fit pd table) then
      records ← for_each (month_records pd sqrt min_days)
                         (groupby_month (observations table));
      Ok (match records with [] => [] | _ => concat records end)
    else Raise OutOfBoundsDatetime.
Proof. unfold monthly_corr. rewrite load_spec. by case_decide. Qed.

Lemma monthly_corr_dates_fit (table : list ohlc_daily) (out : list corr_row) :
  monthly_corr pd sqrt min_days table = Ok out → dates_fit pd table.
Proof. rewrite monthly_corr_eq. by case_decide. Qed.

Lemma edges_in_spec (table : list ohlc_daily) (out : list corr_row) (m : date) :
  monthly_corr pd sqrt min_days table = Ok out →
  edges_in m out
  = (λ ij, mkCorr m ij.1 ij.2 (pair_corr sqrt min_days table m ij.1 ij.2))
      <$> filter (λ ij, ij.1 ≠ ij.2
                        ∧ dropped (stack_dropna pd)
                            (pair_corr sqrt min_days table m ij.1 ij.2) = false)
                 (cprod (survivors min_days table m) (survivors min_days table m)).
Proof.
  rewrite monthly_corr_eq. case_decide as Hfit; [|done]. intros Hrun.
  destruct (for_each _ _) as [records|e] eqn:Hfor; [|done].
  cbn in Hrun. injection Hrun as <-. rewrite concat_or_empty.
  pose proof (for_each_Ok_inv _ _ _ Hfor) as Hbody.
  rewrite for_each_Ok in Hfor by done. injection Hfor as <-.
  rewrite concat_omap, groupby_month_keys, bind_fmap_list in *.
  unfold edges_in.
  rewrite (filter_bind_keys _ month); [| apply NoDup_unique_sorted |].
  - case_decide as Hm.
    + destruct (Hbody (m, month_rows table m)) as [r Hr].
      { apply list_elem_of_fmap. eauto. }
      fold (month_rows table m). rewrite Hr. by apply month_records_block.
    + assert (month_rows table m = []) as Hnil.
      { apply filter_none. intros r Hr Hrm. apply Hm.
        apply elem_of_unique_sorted, list_elem_of_fmap. eauto. }
      erewrite <-month_records_block.
      2:{ rewrite Hnil. reflexivity. }
      done.
  - intros k e. fold (month_rows table k).
    destruct (month_records _ _ _) as [r|] eqn:Hr; [|by intros ?%elem_of_nil].
    rewrite (month_records_block _ _ _ Hr).
    by intros (ij & -> & _)%list_elem_of_fmap.
Qed.
End CorrelationRun.

Section ValidCounts.
Import Correlations CorrelationSpec.

Lemma NoDup_fmap_elem_inj {A B} (f : A → B) (l : list A) x y :
  NoDup (f <$> l) → x ∈ l → y ∈ l → f x = f y → x = y.
Proof.
  intros Hnd (i & Hi)%list_elem_of_lookup (j & Hj)%list_elem_of_lookup Hf.
  assert (i = j) as ->; [|congruence].
  apply (NoDup_lookup _ _ _ (f x) Hnd); rewrite list_lookup_fmap.
  - by rewrite Hi.
  - rewrite Hj. simpl. by rewrite Hf.
Qed.

Lemma length_filter_fmap {A B} (f : A → B) (P : B → Prop)
    `{∀ x, Decision (P x)} (l : list A) :
  length (filter P (f <$> l)) = length (filter (λ x, P (f x)) l).
Proof.
  induction l as [|x l IH]; [done|].
  cbn [fmap list_fmap]. rewrite !filter_cons.
  destruct (decide (P (f x))); simpl; by rewrite IH.
Qed.

(** A cell of the pivot is present exactly when the month has a present
    observation for that day and asset. *)
Lemma cell_present (g : list ret_row) (d : date) (a : string) :
  NoDup (key <$> g) →
  isna (cell g d a) = false
  ↔ ∃ r, r ∈ g ∧ day r = d ∧ asset_address r = a ∧ isna (log_return r) = false.
Proof.
  intros Hnd. unfold cell.
  destruct (list_find _ g) as [[i r]|] eqn:Hfind.
  - apply list_find_Some in Hfind as (Hi & [Hd Ha] & _).
    apply list_elem_of_lookup_2 in Hi.
    split; [by eauto 6|].
    intros (r' & Hr' & Hd' & Ha' & Hna).
    assert (r' = r) as <-; [|done].
    apply (NoDup_fmap_elem_inj key g); [done..|].
    unfold key. congruence.
  - apply list_find_None in Hfind. rewrite Forall_forall in Hfind.
    split; [done|]. intros (r & Hr & Hd & Ha & _).
    destruct (Hfind r Hr). done.
Qed.

(** [pivot.count()] of a column is the number of present observations of
    that asset in the month. *)
Lemma count_column (g : list ret_row) (a : string) :
  NoDup (key <$> g) →
  count ((λ d, cell g d a) <$> unique_sorted date_le (day <$> g))
  = length (filter (λ r, asset_address r = a ∧ isna (log_return r) = false) g).
Proof.
  intros Hnd. unfold count. rewrite length_filter_fmap.
  rewrite <-(length_fmap day (filter _ g)).
  apply Permutation_length, NoDup_Permutation.
  - apply NoDup_filter, NoDup_unique_sorted.
  - apply NoDup_fmap_2_strong.
    + intros x y [[Hx _] Hxg]%list_elem_of_filter [[Hy _] Hyg]%list_elem_of_filter Hd.
      apply (NoDup_fmap_elem_inj key g); [done..|]. unfold key. congruence.
    + apply NoDup_filter. by eapply NoDup_fmap_1.
  - intros d. rewrite list_elem_of_filter, elem_of_unique_sorted, cell_present by done.
    rewrite !list_elem_of_fmap. setoid_rewrite list_elem_of_filter.
    naive_solver.
Qed.

Lemma month_rows_count (table : list ohlc_daily) (m : date) (a : string) :
  length (filter (λ r, asset_address r = a ∧ isna (log_return r) = false)
                 (month_rows table m))
  = valid_days table m a.
Proof.
  unfold valid_days, month_rows, observations.
  induction table as [|t table IH]; [done|].
  rewrite (filter_cons _ t). cbn [omap list_omap].
  destruct t as [a' d [[|q]|]]; simpl.
  - rewrite !filter_cons. simpl.
    rewrite (decide_False (P := _ ∧ _ ∧ false = true)) by naive_solver.
    destruct (decide (to_month d = m)); [|done].
    rewrite filter_cons. simpl. rewrite decide_False by naive_solver. done.
  - rewrite !filter_cons. simpl.
    destruct (decide (to_month d = m)), (decide (a' = a)).
    + rewrite filter_cons. simpl. rewrite !decide_True by done. simpl. by rewrite IH.
    + rewrite filter_cons. simpl. rewrite !decide_False by naive_solver. done.
    + rewrite !decide_False by naive_solver. done.
    + rewrite !decide_False by naive_solver. done.
  - rewrite decide_False by naive_solver. done.
Qed.

(** The assets that survive the filter of month [m]. *)
Lemma elem_of_survivors (min_days : nat) (table : list ohlc_daily)
    (m : date) (a : string) :
  a ∈ survivors min_days table m
  ↔ NoDup (key <$> month_rows table m)
    ∧ (∃ r, r ∈ month_rows table m ∧ asset_address r = a)
    ∧ min_days ≤ valid_days table m a.
Proof.
  unfold survivors, month_frame. rewrite <-month_rows_count.
  generalize (month_rows table m). intros g.
  destruct (pivot g) as [p|e] eqn:Hp.
  - apply pivot_Ok_inv in Hp as (Hnd & _ & Hcols).
    unfold select, keep_cols, valid_counts. simpl. rewrite Hcols. split.
    + intros (c & -> & [Hkeep Hc]%list_elem_of_filter)%list_elem_of_fmap.
      apply list_elem_of_fmap in Hc as (a & -> & Ha). simpl in *.
      apply elem_of_unique_sorted, list_elem_of_fmap in Ha as (r & -> & Hr).
      apply list_elem_of_fmap in Hkeep as (vc & Hvc & [Hmin Hin]%list_elem_of_filter).
      apply list_elem_of_fmap in Hin as (c & -> & Hc).
      apply list_elem_of_fmap in Hc as (a' & -> & _). simpl in *. subst a'.
      rewrite count_column in Hmin by done. eauto.
    + intros (_ & (r & Hr & <-) & Hmin).
      rewrite <-count_column in Hmin by done.
      assert (asset_address r ∈ unique_sorted string_le (asset_address <$> g)) as Hlab.
      { apply elem_of_unique_sorted, list_elem_of_fmap. eauto. }
      apply list_elem_of_fmap. eexists (_, _). split; [done|].
      apply list_elem_of_filter. split.
      2:{ apply list_elem_of_fmap. eauto. }
      simpl. apply list_elem_of_fmap. eexists (_, _). split; [done|].
      apply list_elem_of_filter. split; [done|].
      apply list_elem_of_fmap. eexists (_, _). split; [done|].
      apply list_elem_of_fmap. eauto.
  - unfold pivot in Hp. case_decide as Hnd; [done|].
    simpl. split; [by intros ?%elem_of_nil|]. by intros [? _].
Qed.

End ValidCounts.

Section CorrelationClaims.
Import Correlations CorrelationSpec.
Context (pd : pandas) (sqrt : Q → Q) (min_days : nat).

Lemma NoDup_key_filter (P : ret_row → Prop) `{∀ r, Decision (P r)}
    (df : list ret_row) :
  NoDup (key <$> df) → NoDup (key <$> filter P df).
Proof.
  intros Hnd. apply (sublist_NoDup _ (key <$> df)); [done|].
  apply fmap_sublist, sublist_filter.
Qed.

(** The run completes on every table whose dates fit and that has no
    duplicate (day, asset) observations. *)
Lemma monthly_corr_Ok (table : list ohlc_daily) :
  dates_fit pd table → NoDup (key <$> observations table) →
  ∃ out, monthly_corr pd sqrt min_days table = Ok out.
Proof.
  intros Hfit Hnd. rewrite monthly_corr_eq, decide_True by done.
  rewrite for_each_Ok; [by eauto|].
  intros g (m & -> & _)%list_elem_of_fmap.
  rewrite month_records_eq. cbn [fst snd].
  destruct (pivot_Ok (filter (λ r, ret_month r = m) (observations table)))
    as [p ->]; [by apply NoDup_key_filter|].
  cbv zeta. destruct (Nat.ltb _ 2); eauto.
Qed.

Lemma dropped_false (dropna : bool) (x : float64) :
  dropped dropna x = false ↔ (dropna = true → isna x = false).
Proof. unfold dropped. destruct dropna, (isna x); naive_solver. Qed.

Lemma NoDup_survivors (table : list ohlc_daily) (m : date) :
  NoDup (survivors min_days table m).
Proof.
  unfold survivors, month_frame.
  destruct (pivot _) as [p|] eqn:Hp; [|constructor].
  apply select_NoDup_labels. by eapply pivot_NoDup_labels.
Qed.

Lemma corr_at_sym (p : frame) (i j : string) :
  corr_at sqrt p i j = corr_at sqrt p j i.
Proof.
  unfold corr_at.
  destruct (list_find _ _) as [[xi cx]|] eqn:Hi;
    destruct (list_find (λ c, c.1 = j) _) as [[yi cy]|] eqn:Hj; try done.
  destruct (decide (yi ≤ xi)), (decide (xi ≤ yi)); try done; [|lia].
  assert (xi = yi) as -> by lia.
  apply list_find_Some in Hi as (Hi & _), Hj as (Hj & _).
  congruence.
Qed.

(** Membership in the result, row by row. *)
Lemma elem_of_monthly_corr (table : list ohlc_daily) (out : list corr_row)
    (e : corr_row) :
  monthly_corr pd sqrt min_days table = Ok out →
  e ∈ out
  ↔ asset_i e ∈ survivors min_days table (month e)
    ∧ asset_j e ∈ survivors min_days table (month e)
    ∧ asset_i e ≠ asset_j e
    ∧ corr e = pair_corr sqrt min_days table (month e) (asset_i e) (asset_j e)
    ∧ (stack_dropna pd = true → isna (corr e) = false).
Proof.
  intros Hrun. rewrite <-dropped_false.
  assert (e ∈ out ↔ e ∈ edges_in (month e) out) as ->.
  { unfold edges_in. rewrite list_elem_of_filter. tauto. }
  rewrite (edges_in_spec _ _ _ _ _ _ Hrun), list_elem_of_fmap.
  split.
  - intros ([i j] & -> & [[Hne Hna] [Hi Hj]%list_elem_of_cprod]%list_elem_of_filter).
    simpl in *. done.
  - intros (Hi & Hj & Hne & Hc & Hna).
    exists (asset_i e, asset_j e). split.
    + destruct e. simpl in *. by rewrite Hc.
    + apply list_elem_of_filter. simpl. rewrite <-Hc.
      split; [done|]. by apply list_elem_of_cprod.
Qed.

End CorrelationClaims.

Section CorrelationTheorems.
Import Correlations CorrelationSpec.
Context (pd : pandas) (sqrt : Q → Q) (min_days : nat).

(** X17.  In a run that completes, the rows emitted for a month [m] with
    surviving assets [K] are exactly the ordered pairs [(i, j)] of
    different survivors that [stack] keeps, each once and with the
    correlation of the pair.  When [stack] keeps the missing entries the
    month has [k * (k - 1)] rows; when it drops them, that number less the
    ordered pairs whose correlation is absent. *)
Theorem X17_one_row_per_kept_pair (table : list ohlc_daily)
    (out : list corr_row) :
  monthly_corr pd sqrt min_days table = Ok out →
  ∀ m,
    let K := survivors min_days table m in
    NoDup (edges_in m out)
    ∧ (∀ i j c,
         mkCorr m i j c ∈ out
         ↔ i ∈ K ∧ j ∈ K ∧ i ≠ j
           ∧ c = pair_corr sqrt min_days table m i j
           ∧ (stack_dropna pd = true → isna c = false))
    ∧ length (edges_in m out)
      + (if stack_dropna pd
         then length (absent_pairs sqrt min_days table m) else 0)
      = length K * (length K - 1).
Proof.
  intros Hrun m K. split_and!.
  - rewrite (edges_in_spec _ _ _ _ _ _ Hrun).
    apply NoDup_fmap_2_strong.
    + intros [i j] [i' j'] _ _ [=]. by subst.
    + apply NoDup_filter, NoDup_cprod; apply NoDup_survivors.
  - intros i j c. by rewrite (elem_of_monthly_corr _ _ _ _ _ _ Hrun).
  - rewrite (edges_in_spec _ _ _ _ _ _ Hrun), length_fmap.
    unfold absent_pairs. fold K. unfold dropped.
    destruct (stack_dropna pd); simpl.
    + rewrite (length_filter_split (λ ij : string * string, ij.1 ≠ ij.2)
                 (λ ij, isna (pair_corr sqrt min_days table m ij.1 ij.2))).
      apply length_offdiag; [apply NoDup_survivors|done].
    + rewrite Nat.add_0_r.
      rewrite (list_filter_iff _ (λ ij : string * string, ij.1 ≠ ij.2))
        by naive_solver.
      apply length_offdiag; [apply NoDup_survivors|done].
Qed.

(** C2.  Every emitted edge joins two different assets, the reverse edge
    of the same month is emitted too with the identical correlation value,
    and a month holds at most one value per ordered pair. *)
Theorem C2_edges_irreflexive_symmetric (table : list ohlc_daily)
    (out : list corr_row) :
  monthly_corr pd sqrt min_days table = Ok out →
  ∀ e, e ∈ out →
    asset_i e ≠ asset_j e
    ∧ mkCorr (month e) (asset_j e) (asset_i e) (corr e) ∈ out
    ∧ ∀ e', e' ∈ out → month e' = month e →
        asset_i e' = asset_j e → asset_j e' = asset_i e → corr e' = corr e.
Proof.
  intros Hrun e He.
  apply (elem_of_monthly_corr _ _ _ _ _ _ Hrun) in He as (Hi & Hj & Hne & Hc & Hna).
  split_and!.
  - done.
  - apply (elem_of_monthly_corr _ _ _ _ _ _ Hrun). simpl.
    split_and!; [done|done|by apply not_eq_sym| |done].
    rewrite Hc. apply corr_at_sym.
  - intros e' He' Hm Hi' Hj'.
    apply (elem_of_monthly_corr _ _ _ _ _ _ Hrun) in He' as (_ & _ & _ & Hc' & _).
    rewrite Hc', Hc, Hm, Hi', Hj'. apply corr_at_sym.
Qed.

Lemma survivor_in_table (table : list ohlc_daily) (m : date) (a : string) :
  a ∈ survivors min_days table m → a ∈ ohlc_asset_address <$> table.
Proof.
  intros (_ & (r & [_ Hr]%list_elem_of_filter & <-) & _)%elem_of_survivors.
  apply list_elem_of_omap in Hr as (t & Ht & Hr).
  apply list_elem_of_fmap. exists t. split; [|done].
  destruct (ohlc_log_return t); by simplify_eq.
Qed.

Lemma survivor_qualifies (table : list ohlc_daily) (m : date) (a : string) :
  a ∈ survivors min_days table m → a ∈ qualifying min_days table m.
Proof.
  intros Ha. apply list_elem_of_filter. split.
  - by apply elem_of_survivors in Ha as (_ & _ & ?).
  - apply elem_of_remove_dups. by eapply survivor_in_table.
Qed.

Lemma two_distinct_elements {A} (l : list A) (x y : A) :
  x ∈ l → y ∈ l → x ≠ y → 2 ≤ length l.
Proof.
  destruct l as [|a [|b l]]; simpl; [by intros ?%elem_of_nil| |lia].
  intros ->%list_elem_of_singleton ->%list_elem_of_singleton. done.
Qed.

(** C3.  Both endpoints of every edge emitted for a month have at least
    [min_days] non-absent daily observations within that month, and a month
    in which fewer than two assets meet that bound gets no edge. *)
Theorem C3_min_days_per_asset (table : list ohlc_daily) (out : list corr_row) :
  monthly_corr pd sqrt min_days table = Ok out →
  (∀ e, e ∈ out →
     min_days ≤ valid_days table (month e) (asset_i e)
     ∧ min_days ≤ valid_days table (month e) (asset_j e))
  ∧ (∀ m, length (qualifying min_days table m) < 2 → edges_in m out = []).
Proof.
  intros Hrun. split.
  - intros e (Hi & Hj & _)%(elem_of_monthly_corr _ _ _ _ _ _ Hrun).
    apply elem_of_survivors in Hi as (_ & _ & Hi), Hj as (_ & _ & Hj). done.
  - intros m Hlt. destruct (edges_in m out) as [|e es] eqn:Hes; [done|].
    assert (e ∈ edges_in m out) as [<- He]%list_elem_of_filter
      by (rewrite Hes; left).
    apply (elem_of_monthly_corr _ _ _ _ _ _ Hrun) in He as (Hi & Hj & Hne & _).
    apply survivor_qualifies in Hi, Hj.
    pose proof (two_distinct_elements _ _ _ Hi Hj Hne). lia.
Qed.

Lemma read_sql_copy_rows (out : list corr_row) :
  Network.read_sql (copy_row <$> out) = filter (λ e, isna (corr e) = false) out.
Proof.
  unfold Network.read_sql. induction out as [|e out IH]; [done|].
  cbn [fmap list_fmap omap list_omap]. rewrite filter_cons, IH.
  destruct e as [m i j [|q]]; done.
Qed.


End CorrelationTheorems.

Section FewOverlappingDays.
Import Correlations CorrelationSpec.
Context (sqrt : Q → Q) (sqrt_zero : ∀ q, (q == 0)%Q → (sqrt q == 0)%Q).

Lemma welford_step_present (s : welford) (vx vy : Q) :
  s = mkW 0 0 0 0 0 0 →
  nobs (welford_step s (Fin vx, Fin vy)) = 1
  ∧ (ssqdm_x (welford_step s (Fin vx, Fin vy)) == 0)%Q.
Proof. intros ->. split; [done|]. simpl. field. Qed.

Lemma welford_few (l : list (float64 * float64)) (s : welford) :
  s = mkW 0 0 0 0 0 0 ∨ (nobs s = 1 ∧ (ssqdm_x s == 0)%Q) →
  nobs s + length (filter (λ xy, isna xy.1 = false ∧ isna xy.2 = false) l) < 2 →
  let s' := foldl welford_step s l in
  nobs s' = 0 ∨ (nobs s' = 1 ∧ (ssqdm_x s' == 0)%Q).
Proof.
  revert s. induction l as [|[x y] l IH]; intros s Hs Hlen; cbn [foldl].
  { destruct Hs as [->|?]; [by left|by right]. }
  rewrite filter_cons in Hlen. simpl in Hlen.
  destruct x as [|vx], y as [|vy]; simpl in Hlen; try (by apply IH).
  destruct Hs as [Hs|[Hs _]]; [|lia].
  destruct (welford_step_present s vx vy Hs) as [Hn Hx].
  apply IH; [by right|]. rewrite Hn. subst s. simpl in Hlen. lia.
Qed.

(** Two columns with fewer than two common days have an absent
    correlation. *)
Lemma nancorr_few_overlap (xs ys : list float64) :
  overlap xs ys < 2 → nancorr sqrt xs ys = NaN.
Proof.
  intros Hlt. unfold nancorr.
  destruct (welford_few (zip xs ys) (mkW 0 0 0 0 0 0)) as [Hn|[Hn Hx]];
    [by left|done|..].
  - by rewrite Hn.
  - rewrite Hn. simpl.
    assert (sqrt (ssqdm_x (foldl welford_step (mkW 0 0 0 0 0 0) (zip xs ys))
                  * ssqdm_y (foldl welford_step (mkW 0 0 0 0 0 0) (zip xs ys)))
            == 0)%Q as Hdiv.
    { apply sqrt_zero. rewrite Hx. ring. }
    apply Qeq_bool_iff in Hdiv. by rewrite Hdiv.
Qed.

End FewOverlappingDays.

(** ** Network Metrics Builder *)

Section GraphFacts.
Import Network NetworkSpec.
Implicit Types (G : Graph) (u v x y : string) (w : float64).

Lemma neighbors_add_node u G x : neighbors (add_node u G) x = neighbors G x.
Proof.
  unfold neighbors, add_node. destruct (G !! u) eqn:Hu; [done|].
  destruct (decide (x = u)) as [->|Hne].
  - by rewrite lookup_total_insert_eq, lookup_total_alt, Hu.
  - by rewrite lookup_total_insert_ne.
Qed.

Lemma dom_add_node u G : dom (add_node u G) = {[u]} ∪ dom G.
Proof.
  unfold add_node. destruct (G !! u) eqn:Hu.
  - apply elem_of_dom_2 in Hu. set_solver.
  - by rewrite dom_insert_L.
Qed.

Lemma dom_add_edge u v w G : dom (add_edge u v w G) = {[u; v]} ∪ dom G.
Proof.
  unfold add_edge. rewrite !dom_insert_L, !dom_add_node. set_solver.
Qed.

Lemma neighbors_add_edge u v w G x :
  neighbors (add_edge u v w G) x
  = neighbors G x ∪ (if decide (x = u) then {[v]} else ∅)
                  ∪ (if decide (x = v) then {[u]} else ∅).
Proof.
  unfold add_edge.
  pose proof (neighbors_add_node v (add_node u G)) as H1.
  pose proof (neighbors_add_node u G) as H2.
  unfold neighbors in *.
  destruct (decide (x = v)) as [Hxv|Hxv], (decide (x = u)) as [Hxu|Hxu];
    subst; rewrite ?lookup_total_insert_eq, ?lookup_total_insert_ne by done;
    rewrite ?dom_insert_L, ?lookup_total_insert_eq, ?lookup_total_insert_ne by done;
    rewrite ?dom_insert_L, ?H1, ?H2; set_solver.
Qed.

Lemma neighbors_in_dom G u v : v ∈ neighbors G u → u ∈ dom G.
Proof.
  unfold neighbors. intros Hv. apply elem_of_dom.
  destruct (G !! u) eqn:Hu; [done|].
  rewrite lookup_total_alt, Hu in Hv. set_solver.
Qed.

Lemma dom_build_graph_from (rows : list corr_row) G x :
  x ∈ dom (foldl (λ G row, add_edge (asset_i row) (asset_j row) (corr row) G) G rows)
  ↔ x ∈ dom G ∨ ∃ r, r ∈ rows ∧ (x = asset_i r ∨ x = asset_j r).
Proof.
  revert G. induction rows as [|r rows IH]; intros G; simpl.
  - set_solver.
  - rewrite IH, dom_add_edge. set_solver.
Qed.

Lemma neighbors_build_graph_from (rows : list corr_row) G x y :
  y ∈ neighbors (foldl (λ G row, add_edge (asset_i row) (asset_j row) (corr row) G) G rows) x
  ↔ y ∈ neighbors G x
    ∨ ∃ r, r ∈ rows ∧ ((x = asset_i r ∧ y = asset_j r)
                        ∨ (x = asset_j r ∧ y = asset_i r)).
Proof.
  revert G. induction rows as [|r rows IH]; intros G; simpl.
  - set_solver.
  - rewrite IH, neighbors_add_edge.
    repeat case_decide; set_solver.
Qed.

Lemma dom_build_graph (rows : list corr_row) x :
  x ∈ dom (build_graph rows)
  ↔ ∃ r, r ∈ rows ∧ (x = asset_i r ∨ x = asset_j r).
Proof. unfold build_graph. rewrite dom_build_graph_from. set_solver. Qed.

Lemma has_edge_build_graph (rows : list corr_row) x y :
  has_edge (build_graph rows) x y
  ↔ ∃ r, r ∈ rows ∧ ((x = asset_i r ∧ y = asset_j r)
                      ∨ (x = asset_j r ∧ y = asset_i r)).
Proof.
  unfold has_edge, build_graph. rewrite neighbors_build_graph_from.
  unfold neighbors. rewrite lookup_total_empty. set_solver.
Qed.

Lemma build_graph_undirected (rows : list corr_row) :
  undirected (build_graph rows).
Proof.
  intros u v. rewrite !has_edge_build_graph. naive_solver.
Qed.

Lemma has_edge_dom G u v :
  undirected G → has_edge G u v → u ∈ dom G ∧ v ∈ dom G.
Proof.
  intros Hsym Huv. split; [by eapply neighbors_in_dom|].
  apply Hsym in Huv. by eapply neighbors_in_dom.
Qed.

End GraphFacts.

Section Traversal.
Import Network NetworkSpec.
Context (G : Graph) (Hsym : undirected G).
Implicit Types (seen level c : gset string) (s u v x : string).

Lemma rtc_has_edge_sym u v : rtc (has_edge G) u v → rtc (has_edge G) v u.
Proof.
  induction 1 as [|u v w Huv _ IH]; [done|].
  eapply rtc_r; [done|]. by apply Hsym.
Qed.

Lemma rtc_has_edge_dom u v : u ∈ dom G → rtc (has_edge G) u v → v ∈ dom G.
Proof.
  intros Hu Huv. induction Huv as [|u v w Huv _ IH]; [done|].
  apply IH. by apply (has_edge_dom G u v).
Qed.

Lemma bfs_inv_done s seen x :
  bfs_inv G s seen ∅ → x ∈ seen ↔ rtc (has_edge G) s x.
Proof.
  intros (Hs & _ & _ & Hsound & Hclosed). split; [by apply Hsound|].
  revert x. apply rtc_ind_r; [done|]. intros v w _ Hvw IH.
  apply (Hclosed v w); [done|set_solver|done].
Qed.

Lemma elem_of_nextlevel seen level y :
  y ∈ (⋃ (neighbors G <$> elements level)) ∖ seen
  ↔ (y ∉ seen) ∧ ∃ x, x ∈ level ∧ has_edge G x y.
Proof.
  rewrite elem_of_difference, elem_of_union_list.
  setoid_rewrite list_elem_of_fmap. setoid_rewrite elem_of_elements.
  unfold has_edge. naive_solver.
Qed.

Lemma bfs_inv_step s seen level :
  bfs_inv G s seen level →
  bfs_inv G s (seen ∪ (⋃ (neighbors G <$> elements level)) ∖ seen)
          ((⋃ (neighbors G <$> elements level)) ∖ seen).
Proof.
  intros (Hs & Hlevel & Hdom & Hsound & Hclosed).
  split_and!.
  - set_solver.
  - set_solver.
  - intros y [Hy|Hy]%elem_of_union; [by apply Hdom|].
    apply elem_of_nextlevel in Hy as (_ & x & Hx & Hxy).
    by apply (has_edge_dom G x y).
  - intros y [Hy|Hy]%elem_of_union; [by apply Hsound|].
    apply elem_of_nextlevel in Hy as (_ & x & Hx & Hxy).
    eapply rtc_r; [|done]. apply Hsound. set_solver.
  - intros x y [Hx|Hx]%elem_of_union Hnot Hxy; [|done].
    destruct (decide (y ∈ seen)) as [|Hy]; [set_solver|].
    apply elem_of_union. right. apply elem_of_nextlevel. split; [done|].
    exists x. split; [|done].
    destruct (decide (x ∈ level)) as [|Hxl]; [done|].
    destruct Hy. by apply (Hclosed x y).
Qed.

Lemma plain_bfs_loop_done fuel seen :
  plain_bfs_loop fuel G seen ∅ = seen.
Proof. destruct fuel; [done|]. simpl. by rewrite decide_True. Qed.

Lemma plain_bfs_loop_spec fuel s seen level x :
  bfs_inv G s seen level →
  size (dom G) - size seen < fuel →
  x ∈ plain_bfs_loop fuel G seen level ↔ rtc (has_edge G) s x.
Proof.
  revert seen level. induction fuel as [|fuel IH]; intros seen level Hinv Hfuel.
  { lia. }
  simpl. case_decide as Hlevel.
  { subst level. by apply bfs_inv_done. }
  pose proof (bfs_inv_step _ _ _ Hinv) as Hinv'.
  set (next := (⋃ (neighbors G <$> elements level)) ∖ seen) in *.
  destruct (decide (next = ∅)) as [Hnext|Hnext].
  { rewrite Hnext in *. rewrite plain_bfs_loop_done. by apply bfs_inv_done. }
  apply IH; [done|].
  destruct Hinv' as (_ & _ & Hdom & _).
  apply subseteq_size in Hdom.
  rewrite size_union in * by set_solver.
  assert (size next ≠ 0); [|lia].
  by rewrite size_non_empty_iff, leibniz_equiv_iff.
Qed.

(** [_plain_bfs] returns the nodes reachable from its source. *)
Lemma elem_of_plain_bfs s x :
  s ∈ dom G → x ∈ plain_bfs G s ↔ rtc (has_edge G) s x.
Proof.
  intros Hs. unfold plain_bfs. apply plain_bfs_loop_spec.
  - split_and!; [set_solver..| |set_solver].
    intros y ->%elem_of_singleton. done.
  - rewrite size_singleton, size_dom. lia.
Qed.

Lemma plain_bfs_subseteq s : s ∈ dom G → plain_bfs G s ⊆ dom G.
Proof.
  intros Hs x Hx%elem_of_plain_bfs; [|done]. by eapply rtc_has_edge_dom.
Qed.

Lemma components_loop_elem (nodes : list string) seen c :
  (∀ v, v ∈ nodes → v ∈ dom G) →
  c ∈ components_loop G nodes seen →
  ∃ s, s ∈ nodes ∧ c = plain_bfs G s.
Proof.
  revert seen. induction nodes as [|v nodes IH]; intros seen Hdom; simpl.
  { by intros ?%elem_of_nil. }
  case_decide.
  - intros (s & ? & ?)%IH; [|set_solver]. exists s. set_solver.
  - intros [->|(s & ? & ?)%IH]%elem_of_cons; [| |set_solver].
    + exists v. set_solver.
    + exists s. set_solver.
Qed.

Lemma components_loop_cover (nodes : list string) seen v :
  (∀ v, v ∈ nodes → v ∈ dom G) →
  v ∈ nodes → v ∈ seen ∨ ∃ c, c ∈ components_loop G nodes seen ∧ v ∈ c.
Proof.
  revert seen. induction nodes as [|u nodes IH]; intros seen Hdom Hv; simpl.
  { by apply elem_of_nil in Hv. }
  assert (u ∈ plain_bfs G u) as Hu.
  { apply elem_of_plain_bfs; [|done]. apply Hdom. left. }
  apply elem_of_cons in Hv as [->|Hv].
  - case_decide; [by left|]. right. exists (plain_bfs G u). set_solver.
  - case_decide.
    + destruct (IH seen) as [|(c & ? & ?)]; [set_solver|done|by left|].
      right. eauto.
    + destruct (IH (seen ∪ plain_bfs G u)) as [[|]%elem_of_union|(c & ? & ?)];
        [set_solver|done|by left|..].
      * right. exists (plain_bfs G u). set_solver.
      * right. exists c. set_solver.
Qed.

(** Every component is the set of nodes reachable from one of its
    members, and every node lies in a component. *)
Lemma elem_of_connected_components c :
  c ∈ connected_components G →
  ∃ s, s ∈ dom G ∧ ∀ x, x ∈ c ↔ rtc (has_edge G) s x.
Proof.
  intros (s & Hs%elem_of_elements & ->)%components_loop_elem.
  - exists s. split; [done|]. intros x. by apply elem_of_plain_bfs.
  - intros v. by rewrite elem_of_elements.
Qed.

Lemma connected_components_cover v :
  v ∈ dom G → ∃ c, c ∈ connected_components G ∧ v ∈ c.
Proof.
  intros Hv.
  destruct (components_loop_cover (elements (dom G)) ∅ v) as [|?];
    [|by apply elem_of_elements|set_solver|done].
  intros u. by rewrite elem_of_elements.
Qed.

Lemma component_size c :
  c ∈ connected_components G → 0 < size c ≤ size G.
Proof.
  intros (s & Hs & Hc)%elem_of_connected_components. split.
  - assert (s ∈ c) as Hsc by (by apply Hc).
    assert (size c ≠ 0); [|lia].
    rewrite size_non_empty_iff. set_solver.
  - rewrite <-(size_dom (D := gset string)). apply subseteq_size.
    intros x Hx%Hc. by eapply rtc_has_edge_dom.
Qed.

End Traversal.

Section Counting.
Import Network NetworkSpec.
Implicit Types (G : Graph) (u v x y : string).

Lemma max_by_len_fold (l : list (gset string)) (best : gset string) :
  let r := foldl (λ best c, if (size best <? size c)%nat then c else best) best l in
  (r = best ∨ r ∈ l) ∧ size best ≤ size r ∧ ∀ c, c ∈ l → size c ≤ size r.
Proof.
  revert best. induction l as [|c0 l IH]; intros best; simpl.
  { split_and!; [by left|done|]. by intros c ?%elem_of_nil. }
  destruct (IH (if (size best <? size c0)%nat then c0 else best))
    as (Hin & Hle & Hmax).
  destruct (Nat.ltb_spec (size best) (size c0)).
  - split_and!.
    + right. destruct Hin as [->|]; [left|by right].
    + lia.
    + intros c [->|?]%elem_of_cons; [done|by apply Hmax].
  - split_and!.
    + destruct Hin as [->|]; [by left|right; by right].
    + done.
    + intros c [->|?]%elem_of_cons; [lia|by apply Hmax].
Qed.

(** [max(..., key=len)] succeeds on a non-empty sequence and returns one
    of its longest items. *)
Lemma max_by_len_spec (l : list (gset string)) :
  l ≠ [] →
  ∃ c, max_by_len l = Ok c ∧ c ∈ l ∧ ∀ c', c' ∈ l → size c' ≤ size c.
Proof.
  destruct l as [|c0 l]; [done|]. intros _. eexists. split; [done|].
  destruct (max_by_len_fold l c0) as ([->|Hin] & Hle & Hmax).
  - split; [left|]. intros c' [->|?]%elem_of_cons; [done|by apply Hmax].
  - split; [by right|]. intros c' [->|?]%elem_of_cons; [done|by apply Hmax].
Qed.

Lemma degree_pos G u v nbrs :
  G !! u = Some nbrs → has_edge G u v → 1 ≤ degree u nbrs.
Proof.
  unfold has_edge, neighbors, degree. intros Hu.
  rewrite (lookup_total_correct _ _ _ Hu). intros Hv.
  assert (size nbrs ≠ 0); [|lia].
  apply elem_of_dom in Hv as [w Hw]. eapply map_size_ne_0_lookup_2; eauto.
Qed.

Lemma degree_self_loop G u nbrs :
  G !! u = Some nbrs → has_edge G u u → 2 ≤ degree u nbrs.
Proof.
  intros Hu Huu. unfold has_edge, neighbors in Huu.
  rewrite (lookup_total_correct _ _ _ Hu) in Huu.
  unfold degree. rewrite decide_True by done.
  assert (size nbrs ≠ 0); [|lia].
  apply elem_of_dom in Huu as [w Hw]. eapply map_size_ne_0_lookup_2; eauto.
Qed.

Lemma degree_in_degrees G u nbrs :
  G !! u = Some nbrs → degree u nbrs ∈ degrees G.
Proof.
  intros Hu. unfold degrees. apply list_elem_of_fmap.
  exists (u, nbrs). split; [done|]. by apply elem_of_map_to_list.
Qed.

Lemma sum_list_two {A} (f : A → nat) (l : list A) (a b : A) :
  NoDup l → a ∈ l → b ∈ l → a ≠ b → f a + f b ≤ sum_list (f <$> l).
Proof.
  induction 1 as [|x l Hx Hnd IH]; intros Ha Hb Hne.
  { by apply elem_of_nil in Ha. }
  cbn [fmap list_fmap sum_list_with]. unfold id at 1.
  apply elem_of_cons in Ha as [->|Ha], Hb as [->|Hb]; [done|..].
  - pose proof (sum_list_with_in (f b) id (f <$> l)) as Hle.
    unfold id at 1 in Hle. specialize (Hle (list_elem_of_fmap_2 _ _ _ Hb)). lia.
  - pose proof (sum_list_with_in (f a) id (f <$> l)) as Hle.
    unfold id at 1 in Hle. specialize (Hle (list_elem_of_fmap_2 _ _ _ Ha)). lia.
  - specialize (IH Ha Hb Hne). lia.
Qed.

(** A graph with an edge has at least one edge according to
    [number_of_edges], and a node of positive degree. *)
Lemma number_of_edges_pos G u v :
  undirected G → has_edge G u v → 1 ≤ number_of_edges G.
Proof.
  intros Hsym Huv. pose proof (Hsym _ _ Huv) as Hvu.
  destruct (has_edge_dom G u v Hsym Huv) as [[nu Hu]%elem_of_dom [nv Hv]%elem_of_dom].
  unfold number_of_edges. apply Nat.div_le_lower_bound; [done|].
  destruct (decide (u = v)) as [->|Hne].
  - etrans; [by eapply degree_self_loop|].
    apply (sum_list_with_in _ id). by eapply degree_in_degrees.
  - etrans; [|apply (sum_list_two (λ vn, degree vn.1 vn.2) _ (u, nu) (v, nv))].
    + pose proof (degree_pos _ _ _ _ Hu Huv).
      pose proof (degree_pos _ _ _ _ Hv Hvu). simpl. lia.
    + apply NoDup_map_to_list.
    + by apply elem_of_map_to_list.
    + by apply elem_of_map_to_list.
    + congruence.
Qed.


Lemma truediv_Ok (a b : Z) :
  b ≠ 0%Z → truediv a b = Ok (inject_Z a / inject_Z b)%Q.
Proof. intros Hb. unfold truediv. by rewrite decide_False. Qed.

(** [nx.density] never divides by zero. *)
Lemma density_spec G :
  let n := number_of_nodes G in
  let m := number_of_edges G in
  ∃ q, density G = Ok q
    ∧ (2 ≤ n →
       (q == 2 * inject_Z (Z.of_nat m)
             / (inject_Z (Z.of_nat n) * (inject_Z (Z.of_nat n) - 1)))%Q)
    ∧ (n < 2 → (q == 0)%Q).
Proof.
  cbv zeta. unfold density.
  generalize (number_of_nodes G) (number_of_edges G). intros n m.
  case_decide as Hcase.
  - exists 0%Q. split; [done|]. split; [|done].
    intros Hn. destruct Hcase as [Hm|]; [|exfalso; lia].
    rewrite Hm. reflexivity.
  - rewrite truediv_Ok by nia. eexists. split; [done|].
    split; [|intros; exfalso; lia]. intros Hn.
    rewrite inject_Z_mult.
    replace (Z.of_nat n - 1)%Z with (Z.of_nat n + - 1)%Z by lia.
    rewrite inject_Z_plus. simpl (inject_Z (-1)).
    field. split; unfold Qeq; simpl; lia.
Qed.

End Counting.

Section Clustering.
Import Network NetworkSpec.
Implicit Types (G : Graph) (u v : string).

Lemma filter_ext_in {A} (P1 P2 : A → Prop) `{∀ x, Decision (P1 x)}
    `{∀ x, Decision (P2 x)} (l : list A) :
  (∀ x, x ∈ l → P1 x ↔ P2 x) → filter P1 l = filter P2 l.
Proof.
  induction l as [|x l IH]; intros Hext; [done|].
  rewrite !filter_cons. rewrite IH by (intros; apply Hext; by right).
  destruct (decide (P1 x)) as [HP|HP].
  - rewrite decide_True; [done|]. apply Hext; [left|done].
  - rewrite decide_False; [done|]. intros ?. apply HP, Hext; [left|done].
Qed.

Lemma sum_list_fmap_ext_in {A} (f g : A → nat) (l : list A) :
  (∀ x, x ∈ l → f x = g x) → sum_list (f <$> l) = sum_list (g <$> l).
Proof.
  induction l as [|x l IH]; intros Hext; [done|].
  cbn [fmap list_fmap sum_list_with]. unfold id at 1 3.
  rewrite Hext by left. rewrite IH; [done|]. intros. apply Hext. by right.
Qed.

Lemma sum_list_fmap_plus {A} (f g : A → nat) (l : list A) :
  sum_list ((λ x, f x + g x) <$> l) = sum_list (f <$> l) + sum_list (g <$> l).
Proof.
  induction l as [|x l IH]; [done|].
  cbn [fmap list_fmap sum_list_with]. unfold id at 1 3 5. rewrite IH. lia.
Qed.

Lemma sum_list_indicator {A} (P : A → Prop) `{∀ x, Decision (P x)} (l : list A) :
  sum_list ((λ x, if decide (P x) then 1 else 0) <$> l) = length (filter P l).
Proof.
  induction l as [|x l IH]; [done|].
  cbn [fmap list_fmap sum_list_with]. unfold id at 1.
  rewrite filter_cons, IH. by destruct (decide (P x)).
Qed.

Lemma size_intersection_filter (X Y : gset string) :
  size (X ∩ Y) = length (filter (.∈ Y) (elements X)).
Proof.
  unfold size, set_size. simpl. apply Permutation_length, NoDup_Permutation.
  - apply NoDup_elements.
  - apply NoDup_filter, NoDup_elements.
  - intros x. rewrite list_elem_of_filter, !elem_of_elements. set_solver.
Qed.

(** The sum computed by [_triangles_and_degree_iter] counts every joined
    pair of neighbours twice. *)
Lemma twice_connected_pairs G (L : list string) :
  undirected G → NoDup L →
  sum_list ((λ w, length (filter (λ x, has_edge G w x ∧ x ≠ w) L)) <$> L)
  = 2 * connected_pairs G L.
Proof.
  intros Hsym. induction 1 as [|a l Ha Hnd IH]; [done|].
  cbn [fmap list_fmap sum_list_with connected_pairs]. unfold id at 1.
  rewrite filter_cons, decide_False by naive_solver.
  rewrite (filter_ext_in _ (has_edge G a) l) by set_solver.
  rewrite (sum_list_fmap_ext_in _
             (λ w, (if decide (has_edge G a w) then 1 else 0)
                   + length (filter (λ x, has_edge G w x ∧ x ≠ w) l))).
  - rewrite sum_list_fmap_plus, sum_list_indicator, IH.
    change (filter (λ b, has_edge G a b) l) with (filter (has_edge G a) l).
    lia.
  - intros w Hw. rewrite filter_cons.
    destruct (decide (has_edge G a w)) as [Haw|Haw].
    + rewrite decide_True; [done|]. split; [by apply Hsym|set_solver].
    + rewrite decide_False; [done|]. intros [?%Hsym _]. done.
Qed.

Lemma connected_pairs_bound G (L : list string) :
  2 * connected_pairs G L ≤ length L * (length L - 1).
Proof.
  induction L as [|a l IH]; [done|].
  cbn [connected_pairs length].
  match goal with
  | |- context [length (filter ?P l)] => pose proof (length_filter P l) as Hf
  end.
  revert Hf IH.
  generalize (length (filter (λ b, has_edge G a b) l)) (connected_pairs G l)
    (length l).
  intros f p n ??. destruct n; simpl; nia.
Qed.

Lemma triangles_and_degree_spec G v nbrs :
  undirected G → G !! v = Some nbrs →
  triangles_and_degree G v nbrs
  = (length (elements (neighbors G v ∖ {[v]})),
     2 * connected_pairs G (elements (neighbors G v ∖ {[v]}))).
Proof.
  intros Hsym Hv.
  assert (neighbors G v = dom nbrs) as ->.
  { unfold neighbors. by rewrite (lookup_total_correct _ _ _ Hv). }
  unfold triangles_and_degree. f_equal.
  rewrite <-twice_connected_pairs by (done || apply NoDup_elements).
  apply sum_list_fmap_ext_in. intros w Hw.
  rewrite size_intersection_filter. f_equal.
  apply filter_ext_in. intros x _. unfold has_edge. set_solver.
Qed.

(** The value stored by [nx.clustering] for one node is its local
    clustering coefficient, a number between 0 and 1. *)
Lemma clustering_value (d p : nat) :
  2 * p ≤ d * (d - 1) →
  ∃ c, (if decide (2 * p = 0) then Ok 0%Q
        else truediv (Z.of_nat (2 * p)) (Z.of_nat d * (Z.of_nat d - 1))) = Ok c
    ∧ (c == if (d <? 2)%nat then 0
            else inject_Z (Z.of_nat p) / (inject_Z (Z.of_nat (d * (d - 1))) / 2))%Q
    ∧ (0 <= c <= 1)%Q.
Proof.
  intros Hle. destruct (Nat.ltb_spec d 2) as [Hd|Hd].
  { assert (p = 0) as -> by nia. rewrite decide_True by done.
    exists 0%Q. done. }
  assert (Z.of_nat d * (Z.of_nat d - 1) = Z.of_nat (d * (d - 1)))%Z as Hden by nia.
  assert (0 < d * (d - 1)) as Hpos by nia.
  rewrite Hden. clear Hden. revert Hle Hpos. generalize (d * (d - 1)).
  intros n Hle Hpos.
  case_decide as Hp.
  - assert (p = 0) as -> by lia. exists 0%Q. split; [done|]. split; [|done].
    simpl. unfold Qdiv. by rewrite Qmult_0_l.
  - rewrite truediv_Ok by lia. eexists. split; [done|].
    split_and!.
    + rewrite Nat2Z.inj_mul, inject_Z_mult. simpl (Z.of_nat 2).
      field. unfold Qeq; simpl; lia.
    + apply Qle_shift_div_l; [unfold Qlt; simpl; lia|].
      unfold Qle. simpl. lia.
    + apply Qle_shift_div_r; [unfold Qlt; simpl; lia|].
      unfold Qle. simpl. lia.
Qed.

End Clustering.

Section Means.
Import Network NetworkSpec.

Lemma Qsum_Forall2 {A B} (f : A → Q) (g : B → Q) (l : list A) (k : list B) :
  Forall2 (λ a b, f a == g b)%Q l k → (Qsum (f <$> l) == Qsum (g <$> k))%Q.
Proof.
  induction 1 as [|a b l k Hab _ IH]; [done|].
  cbn [fmap list_fmap Qsum foldr]. fold (Qsum (f <$> l)) (Qsum (g <$> k)).
  by rewrite Hab, IH.
Qed.

Lemma Qsum_unit_interval (l : list Q) :
  Forall (λ x, 0 <= x <= 1)%Q l →
  (0 <= Qsum l <= inject_Z (Z.of_nat (length l)))%Q.
Proof.
  induction 1 as [|x l [Hx0 Hx1] _ [IH0 IH1]]; [done|].
  cbn [Qsum foldr length]. fold (Qsum l).
  rewrite Nat2Z.inj_succ, <-Z.add_1_l, inject_Z_plus. split.
  - rewrite <-(Qplus_0_r 0). by apply Qplus_le_compat.
  - by apply Qplus_le_compat.
Qed.

(** The mean of numbers between 0 and 1 is a number between 0 and 1. *)
Lemma mean_unit_interval (l : list Q) :
  l ≠ [] → Forall (λ x, 0 <= x <= 1)%Q l →
  ∃ q, mean l = Fin q
    ∧ (q == Qsum l / inject_Z (Z.of_nat (length l)))%Q ∧ (0 <= q <= 1)%Q.
Proof.
  intros Hne [H0 H1]%Qsum_unit_interval.
  destruct l as [|x l]; [done|]. eexists. split; [done|].
  split; [done|].
  assert (0 < inject_Z (Z.of_nat (length (x :: l))))%Q as Hpos.
  { unfold Qlt. simpl. lia. }
  split.
  - apply Qle_shift_div_l; [done|]. by rewrite Qmult_0_l.
  - apply Qle_shift_div_r; [done|]. by rewrite Qmult_1_l.
Qed.

End Means.

Section MonthRecord.
Import Network NetworkSpec.
Implicit Types (G : Graph) (threshold : Q).

(** [nx.clustering] succeeds on an undirected graph; it stores for every
    node its local clustering coefficient. *)
Lemma clustering_spec G :
  undirected G →
  ∃ cd, clustering G = Ok cd
    ∧ Forall2 (λ c v, c.2 == local_clustering G v)%Q cd (nodes G)
    ∧ Forall (λ x, 0 <= x <= 1)%Q cd.*2.
Proof.
  intros Hsym. unfold clustering, nodes.
  assert (∀ vn, vn ∈ map_to_list G → G !! vn.1 = Some vn.2) as Hin.
  { intros [v nbrs]. apply elem_of_map_to_list. }
  induction (map_to_list G) as [|vn l IH].
  { exists []. by split_and!; constructor. }
  destruct IH as (cd & Hcd & Hspec & Hrange); [intros; apply Hin; by right|].
  cbn [comprehension]. rewrite (triangles_and_degree_spec G vn.1 vn.2 Hsym)
    by (apply Hin; left).
  rewrite Hcd.
  destruct (clustering_value _ _
              (connected_pairs_bound G (elements (neighbors G vn.1 ∖ {[vn.1]}))))
    as (c & Hc & Heq & Hc01).
  exists ((vn.1, c) :: cd). split_and!.
  - case_decide; [by simplify_eq|]. by rewrite Hc.
  - by constructor.
  - by constructor.
Qed.

Lemma connected_components_nonempty G :
  undirected G → G ≠ ∅ → connected_components G ≠ [].
Proof.
  intros Hsym [v [nbrs Hv%elem_of_dom_2]]%map_choose.
  destruct (connected_components_cover G Hsym v Hv) as (c & Hc & _).
  intros Hnil. rewrite Hnil in Hc. by apply elem_of_nil in Hc.
Qed.

Lemma build_graph_nonempty (rows : list corr_row) :
  rows ≠ [] → build_graph rows ≠ ∅.
Proof.
  destruct rows as [|r rows]; [done|]. intros _ Hempty.
  assert (asset_i r ∈ dom (build_graph (r :: rows))) as Hin.
  { apply dom_build_graph. exists r. split; [left|by left]. }
  rewrite Hempty in Hin. set_solver.
Qed.

(** What one iteration of the loop over the months does. *)
Lemma month_record_spec threshold (g : date * list corr_row) :
  let df_edges := filter (λ r, abs_ge threshold (corr r) = true) g.2 in
  let G := build_graph df_edges in
  (df_edges = [] ∧ month_record threshold g = Ok None)
  ∨ (df_edges ≠ []
     ∧ ∃ q cd c,
         density G = Ok q ∧ clustering G = Ok cd ∧ cd ≠ []
         ∧ max_by_len (connected_components G) = Ok c
         ∧ month_record threshold g
           = Ok (Some {| m_month := g.1;
                         n_assets := number_of_nodes G;
                         n_edges := number_of_edges G;
                         m_density := q;
                         avg_degree :=
                           mean ((λ d, inject_Z (Z.of_nat d)) <$> degrees G);
                         max_degree := max_list (degrees G);
                         avg_clustering := mean cd.*2;
                         lcc_size := size c |})).
Proof.
  intros df_edges G. unfold month_record. fold df_edges. fold G.
  destruct (decide (df_edges = [])) as [Hnil|Hne]; [by left|right].
  split; [done|].
  pose proof (build_graph_undirected df_edges) as Hsym. fold G in Hsym.
  pose proof (build_graph_nonempty df_edges Hne) as HG. fold G in HG.
  destruct (density_spec G) as (q & Hq & _).
  destruct (clustering_spec G Hsym) as (cd & Hcd & Hspec & _).
  destruct (max_by_len_spec (connected_components G)) as (c & Hc & _).
  { by apply connected_components_nonempty. }
  assert (number_of_nodes G ≠ 0) as Hn.
  { unfold number_of_nodes. by rewrite map_size_non_empty_iff. }
  assert (0 < length (degrees G)) as Hdeg.
  { unfold degrees. rewrite length_fmap, length_map_to_list.
    unfold number_of_nodes in Hn. lia. }
  assert (cd ≠ []) as Hcdne.
  { intros ->. apply Forall2_nil_inv_l in Hspec.
    unfold nodes in Hspec. apply fmap_nil_inv, map_to_list_empty_iff in Hspec.
    done. }
  exists q, cd, c. split_and!; [done..|].
  rewrite decide_False by done. rewrite Hq. cbn [mbind result_bind].
  rewrite Hcd. cbn [mbind result_bind]. rewrite Hc. cbn [mbind result_bind].
  rewrite !(decide_True (P := 0 < _)) by done.
  by rewrite decide_False by done.
Qed.

End MonthRecord.

Global Instance month_le_total : Total Network.month_le.
Proof. intros a b. apply date_le_total. Qed.

Section MetricsRun.
Import Network NetworkSpec.
Context (pd : pandas) (threshold : Q) (table : list monthly_correlations).

Lemma elem_of_month_edges (m : date) (r : corr_row) :
  r ∈ month_edges threshold table m
  ↔ ∃ t q, t ∈ table ∧ mc_month t = m ∧ mc_corr t = Some (Fin q)
           ∧ (threshold <= Qabs q)%Q
           ∧ r = mkCorr m (mc_asset_i t) (mc_asset_j t) (Fin q).
Proof.
  unfold month_edges, read_sql.
  rewrite !list_elem_of_filter, list_elem_of_omap. split.
  - intros (Hge & Hm & t & Ht & Hr).
    destruct (mc_corr t) as [x|] eqn:Hx; [|done]. injection Hr as <-.
    simpl in *. destruct x as [|q]; [done|].
    apply Qle_bool_iff in Hge. exists t, q. by subst.
  - intros (t & q & Ht & Hm & Hq & Hle & ->). simpl.
    split_and!; [by apply Qle_bool_iff|done|].
    exists t. split; [done|]. rewrite Hq. by subst.
Qed.

Lemma month_edges_nonempty (m : date) :
  month_edges threshold table m ≠ []
  ↔ ∃ t, t ∈ table ∧ mc_month t = m ∧ passes threshold t.
Proof.
  split.
  - destruct (month_edges threshold table m) as [|r rs] eqn:Hrs; [done|].
    intros _. assert (r ∈ month_edges threshold table m) as Hr
      by (rewrite Hrs; left).
    apply elem_of_month_edges in Hr as (t & q & ? & ? & ? & ? & _).
    exists t. unfold passes. eauto.
  - intros (t & Ht & Hm & q & Hq & Hle) Hnil.
    assert (mkCorr m (mc_asset_i t) (mc_asset_j t) (Fin q)
            ∈ month_edges threshold table m) as Hin.
    { apply elem_of_month_edges. eauto 10. }
    rewrite Hnil in Hin. by apply elem_of_nil in Hin.
Qed.

(** The month is skipped when no row passes the threshold; otherwise
    its row holds the metrics of the month's graph. *)
Lemma month_row_spec (m : date) :
  let G := month_graph threshold table m in
  (month_edges threshold table m = [] ∧ month_row threshold table m = None)
  ∨ (month_edges threshold table m ≠ []
     ∧ ∃ q cd c,
         density G = Ok q ∧ clustering G = Ok cd ∧ cd ≠ []
         ∧ max_by_len (connected_components G) = Ok c
         ∧ month_row threshold table m
           = Some {| m_month := m;
                     n_assets := number_of_nodes G;
                     n_edges := number_of_edges G;
                     m_density := q;
                     avg_degree :=
                       mean ((λ d, inject_Z (Z.of_nat d)) <$> degrees G);
                     max_degree := max_list (degrees G);
                     avg_clustering := mean cd.*2;
                     lcc_size := size c |}).
Proof.
  unfold month_row, month_graph, month_edges.
  destruct (month_record_spec threshold
              (m, filter (λ r, month r = m) (read_sql table)))
    as [[Hnil ->]|(Hne & q & cd & c & Hq & Hcd & Hcdne & Hc & ->)];
    [by left|right]. split; [done|]. by exists q, cd, c.
Qed.

Lemma month_row_month (m : date) (row : metrics_row) :
  month_row threshold table m = Some row → m_month row = m.
Proof.
  destruct (month_row_spec m) as [[_ ->]|(_ & q & cd & c & _ & _ & _ & _ & ->)];
    [done|]. by intros [= <-].
Qed.

Lemma month_record_Ok (g : date * list corr_row) :
  ∃ r, month_record threshold g = Ok r.
Proof.
  destruct (month_record_spec threshold g)
    as [[_ ->]|(_ & q & cd & c & _ & _ & _ & _ & ->)]; eauto.
Qed.

Lemma omap_bind_list {A B} (f : A → option B) (l : list A) :
  omap f l = l ≫= (λ x, option_list (f x)).
Proof.
  induction l as [|x l IH]; [done|]. cbn. rewrite IH. by destruct (f x).
Qed.

(** The run: the conversion of the months, then the loop and the sort. *)
Lemma metrics_df_eq :
  metrics_df pd threshold table
  = if decide (months_fit pd table) then
      records ← for_each (month_record threshold)
                         (groupby_month (read_sql table));
      Ok (match records with [] => [] | _ => merge_sort month_le records end)
    else Raise OutOfBoundsDatetime.
Proof. unfold metrics_df. rewrite load_edges_spec. by case_decide. Qed.

Lemma metrics_df_months_fit (out : list metrics_row) :
  metrics_df pd threshold table = Ok out → months_fit pd table.
Proof. rewrite metrics_df_eq. by case_decide. Qed.

(** Once the months are converted the run does not fail; its result is
    the sorted list of the rows of the months of the table. *)
Lemma metrics_df_spec :
  months_fit pd table →
  ∃ out, metrics_df pd threshold table = Ok out
    ∧ Sorted month_le out
    ∧ out ≡ₚ unique_sorted date_le (month <$> read_sql table)
               ≫= (λ m, option_list (month_row threshold table m)).
Proof.
  intros Hfit. rewrite metrics_df_eq, decide_True by done.
  rewrite for_each_Ok by (intros; apply month_record_Ok).
  unfold groupby_month. rewrite omap_bind_list, bind_fmap_list.
  cbn [mbind result_bind]. fold (month_row threshold table).
  eexists. split; [done|].
  set (records := _ ≫= _).
  assert (match records with [] => [] | _ :: _ => merge_sort month_le records end
          = merge_sort month_le records) as -> by (by destruct records).
  split.
  - apply (Sorted_merge_sort month_le).
  - apply merge_sort_Permutation.
Qed.

Lemma month_in_keys (m : date) :
  month_edges threshold table m ≠ [] →
  m ∈ unique_sorted date_le (month <$> read_sql table).
Proof.
  destruct (month_edges threshold table m) as [|r rs] eqn:Hrs; [done|].
  intros _. assert (r ∈ month_edges threshold table m) as Hr
    by (rewrite Hrs; left).
  apply list_elem_of_filter in Hr as [_ [Hm Hr]%list_elem_of_filter].
  apply elem_of_unique_sorted, list_elem_of_fmap. eauto.
Qed.

Lemma elem_of_metrics_df (out : list metrics_row) (row : metrics_row) :
  metrics_df pd threshold table = Ok out →
  row ∈ out ↔ month_row threshold table (m_month row) = Some row.
Proof.
  intros Hrun.
  destruct (metrics_df_spec (metrics_df_months_fit _ Hrun))
    as (out' & Hrun' & _ & Hperm).
  rewrite Hrun' in Hrun. injection Hrun as <-.
  rewrite Hperm, list_elem_of_bind. split.
  - intros (m & Hrow & _). destruct (month_row threshold table m) eqn:Hm;
      [|by apply elem_of_nil in Hrow].
    apply list_elem_of_singleton in Hrow as ->.
    by rewrite (month_row_month _ _ Hm).
  - intros Hrow. exists (m_month row). rewrite Hrow. split; [left|].
    apply month_in_keys.
    destruct (month_row_spec (m_month row)) as [[_ Hnone]|[? _]]; [|done].
    congruence.
Qed.


End MetricsRun.

Section GraphIdentity.
Import Network NetworkSpec.
Implicit Types (G : Graph) (u v : string) (w : float64).

Lemma adjacency_eq G1 G2 :
  dom G1 = dom G2 → (∀ x, neighbors G1 x = neighbors G2 x) →
  adjacency G1 = adjacency G2.
Proof.
  intros Hdom Hnb. apply map_eq. intros x. unfold adjacency.
  rewrite !lookup_fmap. specialize (Hnb x). unfold neighbors in Hnb.
  destruct (G1 !! x) as [n1|] eqn:H1, (G2 !! x) as [n2|] eqn:H2; simpl.
  - rewrite (lookup_total_correct _ _ _ H1), (lookup_total_correct _ _ _ H2) in Hnb.
    by rewrite Hnb.
  - apply elem_of_dom_2 in H1. apply not_elem_of_dom in H2. set_solver.
  - apply elem_of_dom_2 in H2. apply not_elem_of_dom in H1. set_solver.
  - done.
Qed.

Lemma add_edge_again u v w w' G :
  adjacency (add_edge u v w' (add_edge u v w G)) = adjacency (add_edge u v w G).
Proof.
  apply adjacency_eq.
  - rewrite !dom_add_edge. set_solver.
  - intros x. rewrite !neighbors_add_edge. repeat case_decide; set_solver.
Qed.

Lemma add_edge_reverse u v w w' G :
  adjacency (add_edge v u w' (add_edge u v w G)) = adjacency (add_edge u v w G).
Proof.
  apply adjacency_eq.
  - rewrite !dom_add_edge. set_solver.
  - intros x. rewrite !neighbors_add_edge. repeat case_decide; set_solver.
Qed.

Lemma sum_degrees_adjacency G :
  sum_list (degrees G)
  = sum_list ((λ vs : string * gset string,
                 size vs.2 + (if decide (vs.1 ∈ vs.2) then 1 else 0))
                <$> map_to_list (adjacency G)).
Proof.
  unfold adjacency, degrees. rewrite map_to_list_fmap, <-list_fmap_compose.
  f_equal. apply list_fmap_ext. intros _ [v nbrs] _. simpl.
  unfold degree. by rewrite size_dom.
Qed.

Lemma number_of_edges_adjacency G1 G2 :
  adjacency G1 = adjacency G2 → number_of_edges G1 = number_of_edges G2.
Proof.
  intros Heq. unfold number_of_edges.
  by rewrite !sum_degrees_adjacency, Heq.
Qed.

Lemma number_of_nodes_adjacency G1 G2 :
  adjacency G1 = adjacency G2 → number_of_nodes G1 = number_of_nodes G2.
Proof.
  intros Heq. unfold number_of_nodes.
  rewrite <-(map_size_fmap dom G1), <-(map_size_fmap dom G2).
  unfold adjacency in Heq. by rewrite Heq.
Qed.

End GraphIdentity.

Section NetworkTheorems.
Import Network NetworkSpec.
Context (pd : pandas) (threshold : Q) (table : list monthly_correlations).

(** The loop over the month groups builds [month_graph] for each key. *)
Lemma group_graph (g : date * list corr_row) :
  g ∈ groupby_month (read_sql table) →
  build_graph (filter (λ r, abs_ge threshold (corr r) = true) g.2)
  = month_graph threshold table g.1.
Proof. by intros (m & -> & _)%list_elem_of_fmap. Qed.

Lemma has_edge_month_graph (m : date) (i j : string) :
  has_edge (month_graph threshold table m) i j
  ↔ ∃ t, t ∈ table ∧ mc_month t = m ∧ passes threshold t
         ∧ ((mc_asset_i t = i ∧ mc_asset_j t = j)
            ∨ (mc_asset_i t = j ∧ mc_asset_j t = i)).
Proof.
  unfold month_graph. rewrite has_edge_build_graph.
  setoid_rewrite elem_of_month_edges. unfold passes. split.
  - intros (r & (t & q & Ht & Hm & Hq & Hle & ->) & Hij). simpl in Hij.
    exists t. split_and!; [done|done|by eauto|naive_solver].
  - intros (t & Ht & Hm & (q & Hq & Hle) & Hij).
    exists (mkCorr m (mc_asset_i t) (mc_asset_j t) (Fin q)).
    split; [by eauto 10|]. simpl. naive_solver.
Qed.

(** C4.  The graph of a month has an edge between [i] and [j] exactly
    when some row of that month, in either direction, has a present
    correlation of magnitude at least the threshold; the relation is
    symmetric; and adding an edge that is already there, in the same or
    in the reverse direction, changes neither the nodes nor the edges nor
    the number of edges. *)
Theorem C4_edge_iff_row_passes (m : date) (i j : string) :
  (has_edge (month_graph threshold table m) i j
   ↔ ∃ t, t ∈ table ∧ mc_month t = m ∧ passes threshold t
          ∧ ((mc_asset_i t = i ∧ mc_asset_j t = j)
             ∨ (mc_asset_i t = j ∧ mc_asset_j t = i)))
  ∧ (has_edge (month_graph threshold table m) i j
     ↔ has_edge (month_graph threshold table m) j i)
  ∧ (∀ (G : Graph) u v w w',
       adjacency (add_edge u v w' (add_edge u v w G))
       = adjacency (add_edge u v w G)
       ∧ adjacency (add_edge v u w' (add_edge u v w G))
         = adjacency (add_edge u v w G)
       ∧ number_of_edges (add_edge u v w' (add_edge u v w G))
         = number_of_edges (add_edge u v w G)
       ∧ number_of_edges (add_edge v u w' (add_edge u v w G))
         = number_of_edges (add_edge u v w G)).
Proof.
  split_and!.
  - apply has_edge_month_graph.
  - split; apply build_graph_undirected.
  - intros G u v w w'.
    split_and!;
      auto using add_edge_again, add_edge_reverse, number_of_edges_adjacency.
Qed.

(** C5.  [nx.density] never raises, and the density reported for a month
    is [2 * n_edges / (n_assets * (n_assets - 1))] when the graph has at
    least two nodes and 0 otherwise. *)
Theorem C5_density (out : list metrics_row) (row : metrics_row) :
  metrics_df pd threshold table = Ok out → row ∈ out →
  (∀ G : Graph, ∃ q, density G = Ok q)
  ∧ density (month_graph threshold table (m_month row)) = Ok (m_density row)
  ∧ (2 ≤ n_assets row →
     (m_density row
      == 2 * inject_Z (Z.of_nat (n_edges row))
         / (inject_Z (Z.of_nat (n_assets row))
            * (inject_Z (Z.of_nat (n_assets row)) - 1)))%Q)
  ∧ (n_assets row < 2 → (m_density row == 0)%Q).
Proof.
  intros Hrun Hrow%(elem_of_metrics_df _ _ _ _ _ Hrun).
  split.
  { intros G. destruct (density_spec G) as (q & ? & _). eauto. }
  destruct (month_row_spec threshold table (m_month row))
    as [[_ Hnone]|(_ & q & cd & c & Hq & _ & _ & _ & Hsome)]; [congruence|].
  rewrite Hsome in Hrow. injection Hrow as <-. simpl.
  destruct (density_spec (month_graph threshold table (m_month row)))
    as (q' & Hq' & H2 & H0).
  rewrite Hq in Hq'. injection Hq' as <-. done.
Qed.


End NetworkTheorems.

Section RowTheorems.
Import Network NetworkSpec.
Context (pd : pandas) (threshold : Q) (table : list monthly_correlations).

Lemma month_graph_undirected (m : date) :
  undirected (month_graph threshold table m).
Proof. apply build_graph_undirected. Qed.

(** C7.  In every emitted row, [lcc_size] is positive and at most
    [n_assets], and it equals [n_assets] exactly when the graph of the
    month is connected. *)
Theorem C7_largest_component (out : list metrics_row) (row : metrics_row) :
  metrics_df pd threshold table = Ok out → row ∈ out →
  0 < lcc_size row ≤ n_assets row
  ∧ (lcc_size row = n_assets row
     ↔ connected (month_graph threshold table (m_month row))).
Proof.
  intros Hrun Hrow%(elem_of_metrics_df _ _ _ _ _ Hrun).
  destruct (month_row_spec threshold table (m_month row))
    as [[_ Hnone]|(_ & q & cd & c & _ & _ & _ & Hc & Hsome)]; [congruence|].
  rewrite Hsome in Hrow. injection Hrow as <-. simpl.
  set (G := month_graph threshold table (m_month row)) in *.
  pose proof (month_graph_undirected (m_month row)) as Hsym. fold G in Hsym.
  destruct (max_by_len_spec (connected_components G)) as (c' & Hc' & Hin & Hmax).
  { intros Hnil. by rewrite Hnil in Hc. }
  rewrite Hc in Hc'. injection Hc' as <-.
  pose proof (component_size G Hsym c Hin) as Hsize.
  split; [done|]. unfold number_of_nodes.
  destruct (elem_of_connected_components G Hsym c Hin) as (s & Hs & Hreach).
  split.
  - intros Heq u v Hu Hv.
    assert (c = dom G) as Hdom.
    { apply set_subseteq_size_eq.
      - intros x Hx%Hreach. exact (rtc_has_edge_dom G Hsym s x Hs Hx).
      - rewrite size_dom. lia. }
    rewrite <-Hdom in Hu, Hv. apply Hreach in Hu, Hv.
    etrans; [|done]. by apply rtc_has_edge_sym.
  - intros Hconn. apply Nat.le_antisymm; [apply Hsize|].
    rewrite <-(size_dom (D := gset string)). apply subseteq_size.
    intros x Hx. apply Hreach. by apply Hconn.
Qed.

(** C8.  In every emitted row, [avg_clustering] is the arithmetic mean
    over the nodes of the graph of the local clustering coefficient (the
    fraction of the pairs of neighbours of the node that are joined by an
    edge), it lies between 0 and 1, and the coefficient of a node of
    degree less than 2 is 0. *)
Theorem C8_average_clustering (out : list metrics_row) (row : metrics_row) :
  metrics_df pd threshold table = Ok out → row ∈ out →
  let G := month_graph threshold table (m_month row) in
  (∃ q, avg_clustering row = Fin q
     ∧ (q == Qsum (local_clustering G <$> nodes G)
             / inject_Z (Z.of_nat (length (nodes G))))%Q
     ∧ (0 <= q <= 1)%Q)
  ∧ (∀ v nbrs, G !! v = Some nbrs → degree v nbrs < 2 →
               local_clustering G v = 0%Q).
Proof.
  intros Hrun Hrow%(elem_of_metrics_df _ _ _ _ _ Hrun) G.
  destruct (month_row_spec threshold table (m_month row))
    as [[_ Hnone]|(_ & q & cd & c & _ & Hcd & Hcdne & _ & Hsome)]; [congruence|].
  rewrite Hsome in Hrow. injection Hrow as <-. simpl. fold G in Hcd.
  pose proof (month_graph_undirected (m_month row)) as Hsym. fold G in Hsym.
  destruct (clustering_spec G Hsym) as (cd' & Hcd' & Hspec & Hrange).
  rewrite Hcd in Hcd'. injection Hcd' as <-.
  split.
  - destruct (mean_unit_interval cd.*2) as (a & Ha & Heq & Ha01); [|done|].
    { by intros ?%fmap_nil_inv. }
    exists a. split; [done|]. split; [|done].
    rewrite Heq, length_fmap, (Forall2_length _ _ _ Hspec).
    apply Qmult_comp; [|done].
    rewrite <-(list_fmap_id (nodes G)) at 1.
    change (local_clustering G <$> id <$> nodes G)
      with (local_clustering G <$> (id <$> nodes G)).
    rewrite list_fmap_id. by apply (Qsum_Forall2 snd).
  - intros v nbrs Hv Hdeg. unfold local_clustering.
    assert (neighbors G v = dom nbrs) as ->.
    { unfold neighbors. by rewrite (lookup_total_correct _ _ _ Hv). }
    assert (length (elements (dom nbrs ∖ {[v]})) < 2) as Hlt.
    { change (size (dom nbrs ∖ {[v]}) < 2).
      pose proof (subseteq_size (dom nbrs ∖ {[v]}) (dom nbrs)) as Hle.
      rewrite size_dom in Hle. unfold degree in Hdeg.
      assert (size (dom nbrs ∖ {[v]}) ≤ size nbrs) by (apply Hle; set_solver).
      destruct (decide (v ∈ dom nbrs)); lia. }
    apply Nat.ltb_lt in Hlt. by rewrite Hlt.
Qed.

(** The table written by the Correlation Builder satisfies the invariant
    of the data model. *)
Lemma copy_rows_no_self_pairs (sqrt : Q → Q) (min_days : nat)
    (ohlc : list Correlations.ohlc_daily) (out : list corr_row) :
  Correlations.monthly_corr pd sqrt min_days ohlc = Ok out →
  no_self_pairs (copy_row <$> out).
Proof.
  intros Hrun. apply Forall_fmap, Forall_forall. intros e He. simpl.
  by apply (elem_of_monthly_corr _ _ _ _ _ _ Hrun) in He as (_ & _ & Hne & _).
Qed.


End RowTheorems.

(** ** The theorems at the sample inputs *)

Section Samples.
Import Correlations CorrelationSpec Network NetworkSpec Examples.

Lemma small_table_run : monthly_corr pandas2 sqrt_exact 2 small_table = Ok small_out.
Proof. vm_compute. reflexivity. Defined.

Lemma sample_edges_run : metrics_df pandas2 CORR_THRESHOLD sample_edges = Ok sample_metrics.
Proof. vm_compute. reflexivity. Defined.

(** C1 on [disjoint_days]: assets A and B both survive the filter of
    January 2024 with ten observations each and share no day, so their
    correlation is absent.  The claim asks for the two rows (A, B) and
    (B, A) with an absent value.  With a [stack] that drops the missing
    entries the run emits no row at all; with one that keeps them it emits
    the two rows. *)
Lemma C1_absent_pairs_dropped_by_stack :
  survivors min_days_per_asset disjoint_days (jan 1) = ["A"; "B"]
  ∧ monthly_corr pandas2 sqrt_exact min_days_per_asset disjoint_days = Ok []
  ∧ monthly_corr pandas3 sqrt_exact min_days_per_asset disjoint_days
    = Ok [mkCorr (jan 1) "A" "B" NaN; mkCorr (jan 1) "B" "A" NaN].
Proof. split_and!; vm_compute; reflexivity. Qed.

Lemma C2_witness :
  let e := mkCorr (jan 1) "X" "Y" (Fin (442368 # 442368)) in
  monthly_corr pandas2 sqrt_exact 2 small_table = Ok small_out
  ∧ e ∈ small_out
  ∧ asset_i e ≠ asset_j e
  ∧ mkCorr (month e) (asset_j e) (asset_i e) (corr e) ∈ small_out
  ∧ ∀ e', e' ∈ small_out → month e' = month e →
      asset_i e' = asset_j e → asset_j e' = asset_i e → corr e' = corr e.
Proof.
  intros e.
  assert (e ∈ small_out) as He by left.
  split; [exact small_table_run|]. split; [exact He|].
  exact (C2_edges_irreflexive_symmetric pandas2 sqrt_exact 2 small_table
           small_out small_table_run e He).
Defined.

Lemma C3_witness :
  monthly_corr pandas2 sqrt_exact 2 small_table = Ok small_out
  ∧ length (qualifying 2 small_table (feb 1)) < 2
  ∧ (∀ e, e ∈ small_out →
       2 ≤ valid_days small_table (month e) (asset_i e)
       ∧ 2 ≤ valid_days small_table (month e) (asset_j e))
  ∧ edges_in (feb 1) small_out = [].
Proof.
  assert (length (qualifying 2 small_table (feb 1)) < 2) as Hlt.
  { vm_compute. lia. }
  split; [exact small_table_run|]. split; [exact Hlt|].
  destruct (C3_min_days_per_asset pandas2 sqrt_exact 2 small_table small_out
              small_table_run) as [Hdays Hfew].
  split; [exact Hdays|exact (Hfew (feb 1) Hlt)].
Defined.



Lemma january_pair_passes :
  ∃ t, t ∈ sample_edges ∧ mc_month t = jan 1 ∧ passes CORR_THRESHOLD t
       ∧ ((mc_asset_i t = "Y" ∧ mc_asset_j t = "X")
          ∨ (mc_asset_i t = "X" ∧ mc_asset_j t = "Y")).
Proof.
  exists (edge (jan 1) "X" "Y" 1). split; [right; left|].
  split; [reflexivity|]. split; [|by right].
  exists 1%Q. split; [reflexivity|]. apply Qle_bool_iff. reflexivity.
Defined.

Lemma C4_witness :
  has_edge (month_graph CORR_THRESHOLD sample_edges (jan 1)) "Y" "X"
  ∧ has_edge (month_graph CORR_THRESHOLD sample_edges (jan 1)) "X" "Y"
  ∧ ¬ has_edge (month_graph CORR_THRESHOLD sample_edges (jan 1)) "Y" "Z".
Proof.
  destruct (C4_edge_iff_row_passes CORR_THRESHOLD sample_edges (jan 1) "Y" "X")
    as (Hiff & Hsym & _).
  pose proof (proj2 Hiff january_pair_passes) as Hedge.
  split; [exact Hedge|]. split; [exact (proj1 Hsym Hedge)|].
  apply (bool_decide_unpack _). vm_compute. exact I.
Defined.



Lemma january_row_emitted : january_row ∈ sample_metrics.
Proof. left. Defined.

Lemma february_row_emitted : february_row ∈ sample_metrics.
Proof. right. left. Defined.

Lemma C5_witness :
  metrics_df pandas2 CORR_THRESHOLD sample_edges = Ok sample_metrics
  ∧ february_row ∈ sample_metrics
  ∧ (∀ G : Graph, ∃ q, density G = Ok q)
  ∧ density (month_graph CORR_THRESHOLD sample_edges (m_month february_row))
    = Ok (m_density february_row)
  ∧ (2 ≤ n_assets february_row →
     (m_density february_row
      == 2 * inject_Z (Z.of_nat (n_edges february_row))
         / (inject_Z (Z.of_nat (n_assets february_row))
            * (inject_Z (Z.of_nat (n_assets february_row)) - 1)))%Q)
  ∧ (n_assets february_row < 2 → (m_density february_row == 0)%Q).
Proof.
  split; [exact sample_edges_run|]. split; [exact february_row_emitted|].
  exact (C5_density pandas2 CORR_THRESHOLD sample_edges sample_metrics february_row
           sample_edges_run february_row_emitted).
Defined.

Lemma C7_witness :
  metrics_df pandas2 CORR_THRESHOLD sample_edges = Ok sample_metrics
  ∧ february_row ∈ sample_metrics
  ∧ 0 < lcc_size february_row ≤ n_assets february_row
  ∧ (lcc_size february_row = n_assets february_row
     ↔ connected (month_graph CORR_THRESHOLD sample_edges (m_month february_row))).
Proof.
  split; [exact sample_edges_run|]. split; [exact february_row_emitted|].
  exact (C7_largest_component pandas2 CORR_THRESHOLD sample_edges sample_metrics
           february_row sample_edges_run february_row_emitted).
Defined.

Lemma C8_witness :
  let G := month_graph CORR_THRESHOLD sample_edges (m_month february_row) in
  metrics_df pandas2 CORR_THRESHOLD sample_edges = Ok sample_metrics
  ∧ february_row ∈ sample_metrics
  ∧ (∃ q, avg_clustering february_row = Fin q
       ∧ (q == Qsum (local_clustering G <$> nodes G)
               / inject_Z (Z.of_nat (length (nodes G))))%Q
       ∧ (0 <= q <= 1)%Q)
  ∧ (∀ v nbrs, G !! v = Some nbrs → degree v nbrs < 2 →
               local_clustering G v = 0%Q).
Proof.
  intros G.
  split; [exact sample_edges_run|]. split; [exact february_row_emitted|].
  exact (C8_average_clustering pandas2 CORR_THRESHOLD sample_edges sample_metrics
           february_row sample_edges_run february_row_emitted).
Defined.

Lemma sample_edges_no_self_pairs : no_self_pairs sample_edges.
Proof.
  apply (bool_decide_unpack _). vm_compute. exact I.
Defined.



End Samples.

(** * Further properties of the two scripts *)

(** ** build_monthly_correlations.py *)

Section RunOutcome.
Import Correlations CorrelationSpec TableSpec.
Context (pd : pandas) (sqrt : Q → Q) (min_days : nat).

Lemma for_each_Raise_inv {A B} (body : A → result (option B)) (l : list A) e :
  for_each body l = Raise e → ∃ x, x ∈ l ∧ body x = Raise e.
Proof.
  induction l as [|z l IH]; [done|]. cbn [for_each].
  destruct (body z) as [r|e0] eqn:Hz.
  - cbn. destruct (for_each body l) as [rs|e1]; [done|].
    intros [= <-]. destruct IH as (x & ? & ?); [done|].
    exists x. split; [by right|done].
  - intros [= <-]. exists z. split; [left|done].
Qed.

Lemma month_records_Raise (g : date * list ret_row) e :
  month_records pd sqrt min_days g = Raise e →
  e = ValueError ∧ ¬ NoDup (key <$> g.2).
Proof.
  rewrite month_records_eq. unfold pivot.
  case_decide as Hnd; [|by intros [= <-]].
  cbv zeta. by destruct (Nat.ltb _ 2).
Qed.

(** Observations with the same day and asset belong to the same month,
    so the table has duplicates exactly when some month has. *)
Lemma NoDup_key_months (df : list ret_row) :
  (∀ r, r ∈ df → ret_month r = to_month (day r)) →
  NoDup (key <$> df)
  ↔ ∀ m, NoDup (key <$> filter (λ r, ret_month r = m) df).
Proof.
  intros Hmonth. split; [intros Hnd m; by apply NoDup_key_filter|].
  induction df as [|r df IH]; intros Hall; [constructor|].
  cbn [fmap list_fmap]. apply NoDup_cons. split.
  - intros (r' & Hkey & Hr')%list_elem_of_fmap.
    specialize (Hall (ret_month r)).
    rewrite filter_cons, decide_True in Hall by done.
    cbn [fmap list_fmap] in Hall. apply NoDup_cons in Hall as [Hnotin _].
    apply Hnotin, list_elem_of_fmap. exists r'. split; [done|].
    apply list_elem_of_filter. split; [|done].
    rewrite (Hmonth r), (Hmonth r') by (by left || by right).
    unfold key in Hkey. congruence.
  - apply IH; [intros; apply Hmonth; by right|].
    intros m. specialize (Hall m). rewrite filter_cons in Hall.
    case_decide; [|done]. cbn [fmap list_fmap] in Hall.
    by apply NoDup_cons in Hall as [_ ?].
Qed.

Lemma read_sql_month (table : list ohlc_daily) r :
  r ∈ observations table → ret_month r = to_month (day r).
Proof.
  intros (t & _ & Hr)%list_elem_of_omap.
  destruct (ohlc_log_return t); by simplify_eq.
Qed.

Lemma monthly_corr_Ok_inv (table : list ohlc_daily) (out : list corr_row) :
  monthly_corr pd sqrt min_days table = Ok out →
  NoDup (key <$> observations table).
Proof.
  rewrite monthly_corr_eq. case_decide as Hfit; [|done]. intros Hrun.
  destruct (for_each _ _) as [records|] eqn:Hfor; [|done].
  pose proof (for_each_Ok_inv _ _ _ Hfor) as Hbody.
  apply NoDup_key_months; [apply read_sql_month|]. intros m.
  destruct (decide (m ∈ unique_sorted date_le (ret_month <$> observations table)))
    as [Hm|Hm].
  - destruct (Hbody (m, filter (λ r, ret_month r = m) (observations table)))
      as [r Hr]; [apply list_elem_of_fmap; eauto|].
    destruct (decide (NoDup (key <$> filter (λ r, ret_month r = m)
                                       (observations table))))
      as [|Hdup]; [done|].
    rewrite month_records_eq in Hr. unfold pivot in Hr. simpl in Hr.
    by rewrite decide_False in Hr.
  - rewrite filter_none; [constructor|]. intros r Hr Hrm. apply Hm.
    apply elem_of_unique_sorted, list_elem_of_fmap. eauto.
Qed.

Lemma monthly_corr_Raise (table : list ohlc_daily) (e : exn) :
  monthly_corr pd sqrt min_days table = Raise e →
  (e = OutOfBoundsDatetime ∧ ¬ dates_fit pd table)
  ∨ (e = ValueError ∧ dates_fit pd table).
Proof.
  rewrite monthly_corr_eq. case_decide as Hfit; [|intros [= <-]; by left].
  intros Hrun. right. split; [|done].
  destruct (for_each _ _) as [records|e0] eqn:Hfor; [done|].
  injection Hrun as ->.
  apply for_each_Raise_inv in Hfor as (g & _ & Hg).
  by apply month_records_Raise in Hg as [-> _].
Qed.

(** X1.  The three outcomes of the run.  It fails with
    [OutOfBoundsDatetime] exactly when a day with a non-NULL return, or the
    first day of its month, cannot be converted to a timestamp; otherwise it
    fails with the [ValueError] of [pivot] exactly when two rows with a
    non-NULL return have the same asset and day; otherwise it completes.
    There is no other way to fail. *)
Theorem X1_outcome_of_the_run (table : list ohlc_daily) :
  (monthly_corr pd sqrt min_days table = Raise OutOfBoundsDatetime
   ↔ ¬ dates_fit pd table)
  ∧ (monthly_corr pd sqrt min_days table = Raise ValueError
     ↔ dates_fit pd table ∧ ¬ NoDup (key <$> observations table))
  ∧ ((∃ out, monthly_corr pd sqrt min_days table = Ok out)
     ↔ dates_fit pd table ∧ NoDup (key <$> observations table))
  ∧ ∀ e, monthly_corr pd sqrt min_days table = Raise e →
         e = OutOfBoundsDatetime ∨ e = ValueError.
Proof.
  split_and!.
  - split.
    + intros [[_ ?]|[? _]]%monthly_corr_Raise; done.
    + intros Hfit. rewrite monthly_corr_eq. by rewrite decide_False.
  - split.
    + intros Hrun.
      destruct (monthly_corr_Raise _ _ Hrun) as [[? _]|[_ Hfit]]; [done|].
      split; [done|]. intros Hnd.
      destruct (monthly_corr_Ok pd sqrt min_days table Hfit Hnd) as [out Hout].
      congruence.
    + intros [Hfit Hdup].
      destruct (monthly_corr pd sqrt min_days table) as [out|e] eqn:Hrun.
      * destruct Hdup. by eapply monthly_corr_Ok_inv.
      * destruct (monthly_corr_Raise _ _ Hrun) as [[_ ?]|[-> _]]; done.
  - split.
    + intros [out Hout]. split.
      * by eapply monthly_corr_dates_fit.
      * by eapply monthly_corr_Ok_inv.
    + intros [Hfit Hnd]. by apply monthly_corr_Ok.
  - intros e [[-> _]|[-> _]]%monthly_corr_Raise; [by left|by right].
Qed.

End RunOutcome.

Section TableLevel.
Import Correlations CorrelationSpec TableSpec.
Context (pd : pandas) (sqrt : Q → Q) (min_days : nat).

Lemma listed_month_rows (table : list ohlc_daily) (m : date) (a : string) :
  listed table m a ↔ ∃ r, r ∈ month_rows table m ∧ asset_address r = a.
Proof.
  unfold listed, month_rows, observations. split.
  - intros (t & Ht & Hm & Ha & Hret).
    destruct (ohlc_log_return t) as [x|] eqn:Hx; [|done].
    exists (mkRet (ohlc_asset_address t) (ohlc_day t) x (to_month (ohlc_day t))).
    split; [|done]. apply list_elem_of_filter. split; [done|].
    apply list_elem_of_omap. exists t. split; [done|]. by rewrite Hx.
  - intros (r & [Hm (t & Ht & Hr)%list_elem_of_omap]%list_elem_of_filter & Ha).
    exists t. destruct (ohlc_log_return t) eqn:Hx; [|done].
    simplify_eq. simpl in *. done.
Qed.

(** The assets that survive the filter, read off the table. *)
Lemma survivors_table (table : list ohlc_daily) (out : list corr_row)
    (m : date) (a : string) :
  monthly_corr pd sqrt min_days table = Ok out →
  a ∈ survivors min_days table m
  ↔ listed table m a ∧ min_days ≤ valid_days table m a.
Proof.
  intros Hrun. rewrite elem_of_survivors, listed_month_rows.
  assert (NoDup (key <$> month_rows table m)).
  { apply NoDup_key_filter. by eapply monthly_corr_Ok_inv. }
  tauto.
Qed.

(** X2.  The result read off the input table: an edge [(m, i, j, c)] is
    emitted exactly when [i] and [j] are different assets that both have at
    least [min_days] present returns in month [m] (and a row in that month
    at all), [c] is their pairwise correlation, and [c] is present if
    [stack] drops the missing entries. *)
Theorem X2_edge_iff_both_qualify (table : list ohlc_daily)
    (out : list corr_row) (e : corr_row) :
  monthly_corr pd sqrt min_days table = Ok out →
  e ∈ out
  ↔ asset_i e ≠ asset_j e
    ∧ (listed table (month e) (asset_i e)
       ∧ min_days ≤ valid_days table (month e) (asset_i e))
    ∧ (listed table (month e) (asset_j e)
       ∧ min_days ≤ valid_days table (month e) (asset_j e))
    ∧ corr e = pair_corr sqrt min_days table (month e) (asset_i e) (asset_j e)
    ∧ (stack_dropna pd = true → isna (corr e) = false).
Proof.
  intros Hrun. rewrite (elem_of_monthly_corr _ _ _ _ _ _ Hrun).
  rewrite !(survivors_table _ _ _ _ Hrun). tauto.
Qed.

(** X3.  The month of every emitted edge is the first day of a calendar
    month in which the table has a non-NULL observation. *)
Theorem X3_month_is_first_of_observed_month (table : list ohlc_daily)
    (out : list corr_row) (e : corr_row) :
  monthly_corr pd sqrt min_days table = Ok out → e ∈ out →
  mday (month e) = 1%Z
  ∧ ∃ t, t ∈ table ∧ ohlc_log_return t ≠ None
         ∧ year (ohlc_day t) = year (month e)
         ∧ mon (ohlc_day t) = mon (month e).
Proof.
  intros Hrun (Hi & _)%(elem_of_monthly_corr _ _ _ _ _ _ Hrun).
  apply (survivors_table _ _ _ _ Hrun) in Hi as [(t & Ht & Hm & _ & Hret) _].
  rewrite <-Hm. simpl. split; [done|]. by exists t.
Qed.

End TableLevel.

(** ** build_network_metrics.py *)

Section SetSums.
Context (f : string → nat).
Implicit Types (X Y : gset string).

Lemma sum_set_ext (g : string → nat) X :
  (∀ x, x ∈ X → f x = g x) →
  sum_list (f <$> elements X) = sum_list (g <$> elements X).
Proof.
  intros Hext. apply sum_list_fmap_ext_in. intros x Hx. apply Hext.
  by apply elem_of_elements.
Qed.

Lemma sum_set_disj_union X Y :
  X ## Y →
  sum_list (f <$> elements (X ∪ Y))
  = sum_list (f <$> elements X) + sum_list (f <$> elements Y).
Proof.
  intros Hdisj. rewrite (elements_disj_union X Y Hdisj), fmap_app.
  apply sum_list_with_app.
Qed.

Lemma sum_list_fmap_zero {A} (h : A → nat) (l : list A) :
  (∀ x, x ∈ l → h x = 0) → sum_list (h <$> l) = 0.
Proof.
  induction l as [|x l IH]; intros Hzero; [done|].
  cbn [fmap list_fmap sum_list_with]. unfold id at 1.
  rewrite Hzero by left. rewrite IH; [done|]. intros. apply Hzero. by right.
Qed.

Lemma sum_set_zero X :
  (∀ x, x ∈ X → f x = 0) → sum_list (f <$> elements X) = 0.
Proof.
  intros Hzero. apply sum_list_fmap_zero. intros x Hx. apply Hzero.
  by apply elem_of_elements.
Qed.

Lemma sum_set_singleton (x : string) :
  sum_list (f <$> elements ({[x]} : gset string)) = f x.
Proof. rewrite elements_singleton. simpl. unfold id. lia. Qed.

(** A sum over a set may be taken over any larger set on which the
    extra terms vanish. *)
Lemma sum_set_extend X Y :
  X ⊆ Y → (∀ x, x ∈ Y → x ∉ X → f x = 0) →
  sum_list (f <$> elements Y) = sum_list (f <$> elements X).
Proof.
  intros Hsub Hzero.
  assert (Y = X ∪ (Y ∖ X)) as Heq.
  { apply set_eq. intros x. rewrite elem_of_union, elem_of_difference.
    destruct (decide (x ∈ X)); set_solver. }
  rewrite Heq at 1. rewrite sum_set_disj_union by set_solver.
  rewrite (sum_set_zero (Y ∖ X)); [lia|]. set_solver.
Qed.

End SetSums.

Section Handshake.
Import Network NetworkSpec GraphSpec.
Implicit Types (G : Graph) (u v : string) (w : float64).

Lemma nodes_Permutation G : (map_to_list G).*1 ≡ₚ elements (dom G).
Proof.
  apply NoDup_Permutation.
  - apply NoDup_fst_map_to_list.
  - apply NoDup_elements.
  - intros v. rewrite elem_of_elements, elem_of_dom, list_elem_of_fmap.
    split.
    + intros ([v' nbrs] & -> & Hin%elem_of_map_to_list). eauto.
    + intros [nbrs Hv]. exists (v, nbrs). split; [done|].
      by apply elem_of_map_to_list.
Qed.

Lemma degrees_degree_of G :
  degrees G = degree_of G <$> (map_to_list G).*1.
Proof.
  unfold degrees. rewrite <-list_fmap_compose. apply list_fmap_ext.
  intros i [v nbrs] Hin%list_elem_of_lookup_2%elem_of_map_to_list.
  simpl. unfold degree_of. by rewrite (lookup_total_correct _ _ _ Hin).
Qed.

Lemma sum_degrees G :
  sum_list (degrees G) = sum_list (degree_of G <$> elements (dom G)).
Proof. by rewrite degrees_degree_of, nodes_Permutation. Qed.

Lemma degree_of_neighbors G v :
  degree_of G v
  = size (neighbors G v) + (if decide (v ∈ neighbors G v) then 1 else 0).
Proof. unfold degree_of, degree, neighbors. by rewrite size_dom. Qed.

Lemma degree_of_outside G v : v ∉ dom G → degree_of G v = 0.
Proof.
  intros Hv%not_elem_of_dom. rewrite degree_of_neighbors. unfold neighbors.
  rewrite lookup_total_alt, Hv. simpl. rewrite dom_empty_L, size_empty.
  by rewrite decide_False by set_solver.
Qed.

Lemma size_add_fresh (X : gset string) (y : string) :
  y ∉ X → size (X ∪ {[y]}) = size X + 1.
Proof.
  intros Hy. rewrite size_union by set_solver. by rewrite size_singleton.
Qed.

(** The degrees of the two endpoints before and after [add_edge]. *)
Lemma degree_of_add_edge_endpoints u v w G :
  undirected G →
  sum_list (degree_of (add_edge u v w G) <$> elements ({[u; v]} : gset string))
  = sum_list (degree_of G <$> elements ({[u; v]} : gset string))
    + (if decide (has_edge G u v) then 0 else 2).
Proof.
  intros Hsym. destruct (decide (u = v)) as [->|Hne].
  - assert (({[v; v]} : gset string) = {[v]}) as -> by set_solver.
    rewrite !sum_set_singleton, !degree_of_neighbors, neighbors_add_edge.
    rewrite !decide_True by done. unfold has_edge.
    assert (neighbors G v ∪ {[v]} ∪ {[v]} = neighbors G v ∪ {[v]}) as ->
      by set_solver.
    destruct (decide (v ∈ neighbors G v)) as [Hin|Hin].
    + assert (neighbors G v ∪ {[v]} = neighbors G v) as -> by set_solver.
      rewrite decide_True by done. lia.
    + rewrite size_add_fresh by done. rewrite decide_True by set_solver. lia.
  - rewrite !(sum_set_disj_union _ {[u]} {[v]}) by set_solver.
    rewrite !sum_set_singleton, !degree_of_neighbors, !neighbors_add_edge.
    rewrite (decide_True (P := u = u)), (decide_False (P := u = v)) by done.
    rewrite (decide_False (P := v = u)), (decide_True (P := v = v)) by done.
    assert (neighbors G u ∪ {[v]} ∪ ∅ = neighbors G u ∪ {[v]}) as ->
      by set_solver.
    assert (neighbors G v ∪ ∅ ∪ {[u]} = neighbors G v ∪ {[u]}) as ->
      by set_solver.
    unfold has_edge.
    assert (u ∈ neighbors G u ∪ {[v]} ↔ u ∈ neighbors G u) as Hu by set_solver.
    assert (v ∈ neighbors G v ∪ {[u]} ↔ v ∈ neighbors G v) as Hv by set_solver.
    rewrite (decide_ext _ _ _ _ Hu), (decide_ext _ _ _ _ Hv).
    destruct (decide (v ∈ neighbors G u)) as [Hin|Hin].
    + pose proof (Hsym u v Hin) as Hin'. unfold has_edge in Hin'.
      assert (neighbors G u ∪ {[v]} = neighbors G u) as -> by set_solver.
      assert (neighbors G v ∪ {[u]} = neighbors G v) as -> by set_solver.
      lia.
    + assert (u ∉ neighbors G v) as Hin'.
      { intros Hvu. apply Hin. by apply (Hsym v u). }
      rewrite !size_add_fresh by done. lia.
Qed.

(** [add_edge] raises the sum of the degrees by two when the edge is
    new and leaves it unchanged otherwise. *)
Lemma sum_degrees_add_edge u v w G :
  undirected G →
  sum_list (degrees (add_edge u v w G))
  = sum_list (degrees G) + (if decide (has_edge G u v) then 0 else 2).
Proof.
  intros Hsym. rewrite !sum_degrees, dom_add_edge.
  set (S := {[u; v]} ∪ dom G).
  rewrite <-(sum_set_extend (degree_of G) (dom G) S);
    [|set_solver|intros x _; apply degree_of_outside].
  assert (S = {[u; v]} ∪ (S ∖ {[u; v]})) as Heq.
  { apply set_eq. intros x. rewrite elem_of_union, elem_of_difference.
    destruct (decide (x ∈ ({[u; v]} : gset string))); set_solver. }
  rewrite Heq, !(sum_set_disj_union _ {[u; v]}) by set_solver.
  rewrite (degree_of_add_edge_endpoints u v w G Hsym).
  rewrite (sum_set_ext (degree_of (add_edge u v w G)) (degree_of G) (S ∖ {[u; v]})).
  { lia. }
  intros x Hx. rewrite !degree_of_neighbors, neighbors_add_edge.
  rewrite !decide_False by set_solver.
  by assert (neighbors G x ∪ ∅ ∪ ∅ = neighbors G x) as -> by set_solver.
Qed.

Lemma doubleton_eq (a b c d : string) :
  ({[a; b]} : gset string) = {[c; d]} ↔ (a = c ∧ b = d) ∨ (a = d ∧ b = c).
Proof.
  split; [|intros [[-> ->]|[-> ->]]; set_solver].
  intros Heq.
  assert (a ∈ ({[c; d]} : gset string)) as Ha by (rewrite <-Heq; set_solver).
  assert (b ∈ ({[c; d]} : gset string)) as Hb by (rewrite <-Heq; set_solver).
  assert (c ∈ ({[a; b]} : gset string)) as Hc by (rewrite Heq; set_solver).
  assert (d ∈ ({[a; b]} : gset string)) as Hd by (rewrite Heq; set_solver).
  set_unfold. naive_solver.
Qed.

Lemma elem_of_edge_set (rows : list corr_row) (u v : string) :
  {[u; v]} ∈ edge_set rows ↔ has_edge (build_graph rows) u v.
Proof.
  unfold edge_set. rewrite elem_of_list_to_set, list_elem_of_fmap.
  rewrite has_edge_build_graph. setoid_rewrite doubleton_eq. naive_solver.
Qed.

Lemma build_graph_snoc (rows : list corr_row) (r : corr_row) :
  build_graph (rows ++ [r])
  = add_edge (asset_i r) (asset_j r) (corr r) (build_graph rows).
Proof. unfold build_graph. by rewrite foldl_app. Qed.

Lemma edge_set_snoc (rows : list corr_row) (r : corr_row) :
  edge_set (rows ++ [r]) = edge_set rows ∪ {[ {[asset_i r; asset_j r]} ]}.
Proof.
  unfold edge_set. rewrite fmap_app. cbn [fmap list_fmap].
  by rewrite list_to_set_snoc_L.
Qed.

(** The handshake lemma for the graphs the script builds. *)
Lemma sum_degrees_build_graph (rows : list corr_row) :
  sum_list (degrees (build_graph rows)) = 2 * size (edge_set rows).
Proof.
  induction rows as [|r rows IH] using rev_ind.
  { change (edge_set []) with (∅ : gset (gset string)).
    change (build_graph []) with (∅ : Graph).
    unfold degrees. by rewrite map_to_list_empty, size_empty. }
  rewrite build_graph_snoc, edge_set_snoc.
  rewrite sum_degrees_add_edge by apply build_graph_undirected.
  rewrite IH. destruct (decide (has_edge _ _ _)) as [Hin|Hin].
  - apply elem_of_edge_set in Hin.
    assert (edge_set rows ∪ {[{[asset_i r; asset_j r]}]} = edge_set rows) as ->.
    { apply set_eq. intros e. rewrite elem_of_union, elem_of_singleton.
      split; [by intros [?| ->]|by left]. }
    lia.
  - rewrite <-elem_of_edge_set in Hin.
    rewrite size_union, size_singleton by (by apply disjoint_singleton_r).
    lia.
Qed.

Lemma number_of_edges_build_graph (rows : list corr_row) :
  number_of_edges (build_graph rows) = size (edge_set rows).
Proof.
  unfold number_of_edges. rewrite sum_degrees_build_graph.
  rewrite Nat.mul_comm. by apply Nat.div_mul.
Qed.

Lemma dom_build_graph_node_set (rows : list corr_row) :
  dom (build_graph rows) = node_set rows.
Proof.
  apply set_eq. intros x. rewrite dom_build_graph. unfold node_set.
  rewrite elem_of_list_to_set, list_elem_of_bind.
  split; intros (r & H1 & H2); exists r; set_solver.
Qed.

Lemma number_of_nodes_build_graph (rows : list corr_row) :
  number_of_nodes (build_graph rows) = size (node_set rows).
Proof.
  unfold number_of_nodes. by rewrite <-dom_build_graph_node_set, size_dom.
Qed.

End Handshake.

Section DegreeMetrics.
Import Network NetworkSpec GraphSpec.
Context (pd : pandas) (threshold : Q) (table : list monthly_correlations).

Lemma Qsum_inject (l : list nat) :
  (Qsum ((λ d, inject_Z (Z.of_nat d)) <$> l) == inject_Z (Z.of_nat (sum_list l)))%Q.
Proof.
  induction l as [|d l IH]; [done|].
  cbn [fmap list_fmap Qsum foldr sum_list_with]. unfold id at 1.
  fold (Qsum ((λ d, inject_Z (Z.of_nat d)) <$> l)).
  rewrite IH, Nat2Z.inj_add, inject_Z_plus. reflexivity.
Qed.

Lemma mean_nonempty (l : list Q) :
  l ≠ [] → mean l = Fin (Qsum l / inject_Z (Z.of_nat (length l))).
Proof. by destruct l. Qed.

Lemma sum_list_fmap_le {A} (f : A → nat) (l : list A) (c : nat) :
  (∀ x, x ∈ l → f x ≤ c) → sum_list (f <$> l) ≤ length l * c.
Proof.
  induction l as [|x l IH]; intros Hle; [done|].
  cbn [fmap list_fmap sum_list_with length]. unfold id at 1.
  specialize (Hle x (list_elem_of_here _ _)) as Hx.
  assert (sum_list (f <$> l) ≤ length l * c) by (apply IH; intros; apply Hle; by right).
  lia.
Qed.

Lemma sum_list_fmap_ge {A} (f : A → nat) (l : list A) (c : nat) :
  (∀ x, x ∈ l → c ≤ f x) → length l * c ≤ sum_list (f <$> l).
Proof.
  induction l as [|x l IH]; intros Hle; [done|].
  cbn [fmap list_fmap sum_list_with length]. unfold id at 1.
  specialize (Hle x (list_elem_of_here _ _)) as Hx.
  assert (length l * c ≤ sum_list (f <$> l)) by (apply IH; intros; apply Hle; by right).
  lia.
Qed.

Lemma length_degrees (G : Graph) : length (degrees G) = number_of_nodes G.
Proof. unfold degrees. by rewrite length_fmap, length_map_to_list. Qed.

Lemma elem_of_degrees (G : Graph) (d : nat) :
  d ∈ degrees G ↔ ∃ v, v ∈ dom G ∧ d = degree_of G v.
Proof.
  rewrite degrees_degree_of, list_elem_of_fmap.
  setoid_rewrite nodes_Permutation. setoid_rewrite elem_of_elements.
  naive_solver.
Qed.

(** Nodes enter the graph only as endpoints of an edge. *)
Lemma build_graph_no_isolated (rows : list corr_row) (v : string) :
  v ∈ dom (build_graph rows) → 1 ≤ degree_of (build_graph rows) v.
Proof.
  intros Hv. assert (∃ u, has_edge (build_graph rows) v u) as [u Hu].
  { apply dom_build_graph in Hv as (r & Hr & [->| ->]).
    - exists (asset_j r). apply has_edge_build_graph. eauto.
    - exists (asset_i r). apply has_edge_build_graph. eauto. }
  apply elem_of_dom in Hv as [nbrs Hv]. unfold degree_of.
  rewrite (lookup_total_correct _ _ _ Hv). by eapply degree_pos.
Qed.

(** The fields of an emitted row, as functions of the graph of its
    month. *)
Lemma row_fields (out : list metrics_row) (row : metrics_row) :
  metrics_df pd threshold table = Ok out → row ∈ out →
  let G := month_graph threshold table (m_month row) in
  month_edges threshold table (m_month row) ≠ []
  ∧ n_assets row = number_of_nodes G
  ∧ n_edges row = number_of_edges G
  ∧ density G = Ok (m_density row)
  ∧ avg_degree row = mean ((λ d, inject_Z (Z.of_nat d)) <$> degrees G)
  ∧ max_degree row = max_list (degrees G)
  ∧ ∃ c, max_by_len (connected_components G) = Ok c ∧ lcc_size row = size c.
Proof.
  intros Hrun Hrow%(elem_of_metrics_df _ _ _ _ _ Hrun) G.
  destruct (month_row_spec threshold table (m_month row))
    as [[_ Hnone]|(Hne & q & cd & c & Hq & _ & _ & Hc & Hsome)]; [congruence|].
  rewrite Hsome in Hrow. injection Hrow as <-. simpl.
  split_and!; try done. by exists c.
Qed.

(** X5.  [n_assets] is the number of distinct assets in the rows of the
    month that pass the threshold, and [n_edges] is the number of distinct
    unordered pairs of assets in them: repeated rows and the two
    directions of a pair are counted once. *)
Theorem X5_counts_distinct_assets_and_pairs (out : list metrics_row)
    (row : metrics_row) :
  metrics_df pd threshold table = Ok out → row ∈ out →
  n_assets row = size (node_set (month_edges threshold table (m_month row)))
  ∧ n_edges row = size (edge_set (month_edges threshold table (m_month row))).
Proof.
  intros Hrun Hrow.
  destruct (row_fields out row Hrun Hrow) as (_ & -> & -> & _).
  unfold month_graph.
  by rewrite number_of_nodes_build_graph, number_of_edges_build_graph.
Qed.

(** X6.  The degrees of the graph of a month add up to exactly twice
    the number of edges, so the reported average degree is
    [2 * n_edges / n_assets]; it is never the missing value of an empty
    mean. *)
Theorem X6_average_degree (out : list metrics_row) (row : metrics_row) :
  metrics_df pd threshold table = Ok out → row ∈ out →
  sum_list (degrees (month_graph threshold table (m_month row)))
  = 2 * n_edges row
  ∧ ∃ q, avg_degree row = Fin q
      ∧ (q == 2 * inject_Z (Z.of_nat (n_edges row))
              / inject_Z (Z.of_nat (n_assets row)))%Q.
Proof.
  intros Hrun Hrow.
  destruct (row_fields out row Hrun Hrow) as (Hne & Hn & Hm & _ & Havg & _).
  set (G := month_graph threshold table (m_month row)) in *.
  assert (sum_list (degrees G) = 2 * n_edges row) as Hsum.
  { rewrite Hm. unfold G, month_graph.
    by rewrite sum_degrees_build_graph, number_of_edges_build_graph. }
  split; [done|].
  assert (degrees G ≠ []) as Hdeg.
  { intros Hnil. apply (f_equal length) in Hnil.
    rewrite length_degrees in Hnil. simpl in Hnil.
    apply map_size_empty_iff in Hnil. by apply build_graph_nonempty in Hne. }
  rewrite Havg, mean_nonempty by (by intros ?%fmap_nil_inv).
  eexists. split; [reflexivity|].
  rewrite Qsum_inject, length_fmap, Hsum, length_degrees, <-Hn.
  rewrite Nat2Z.inj_mul, inject_Z_mult. reflexivity.
Qed.

(** X7.  No node of the graph of a month is isolated: the graph has at
    most twice as many nodes as edges, and the average degree lies between
    1 and the maximal degree. *)
Theorem X7_no_isolated_node (out : list metrics_row) (row : metrics_row) :
  metrics_df pd threshold table = Ok out → row ∈ out →
  n_assets row ≤ 2 * n_edges row
  ∧ ∃ q, avg_degree row = Fin q
      ∧ (1 <= q <= inject_Z (Z.of_nat (max_degree row)))%Q.
Proof.
  intros Hrun Hrow.
  destruct (row_fields out row Hrun Hrow) as (Hne & Hn & Hm & _ & Havg & Hmax & _).
  set (G := month_graph threshold table (m_month row)) in *.
  assert (sum_list (degrees G) = 2 * n_edges row) as Hsum.
  { rewrite Hm. unfold G, month_graph.
    by rewrite sum_degrees_build_graph, number_of_edges_build_graph. }
  assert (n_assets row ≤ sum_list (degrees G)) as Hlow.
  { rewrite Hn, <-length_degrees, <-(Nat.mul_1_r (length _)).
    rewrite <-(list_fmap_id (degrees G)) at 2.
    apply sum_list_fmap_ge. intros d (v & Hv & ->)%elem_of_degrees.
    by apply build_graph_no_isolated. }
  assert (sum_list (degrees G) ≤ n_assets row * max_degree row) as Hhigh.
  { rewrite Hn, Hmax, <-length_degrees.
    rewrite <-(list_fmap_id (degrees G)) at 1.
    apply sum_list_fmap_le. intros d Hd. by apply max_list_elem_of_le. }
  split; [lia|].
  assert (0 < n_assets row) as Hpos.
  { rewrite Hn. unfold number_of_nodes.
    assert (size G ≠ 0); [|lia]. rewrite map_size_non_empty_iff.
    by apply build_graph_nonempty. }
  assert (degrees G ≠ []) as Hdeg.
  { intros Hnil. rewrite Hnil in Hlow. simpl in Hlow. lia. }
  rewrite Havg, mean_nonempty by (by intros ?%fmap_nil_inv).
  eexists. split; [reflexivity|].
  rewrite Qsum_inject, length_fmap, length_degrees, <-Hn.
  assert (0 < inject_Z (Z.of_nat (n_assets row)))%Q as HposQ.
  { unfold Qlt. simpl. lia. }
  split.
  - apply Qle_shift_div_l; [done|]. rewrite Qmult_1_l.
    rewrite <-Zle_Qle. lia.
  - apply Qle_shift_div_r; [done|]. rewrite <-inject_Z_mult, <-Zle_Qle. lia.
Qed.

End DegreeMetrics.

Section SimpleGraph.
Import Network NetworkSpec GraphSpec.
Context (pd : pandas) (threshold : Q) (table : list monthly_correlations).
Context (Hwf : no_self_pairs table).

Lemma month_graph_no_loop (m : date) (v : string) :
  ¬ has_edge (month_graph threshold table m) v v.
Proof.
  intros (t & Ht & _ & _ & Hv)%has_edge_month_graph.
  apply (proj1 (Forall_forall _ _) Hwf t Ht). naive_solver.
Qed.

Lemma month_graph_degree_of (m : date) (v : string) :
  degree_of (month_graph threshold table m) v
  = size (neighbors (month_graph threshold table m) v).
Proof.
  rewrite degree_of_neighbors, decide_False; [lia|]. apply month_graph_no_loop.
Qed.

Lemma month_graph_neighbors (m : date) (v : string) :
  neighbors (month_graph threshold table m) v
  ⊆ dom (month_graph threshold table m) ∖ {[v]}.
Proof.
  intros u Hu. apply elem_of_difference. split.
  - by apply (has_edge_dom _ v u (month_graph_undirected threshold table m)).
  - intros ->%elem_of_singleton. by apply (month_graph_no_loop m v).
Qed.

Lemma month_graph_degree_bound (m : date) (v : string) :
  v ∈ dom (month_graph threshold table m) →
  degree_of (month_graph threshold table m) v
  ≤ number_of_nodes (month_graph threshold table m) - 1.
Proof.
  intros Hv. rewrite month_graph_degree_of.
  etrans; [apply subseteq_size, month_graph_neighbors|].
  rewrite size_difference, size_singleton by set_solver.
  unfold number_of_nodes. by rewrite size_dom.
Qed.

Lemma month_graph_two_nodes (m : date) :
  month_edges threshold table m ≠ [] →
  2 ≤ number_of_nodes (month_graph threshold table m)
  ∧ 1 ≤ number_of_edges (month_graph threshold table m).
Proof.
  intros (t & Ht & Hm & Hp)%month_edges_nonempty.
  assert (has_edge (month_graph threshold table m) (mc_asset_i t) (mc_asset_j t))
    as Hedge.
  { apply has_edge_month_graph. exists t. split_and!; [done..|by left]. }
  pose proof (month_graph_undirected threshold table m) as Hsym.
  destruct (has_edge_dom _ _ _ Hsym Hedge) as [Hi Hj].
  split; [|by eapply number_of_edges_pos].
  unfold number_of_nodes. rewrite <-(size_dom (D := gset string)).
  etrans; [|apply (subseteq_size {[mc_asset_i t; mc_asset_j t]}); set_solver].
  rewrite size_union, !size_singleton; [done|].
  apply disjoint_singleton_l. intros Heq%elem_of_singleton.
  by apply (proj1 (Forall_forall _ _) Hwf t Ht).
Qed.

Lemma sum_list_fmap_eq_all {A} (f : A → nat) (l : list A) (c : nat) :
  (∀ x, x ∈ l → f x ≤ c) → sum_list (f <$> l) = length l * c →
  ∀ x, x ∈ l → f x = c.
Proof.
  induction l as [|y l IH]; intros Hle Hsum x Hx; [by apply elem_of_nil in Hx|].
  cbn [fmap list_fmap sum_list_with length] in Hsum. unfold id at 1 in Hsum.
  pose proof (Hle y (list_elem_of_here _ _)) as Hy.
  assert (sum_list (f <$> l) ≤ length l * c) as Hl.
  { apply sum_list_fmap_le. intros. apply Hle. by right. }
  apply elem_of_cons in Hx as [->|Hx]; [lia|].
  apply IH; [intros; apply Hle; by right|lia|done].
Qed.

(** X8.  When every row of the table joins two different assets, the
    graph of a month is simple: the reported density lies in (0, 1] and is
    1 exactly when every two nodes are joined; the maximal degree is at
    most [n_assets - 1]; and the largest component has more nodes than the
    maximal degree. *)
Theorem X8_simple_graph_bounds (out : list metrics_row) (row : metrics_row) :
  metrics_df pd threshold table = Ok out → row ∈ out →
  (0 < m_density row <= 1)%Q
  ∧ ((m_density row == 1)%Q
     ↔ complete (month_graph threshold table (m_month row)))
  ∧ max_degree row ≤ n_assets row - 1
  ∧ max_degree row + 1 ≤ lcc_size row.
Proof.
  intros Hrun Hrow.
  destruct (row_fields pd threshold table out row Hrun Hrow)
    as (Hne & Hn & Hm & Hq & _ & Hmax & c & Hc & Hlcc).
  set (G := month_graph threshold table (m_month row)) in *.
  pose proof (month_graph_undirected threshold table (m_month row)) as Hsym.
  fold G in Hsym.
  destruct (month_graph_two_nodes (m_month row) Hne) as [Hn2 Hm1]. fold G in Hn2, Hm1.
  assert (sum_list (degrees G) = 2 * number_of_edges G) as Hsum.
  { unfold G, month_graph.
    by rewrite sum_degrees_build_graph, number_of_edges_build_graph. }
  assert (∀ d, d ∈ degrees G → d ≤ number_of_nodes G - 1) as Hdeg.
  { intros d (v & Hv & ->)%elem_of_degrees. by apply month_graph_degree_bound. }
  assert (2 * number_of_edges G ≤ number_of_nodes G * (number_of_nodes G - 1))
    as Hbound.
  { rewrite <-Hsum, <-length_degrees at 1.
    rewrite <-(list_fmap_id (degrees G)) at 1. by apply sum_list_fmap_le. }
  destruct (density_spec G) as (q & Hq' & Hformula & _).
  rewrite Hq in Hq'. injection Hq' as <-. specialize (Hformula Hn2).
  rewrite <-Hn, <-Hm in *.
  assert (0 < inject_Z (Z.of_nat (n_assets row))
              * (inject_Z (Z.of_nat (n_assets row)) - 1))%Q as Hden.
  { apply Qmult_lt_0_compat; unfold Qlt; simpl; lia. }
  assert (inject_Z (Z.of_nat (n_assets row))
          * (inject_Z (Z.of_nat (n_assets row)) - 1)
          == inject_Z (Z.of_nat (n_assets row * (n_assets row - 1))))%Q as Hden_eq.
  { rewrite Nat2Z.inj_mul, Nat2Z.inj_sub by lia. unfold Qeq. simpl. lia. }
  assert (2 * inject_Z (Z.of_nat (n_edges row))
          == inject_Z (Z.of_nat (2 * n_edges row)))%Q as Hnum_eq.
  { rewrite Nat2Z.inj_mul. unfold Qeq. simpl. lia. }
  split_and!.
  - rewrite Hformula. apply Qlt_shift_div_l; [done|].
    rewrite Qmult_0_l, Hnum_eq. rewrite <-(Zlt_Qlt 0). lia.
  - rewrite Hformula. apply Qle_shift_div_r; [done|].
    rewrite Qmult_1_l, Hnum_eq, Hden_eq. rewrite <-Zle_Qle. lia.
  - assert ((m_density row == 1)%Q
            ↔ 2 * n_edges row = n_assets row * (n_assets row - 1)) as ->.
    { rewrite Hformula. split.
      - intros Heq.
        assert (2 * inject_Z (Z.of_nat (n_edges row))
                == inject_Z (Z.of_nat (n_assets row))
                   * (inject_Z (Z.of_nat (n_assets row)) - 1))%Q as Heq'.
        { etransitivity; [|etransitivity; [apply (Qmult_comp _ _ Heq), Qeq_refl|]];
            [|apply Qmult_1_l].
          field. split; unfold Qeq; simpl; lia. }
        rewrite Hnum_eq, Hden_eq in Heq'.
        unfold Qeq in Heq'. simpl in Heq'. lia.
      - intros Heq. rewrite Hnum_eq, Hden_eq, Heq.
        apply Qmult_inv_r. rewrite <-Hden_eq. intros H0.
        rewrite H0 in Hden. by apply Qlt_irrefl in Hden. }
    rewrite <-Hsum. split.
    + intros Heq u v Hu Hv Hne'.
      assert (degree_of G u = n_assets row - 1) as Hdu.
      { apply (sum_list_fmap_eq_all id (degrees G) _ Hdeg).
        - by rewrite list_fmap_id, length_degrees, <-Hn.
        - apply elem_of_degrees. eauto. }
      unfold G in Hdu. rewrite month_graph_degree_of in Hdu. fold G in Hdu.
      assert (neighbors G u = dom G ∖ {[u]}) as Hnb.
      { apply set_subseteq_size_eq; [apply month_graph_neighbors|].
        rewrite Hdu, size_difference, size_singleton by set_solver.
        rewrite Hn. unfold number_of_nodes. by rewrite size_dom. }
      unfold has_edge. rewrite Hnb. set_solver.
    + intros Hcomplete. rewrite Hn at 1. rewrite <-length_degrees.
      rewrite <-(list_fmap_id (degrees G)) at 1.
      rewrite (sum_list_fmap_ext_in id (λ _, n_assets row - 1)).
      { by rewrite sum_list_fmap_const, length_degrees. }
      intros d (v & Hv & ->)%elem_of_degrees. unfold id, G.
      rewrite month_graph_degree_of. fold G.
      assert (neighbors G v = dom G ∖ {[v]}) as ->.
      { apply set_eq. intros u. split; [apply month_graph_neighbors|].
        intros [Hu Huv%not_elem_of_singleton]%elem_of_difference.
        apply Hcomplete; [done..|]. by apply not_eq_sym. }
      rewrite size_difference, size_singleton by set_solver.
      rewrite Hn. unfold number_of_nodes. by rewrite size_dom.
  - rewrite Hmax. destruct (degrees G) as [|d ds] eqn:Hds.
    { simpl. lia. }
    apply Hdeg. rewrite <-Hds. apply max_list_elem_of. by rewrite Hds.
  - assert (degrees G ≠ []) as Hdne.
    { intros Hnil. apply (f_equal length) in Hnil.
      rewrite length_degrees in Hnil. simpl in Hnil. lia. }
    pose proof (max_list_elem_of _ Hdne) as (v & Hv & Hdv)%elem_of_degrees.
    rewrite Hmax, Hdv, Hlcc. unfold G. rewrite month_graph_degree_of. fold G.
    destruct (max_by_len_spec (connected_components G)) as (c' & Hc' & Hin & Hbig).
    { intros Hnil. by rewrite Hnil in Hc. }
    rewrite Hc in Hc'. injection Hc' as <-.
    destruct (connected_components_cover G Hsym v Hv) as (cv & Hcv & Hvcv).
    etrans; [|by apply Hbig].
    destruct (elem_of_connected_components G Hsym cv Hcv) as (s & _ & Hreach).
    etrans; [|apply (subseteq_size (neighbors G v ∪ {[v]}))].
    + rewrite size_union, size_singleton; [done|].
      apply disjoint_singleton_r. apply month_graph_no_loop.
    + intros x [Hx| ->%elem_of_singleton]%elem_of_union; [|done].
      apply Hreach. eapply rtc_r; [|exact Hx]. by apply Hreach.
Qed.

End SimpleGraph.

Section MonthOrder.
Import Network NetworkSpec GraphSpec.
Context (pd : pandas) (threshold : Q) (table : list monthly_correlations).

Lemma date_lt_le (a b : date) : date_lt a b → date_le a b.
Proof. by intros [? _]. Qed.

Lemma StronglySorted_date_lt (l : list date) :
  StronglySorted date_le l → NoDup l → StronglySorted date_lt l.
Proof.
  induction 1 as [|m l Hl IH Hm]; intros Hnd; [constructor|].
  apply NoDup_cons in Hnd as [Hin Hnd]. constructor; [by apply IH|].
  apply Forall_forall. intros m' Hm'. split.
  - by apply (proj1 (Forall_forall _ _) Hm).
  - by intros ->.
Qed.

Lemma keys_strictly_sorted (l : list date) :
  StronglySorted date_lt (unique_sorted date_le l).
Proof.
  apply StronglySorted_date_lt.
  - apply (StronglySorted_merge_sort date_le).
  - apply NoDup_unique_sorted.
Qed.

(** The rows collected by the loop, in the order of the loop. *)
Lemma records_strictly_sorted (keys : list date) :
  StronglySorted date_lt keys →
  StronglySorted date_lt
    (m_month <$> (keys ≫= λ m, option_list (month_row threshold table m))).
Proof.
  induction 1 as [|m keys Hkeys IH Hm]; [constructor|].
  cbn [mbind list_bind]. rewrite fmap_app.
  destruct (month_row threshold table m) as [row|] eqn:Hrow; [|done].
  cbn [option_list fmap list_fmap app]. constructor; [done|].
  rewrite (month_row_month _ _ _ _ Hrow). apply Forall_forall.
  intros m' (row' & -> & (k & Hin & Hk)%list_elem_of_bind)%list_elem_of_fmap.
  destruct (month_row threshold table k) as [r|] eqn:Hr;
    [|by apply elem_of_nil in Hin].
  apply list_elem_of_singleton in Hin as ->.
  rewrite (month_row_month _ _ _ _ Hr).
  by apply (proj1 (Forall_forall _ _) Hm).
Qed.

Lemma StronglySorted_month_le (l : list metrics_row) :
  StronglySorted date_lt (m_month <$> l) → StronglySorted month_le l.
Proof.
  induction l as [|r l IH]; [constructor|].
  cbn [fmap list_fmap]. intros [Hr Hl]%StronglySorted_cons.
  constructor; [by apply IH|]. apply Forall_forall. intros r' Hr'.
  apply date_lt_le, (proj1 (Forall_forall _ _) Hr), list_elem_of_fmap. eauto.
Qed.

Lemma strictly_sorted_inj (l : list metrics_row) (r r' : metrics_row) :
  StronglySorted date_lt (m_month <$> l) →
  r ∈ l → r' ∈ l → m_month r = m_month r' → r = r'.
Proof.
  induction l as [|x l IH]; [by intros _ ?%elem_of_nil|].
  cbn [fmap list_fmap]. intros [Hx Hl]%StronglySorted_cons.
  rewrite Forall_forall in Hx.
  intros [->|Hr]%elem_of_cons [->|Hr']%elem_of_cons Heq; [done| | |by apply IH].
  - destruct (Hx (m_month r')) as [_ []]; [|done].
    apply list_elem_of_fmap. eauto.
  - destruct (Hx (m_month r)) as [_ []]; [|done].
    apply list_elem_of_fmap. eauto.
Qed.

#[local] Instance month_le_trans : Transitive month_le.
Proof. intros a b c. unfold month_le. apply date_le_trans. Qed.

Lemma merge_sort_strictly_sorted (l : list metrics_row) :
  StronglySorted date_lt (m_month <$> l) → merge_sort month_le l = l.
Proof.
  intros Hl. apply (StronglySorted_unique_strong month_le).
  - intros r r' Hr Hr' H1 H2. rewrite merge_sort_Permutation in Hr.
    apply (strictly_sorted_inj l); [done..|]. by apply date_le_antisym.
  - apply (StronglySorted_merge_sort month_le).
  - by apply StronglySorted_month_le.
  - apply merge_sort_Permutation.
Qed.

(** X9.  [groupby] hands the months over in increasing order, so the rows
    are collected in the order of their months: the final
    [sort_values("month")] changes nothing, and the months of the result
    increase strictly, which is what the primary key on [month] of the
    created table needs. *)
Theorem X9_rows_collected_in_month_order :
  metrics_df pd threshold table
  = (df ← load pd table;
     for_each (month_record threshold) (groupby_month df))
  ∧ ∀ out, metrics_df pd threshold table = Ok out →
           StronglySorted date_lt (m_month <$> out).
Proof.
  unfold metrics_df. rewrite load_edges_spec.
  case_decide as Hfit; [|done]. cbn [mbind result_bind].
  change (match for_each (month_record threshold)
                  (groupby_month (read_sql table)) with
          | Ok a => ?k a | Raise e => Raise e end)
    with (for_each (month_record threshold) (groupby_month (read_sql table))
          ≫= k).
  rewrite for_each_Ok by (intros; apply month_record_Ok).
  unfold groupby_month. rewrite omap_bind_list, bind_fmap_list.
  cbn [mbind result_bind]. fold (month_row threshold table).
  set (records := _ ≫= _).
  assert (StronglySorted date_lt (m_month <$> records)) as Hsorted.
  { apply records_strictly_sorted, keys_strictly_sorted. }
  assert (match records with [] => [] | _ :: _ => merge_sort month_le records end
          = records) as ->.
  { destruct records; [done|]. by apply merge_sort_strictly_sorted. }
  split; [done|]. by intros out [= <-].
Qed.

End MonthOrder.

Section ThresholdMonotone.
Import Network NetworkSpec GraphSpec.
Context (pd : pandas) (table : list monthly_correlations) (thr1 thr2 : Q).
Context (Hthr : (thr1 <= thr2)%Q).

Lemma month_edges_mono (m : date) :
  month_edges thr2 table m ⊆ month_edges thr1 table m.
Proof.
  intros r (t & q & Ht & Hm & Hq & Hle & ->)%elem_of_month_edges.
  apply elem_of_month_edges. exists t, q. split_and!; [done..| |done].
  by apply (Qle_trans _ thr2).
Qed.

Lemma month_graph_mono (m : date) (u v : string) :
  has_edge (month_graph thr2 table m) u v →
  has_edge (month_graph thr1 table m) u v.
Proof.
  unfold month_graph. rewrite !has_edge_build_graph.
  intros (r & Hr%month_edges_mono & Huv). eauto.
Qed.

Lemma month_graph_dom_mono (m : date) :
  dom (month_graph thr2 table m) ⊆ dom (month_graph thr1 table m).
Proof.
  unfold month_graph. intros v. rewrite !dom_build_graph.
  intros (r & Hr%month_edges_mono & Hv). eauto.
Qed.

Lemma month_graph_degree_mono (m : date) (v : string) :
  degree_of (month_graph thr2 table m) v
  ≤ degree_of (month_graph thr1 table m) v.
Proof.
  rewrite !degree_of_neighbors.
  assert (neighbors (month_graph thr2 table m) v
          ⊆ neighbors (month_graph thr1 table m) v) as Hsub.
  { intros u. apply month_graph_mono. }
  apply subseteq_size in Hsub as Hsize.
  destruct (decide (v ∈ neighbors (month_graph thr2 table m) v)) as [Hv|Hv].
  - rewrite decide_True by (by apply Hsub). lia.
  - destruct (decide _); lia.
Qed.

Lemma month_graph_rtc_mono (m : date) (u v : string) :
  rtc (has_edge (month_graph thr2 table m)) u v →
  rtc (has_edge (month_graph thr1 table m)) u v.
Proof. apply rtc_subrel. intros x y. apply month_graph_mono. Qed.

(** X10.  Raising the threshold only removes edges: a month that has a
    row at the higher threshold has one at the lower threshold, and there
    the numbers of nodes and edges, the maximal degree and the size of the
    largest component are at least as large. *)
Theorem X10_threshold_monotone (out1 out2 : list metrics_row)
    (row2 : metrics_row) :
  metrics_df pd thr1 table = Ok out1 → metrics_df pd thr2 table = Ok out2 →
  row2 ∈ out2 →
  ∃ row1, row1 ∈ out1 ∧ m_month row1 = m_month row2
    ∧ n_assets row2 ≤ n_assets row1 ∧ n_edges row2 ≤ n_edges row1
    ∧ max_degree row2 ≤ max_degree row1 ∧ lcc_size row2 ≤ lcc_size row1.
Proof.
  intros Hrun1 Hrun2 Hrow2.
  destruct (row_fields pd thr2 table out2 row2 Hrun2 Hrow2)
    as (Hne2 & Hn2 & Hm2 & _ & _ & Hmax2 & c2 & Hc2 & Hlcc2).
  set (m := m_month row2) in *.
  assert (month_edges thr1 table m ≠ []) as Hne1.
  { destruct (month_edges thr2 table m) as [|r rs] eqn:Hrs; [done|].
    assert (r ∈ month_edges thr1 table m) as Hr
      by (apply month_edges_mono; rewrite Hrs; left).
    intros Hnil. rewrite Hnil in Hr. by apply elem_of_nil in Hr. }
  destruct (month_row_spec thr1 table m)
    as [[? _]|(_ & q & cd & c & _ & _ & _ & _ & Hrow1)]; [done|].
  match type of Hrow1 with _ = Some ?r => set (row1 := r) in * end.
  assert (row1 ∈ out1) as Hin1 by (by apply (elem_of_metrics_df _ _ _ _ _ Hrun1)).
  destruct (row_fields pd thr1 table out1 row1 Hrun1 Hin1)
    as (_ & Hn1 & Hm1 & _ & _ & Hmax1 & c1 & Hc1 & Hlcc1).
  change (m_month row1) with m in *.
  set (G1 := month_graph thr1 table m) in *.
  set (G2 := month_graph thr2 table m) in *.
  pose proof (month_graph_undirected thr1 table m) as Hsym1. fold G1 in Hsym1.
  pose proof (month_graph_undirected thr2 table m) as Hsym2. fold G2 in Hsym2.
  exists row1. split_and!; [done|done|..].
  - rewrite Hn1, Hn2. unfold number_of_nodes.
    rewrite <-!(size_dom (D := gset string)).
    apply subseteq_size, month_graph_dom_mono.
  - rewrite Hm1, Hm2. unfold G1, G2, month_graph.
    rewrite !number_of_edges_build_graph. apply subseteq_size.
    unfold edge_set. intros e.
    rewrite !elem_of_list_to_set, !list_elem_of_fmap.
    intros (r & -> & Hr%month_edges_mono). eauto.
  - rewrite Hmax1, Hmax2. destruct (degrees G2) as [|d ds] eqn:Hds; [simpl; lia|].
    assert (max_list (d :: ds) ∈ degrees G2) as (v & Hv & ->)%elem_of_degrees.
    { rewrite <-Hds. apply max_list_elem_of. by rewrite Hds. }
    etrans; [apply month_graph_degree_mono|]. fold G1.
    apply max_list_elem_of_le, elem_of_degrees. exists v. split; [|done].
    by apply month_graph_dom_mono.
  - rewrite Hlcc1, Hlcc2.
    destruct (max_by_len_spec (connected_components G2)) as (c' & Hc & Hin2 & _).
    { intros Hnil. by rewrite Hnil in Hc2. }
    rewrite Hc2 in Hc. injection Hc as <-.
    destruct (elem_of_connected_components G2 Hsym2 c2 Hin2) as (s & Hs & Hreach2).
    apply month_graph_dom_mono in Hs. fold G1 in Hs.
    destruct (connected_components_cover G1 Hsym1 s Hs) as (cs & Hcs & Hscs).
    destruct (max_by_len_spec (connected_components G1)) as (c' & Hc & _ & Hbig).
    { intros Hnil. by rewrite Hnil in Hc1. }
    rewrite Hc1 in Hc. injection Hc as <-.
    etrans; [|by apply Hbig]. apply subseteq_size. intros x Hx%Hreach2.
    destruct (elem_of_connected_components G1 Hsym1 cs Hcs) as (s' & _ & Hreach1).
    apply Hreach1. etrans; [by apply Hreach1|]. by apply month_graph_rtc_mono.
Qed.

End ThresholdMonotone.

(** ** The two scripts in sequence *)

Section Pipeline.
Import Correlations CorrelationSpec Network NetworkSpec GraphSpec.
Context (pd : pandas) (sqrt : Q → Q) (min_days : nat) (threshold : Q).
Context (table : list ohlc_daily) (out : list corr_row).
Context (Hout : monthly_corr pd sqrt min_days table = Ok out).

Lemma passes_copy_row (e : corr_row) :
  passes threshold (copy_row e)
  ↔ ∃ q, corr e = Fin q ∧ (threshold <= Qabs q)%Q.
Proof.
  unfold passes, copy_row. simpl. destruct (corr e) as [|q]; naive_solver.
Qed.

Lemma pipeline_edge (m : date) (u v : string) :
  has_edge (month_graph threshold (copy_row <$> out) m) u v
  ↔ u ≠ v ∧ u ∈ survivors min_days table m ∧ v ∈ survivors min_days table m
    ∧ ∃ q, pair_corr sqrt min_days table m u v = Fin q
           ∧ (threshold <= Qabs q)%Q.
Proof.
  rewrite has_edge_month_graph. split.
  - intros (t & (e & -> & He)%list_elem_of_fmap & Hm & Hp%passes_copy_row & Huv).
    apply (elem_of_monthly_corr _ _ _ _ _ _ Hout) in He
      as (Hi & Hj & Hne & Hcorr & _).
    destruct Hp as (q & Hq & Hle). simpl in Hm, Huv. subst m.
    rewrite Hcorr in Hq. destruct Huv as [[<- <-]|[<- <-]].
    + split_and!; [done..|]. eauto.
    + split_and!; [done..|]. exists q. split; [|done].
      unfold pair_corr in *. by rewrite corr_at_sym.
  - intros (Hne & Hu & Hv & q & Hq & Hle).
    exists (copy_row (mkCorr m u v (Fin q))).
    split_and!; [|done| |by left].
    + apply list_elem_of_fmap. eexists. split; [done|].
      apply (elem_of_monthly_corr _ _ _ _ _ _ Hout). simpl.
      by split_and!.
    + apply passes_copy_row. simpl. eauto.
Qed.

(** X11.  The graph of a month, read off the daily table: two assets are
    joined exactly when they are different survivors of the [min_days]
    filter of that month whose correlation is present and reaches the
    threshold in absolute value; so a row never counts more assets than
    the month has survivors. *)
Theorem X11_graph_of_daily_table (rows : list metrics_row)
    (row : metrics_row) :
  metrics_df pd threshold (copy_row <$> out) = Ok rows → row ∈ rows →
  (∀ u v,
     has_edge (month_graph threshold (copy_row <$> out) (m_month row)) u v
     ↔ u ≠ v ∧ u ∈ survivors min_days table (m_month row)
       ∧ v ∈ survivors min_days table (m_month row)
       ∧ ∃ q, pair_corr sqrt min_days table (m_month row) u v = Fin q
              ∧ (threshold <= Qabs q)%Q)
  ∧ n_assets row ≤ length (survivors min_days table (m_month row)).
Proof.
  intros Hrun Hrow. split; [intros u v; apply pipeline_edge|].
  destruct (row_fields pd threshold _ rows row Hrun Hrow) as (_ & -> & _).
  set (G := month_graph threshold (copy_row <$> out) (m_month row)).
  unfold number_of_nodes. rewrite <-(size_dom (D := gset string)).
  rewrite <-(size_list_to_set (C := gset string) (survivors _ _ _))
    by apply NoDup_survivors.
  apply subseteq_size. intros v Hv. apply elem_of_list_to_set.
  assert (∃ u, has_edge G v u) as [u Hu].
  { apply dom_build_graph in Hv as (r & Hr & [->| ->]).
    - exists (asset_j r). apply has_edge_build_graph. eauto.
    - exists (asset_i r). apply has_edge_build_graph. eauto. }
  by apply pipeline_edge in Hu as (_ & ? & _).
Qed.

End Pipeline.

Section CommonDays.
Import Correlations CorrelationSpec TableSpec.
Context (pd : pandas).
Context (sqrt : Q → Q) (sqrt_zero : ∀ q, (q == 0)%Q → (sqrt q == 0)%Q).
Context (min_days : nat) (table : list ohlc_daily).

Lemma overlap_columns {A} (f g : A → float64) (idx : list A) :
  overlap (f <$> idx) (g <$> idx)
  = length (filter (λ d, isna (f d) = false ∧ isna (g d) = false) idx).
Proof.
  unfold overlap. induction idx as [|d idx IH]; [done|].
  cbn [fmap list_fmap zip zip_with]. rewrite !filter_cons. simpl.
  fold (zip (f <$> idx) (g <$> idx)).
  destruct (decide (isna (f d) = false ∧ isna (g d) = false)); simpl; by rewrite IH.
Qed.

Lemma month_frame_column (m : date) (c : string * list float64) :
  c ∈ columns (month_frame min_days table m) →
  NoDup (key <$> month_rows table m)
  ∧ c.2 = (λ d, cell (month_rows table m) d c.1)
            <$> unique_sorted date_le (day <$> month_rows table m).
Proof.
  unfold month_frame. destruct (pivot _) as [p|] eqn:Hp;
    [|by intros ?%elem_of_nil].
  apply pivot_Ok_inv in Hp as (Hnd & _ & Hcols). unfold select. simpl.
  rewrite Hcols.
  by intros [_ (a & -> & _)%list_elem_of_fmap]%list_elem_of_filter.
Qed.

Lemma observed_month_rows (m : date) (r : ret_row) :
  r ∈ month_rows table m → isna (log_return r) = false →
  to_month (day r) = m ∧ observed table (asset_address r) (day r).
Proof.
  intros [Hm (t & Ht & Hr)%list_elem_of_omap]%list_elem_of_filter Hna.
  destruct (ohlc_log_return t) as [x|] eqn:Hx; [|done].
  injection Hr as <-. simpl in *. split; [done|].
  apply Exists_exists. exists t. rewrite Hx. by destruct x.
Qed.

Lemma common_days_columns (m : date) (a b : string) :
  NoDup (key <$> month_rows table m) →
  overlap ((λ d, cell (month_rows table m) d a)
             <$> unique_sorted date_le (day <$> month_rows table m))
          ((λ d, cell (month_rows table m) d b)
             <$> unique_sorted date_le (day <$> month_rows table m))
  ≤ common_days table m a b.
Proof.
  intros Hnd. rewrite overlap_columns. unfold common_days.
  apply submseteq_length, NoDup_submseteq.
  { apply NoDup_filter, NoDup_unique_sorted. }
  intros d [[Ha Hb] _]%list_elem_of_filter.
  apply (cell_present _ _ _ Hnd) in Ha as (ra & Hra & Hda & <- & Hna).
  apply (cell_present _ _ _ Hnd) in Hb as (rb & Hrb & Hdb & <- & Hnb).
  destruct (observed_month_rows m ra Hra Hna) as [Hm Hoa].
  destruct (observed_month_rows m rb Hrb Hnb) as [_ Hob].
  rewrite Hda in Hoa, Hm. rewrite Hdb in Hob.
  apply list_elem_of_filter. split; [done|].
  apply elem_of_remove_dups, list_elem_of_fmap.
  apply Exists_exists in Hoa as (t & Ht & _ & Hd & _).
  exists t. split; [done|]. apply list_elem_of_filter. by rewrite Hd.
Qed.

Lemma common_days_sym (m : date) (a b : string) :
  common_days table m a b = common_days table m b a.
Proof.
  unfold common_days. f_equal. apply list_filter_iff. tauto.
Qed.

(** X12.  With a square root that is zero at zero, every emitted edge
    with a present correlation joins two assets that have a present return
    on at least two common days of the month: with one common day or none
    the correlation is NaN. *)
Theorem X12_edge_needs_two_common_days (out : list corr_row) (e : corr_row) :
  monthly_corr pd sqrt min_days table = Ok out → e ∈ out →
  isna (corr e) = false →
  2 ≤ common_days table (month e) (asset_i e) (asset_j e).
Proof.
  intros Hrun (_ & _ & _ & Hcorr & _)%(elem_of_monthly_corr _ _ _ _ _ _ Hrun) Hna.
  rewrite Hcorr in Hna. unfold pair_corr, corr_at in Hna.
  destruct (list_find _ _) as [[xi cx]|] eqn:Hi; [|done].
  destruct (list_find (λ c, c.1 = asset_j e) _) as [[yi cy]|] eqn:Hj; [|done].
  apply list_find_Some in Hi as (Hi%list_elem_of_lookup_2 & Hxi & _).
  apply list_find_Some in Hj as (Hj%list_elem_of_lookup_2 & Hyj & _).
  apply month_frame_column in Hi as [Hnd Hcx], Hj as [_ Hcy].
  simpl in Hxi, Hyj. rewrite Hxi in Hcx. rewrite Hyj in Hcy.
  destruct (decide (yi ≤ xi)).
  - destruct (decide (overlap cx.2 cy.2 < 2)) as [Hlt|Hge].
    { by rewrite (nancorr_few_overlap sqrt sqrt_zero _ _ Hlt) in Hna. }
    rewrite Hcx, Hcy in Hge.
    pose proof (common_days_columns (month e) (asset_i e) (asset_j e) Hnd). lia.
  - destruct (decide (overlap cy.2 cx.2 < 2)) as [Hlt|Hge].
    { by rewrite (nancorr_few_overlap sqrt sqrt_zero _ _ Hlt) in Hna. }
    rewrite Hcx, Hcy in Hge. rewrite common_days_sym.
    pose proof (common_days_columns (month e) (asset_j e) (asset_i e) Hnd). lia.
Qed.

End CommonDays.

(** ** The order of the rows of the query result *)

Lemma ascii_compare_trans_lt (a b c : Ascii.ascii) :
  Ascii.compare a b = Lt → Ascii.compare b c = Lt → Ascii.compare a c = Lt.
Proof.
  unfold Ascii.compare. rewrite !N.compare_lt_iff. apply N.lt_trans.
Qed.

Lemma ascii_compare_refl (a : Ascii.ascii) : Ascii.compare a a = Eq.
Proof. unfold Ascii.compare. apply N.compare_refl. Qed.

Lemma ascii_compare_gt_lt (a b : Ascii.ascii) :
  Ascii.compare a b = Gt → Ascii.compare b a = Lt.
Proof. rewrite (Ascii.compare_antisym b a). by intros ->. Qed.

Lemma string_compare_trans (s1 s2 s3 : string) :
  String.compare s1 s2 ≠ Gt → String.compare s2 s3 ≠ Gt →
  String.compare s1 s3 ≠ Gt.
Proof.
  revert s2 s3. induction s1 as [|a s1 IH]; intros [|b s2] [|c s3]; try done.
  cbn [String.compare].
  destruct (Ascii.compare a b) eqn:Hab; [| |done].
  - apply Ascii.compare_eq_iff in Hab as ->.
    destruct (Ascii.compare b c) eqn:Hbc; [apply IH|done|done].
  - destruct (Ascii.compare b c) eqn:Hbc; [| |done].
    + apply Ascii.compare_eq_iff in Hbc as ->. by rewrite Hab.
    + by rewrite (ascii_compare_trans_lt _ _ _ Hab Hbc).
Qed.

Lemma string_le_compare (a b : string) :
  string_le a b ↔ String.compare a b ≠ Gt.
Proof.
  unfold string_le, String.leb. by destruct (String.compare a b).
Qed.

#[local] Instance string_le_trans : Transitive string_le.
Proof.
  intros a b c. rewrite !string_le_compare. apply string_compare_trans.
Qed.

#[local] Instance string_le_total : Total string_le.
Proof.
  intros a b. unfold string_le.
  destruct (String.leb_total a b) as [->| ->]; [by left|by right].
Qed.

#[local] Instance string_le_antisym : AntiSymm (=) string_le.
Proof.
  intros a b Hab Hba. apply String.leb_antisym; by apply Is_true_true.
Qed.

#[local] Instance date_le_antisymm : AntiSymm (=) date_le.
Proof. intros a b. apply date_le_antisym. Qed.

Lemma unique_sorted_Permutation_eq {A} `{EqDecision A} (R : relation A)
    `{∀ x y, Decision (R x y)} `{!Total R, !Transitive R, !AntiSymm (=) R}
    (l l' : list A) :
  l ≡ₚ l' → unique_sorted R l = unique_sorted R l'.
Proof.
  intros Hperm. apply (Sorted_unique R).
  - apply (Sorted_merge_sort R).
  - apply (Sorted_merge_sort R).
  - unfold unique_sorted. rewrite !merge_sort_Permutation.
    apply NoDup_Permutation; [apply NoDup_remove_dups..|].
    intros x. by rewrite !elem_of_remove_dups, Hperm.
Qed.

Section RowOrder.
Import Correlations CorrelationSpec.
Context (pd : pandas) (sqrt : Q → Q) (min_days : nat).

Lemma cell_Permutation (g g' : list ret_row) (d : date) (a : string) :
  NoDup (key <$> g) → g ≡ₚ g' → cell g d a = cell g' d a.
Proof.
  intros Hnd Hperm. unfold cell.
  destruct (list_find _ g) as [[i r]|] eqn:Hg;
    destruct (list_find _ g') as [[i' r']|] eqn:Hg'; [| | |done].
  - apply list_find_Some in Hg as (Hr%list_elem_of_lookup_2 & [Hd Ha] & _).
    apply list_find_Some in Hg' as (Hr'%list_elem_of_lookup_2 & [Hd' Ha'] & _).
    rewrite <-Hperm in Hr'.
    f_equal. apply (NoDup_fmap_elem_inj key g); [done..|].
    unfold key. congruence.
  - apply list_find_Some in Hg as (Hr%list_elem_of_lookup_2 & HP & _).
    apply list_find_None in Hg'. rewrite Hperm in Hr.
    by destruct (proj1 (Forall_forall _ _) Hg' r Hr).
  - apply list_find_Some in Hg' as (Hr%list_elem_of_lookup_2 & HP & _).
    apply list_find_None in Hg. rewrite <-Hperm in Hr.
    by destruct (proj1 (Forall_forall _ _) Hg r' Hr).
Qed.

Lemma pivot_Permutation (g g' : list ret_row) :
  g ≡ₚ g' → pivot g = pivot g'.
Proof.
  intros Hperm. unfold pivot.
  assert (day <$> g ≡ₚ day <$> g') as Hdays by (by rewrite Hperm).
  assert (asset_address <$> g ≡ₚ asset_address <$> g') as Hlabels
    by (by rewrite Hperm).
  rewrite <-(unique_sorted_Permutation_eq date_le _ _ Hdays).
  rewrite <-(unique_sorted_Permutation_eq string_le _ _ Hlabels).
  destruct (decide (NoDup _)) as [Hnd|Hnd].
  - rewrite decide_True by (by rewrite <-Hperm). do 2 f_equal.
    apply list_fmap_ext. intros _ a _. f_equal.
    apply list_fmap_ext. intros _ d _. by apply cell_Permutation.
  - rewrite decide_False; [done|]. by rewrite <-Hperm.
Qed.

Lemma for_each_fmap_ext {A B C} (body : B → result (option C))
    (f g : A → B) (l : list A) :
  (∀ x, x ∈ l → body (f x) = body (g x)) →
  for_each body (f <$> l) = for_each body (g <$> l).
Proof.
  induction l as [|x l IH]; intros Hext; [done|].
  cbn [fmap list_fmap for_each]. rewrite (Hext x) by left.
  rewrite IH; [done|]. intros. apply Hext. by right.
Qed.

(** X13.  The query has no [ORDER BY]; the result does not need one.
    Two tables with the same rows in a different order give the same
    outcome: the same edges in the same order, or the same failure. *)
Theorem X13_row_order_irrelevant (table table' : list ohlc_daily) :
  table ≡ₚ table' →
  monthly_corr pd sqrt min_days table = monthly_corr pd sqrt min_days table'.
Proof.
  intros Hperm. rewrite !monthly_corr_eq.
  assert (observations table ≡ₚ observations table') as Hdf.
  { unfold observations. by rewrite Hperm. }
  assert (dates_fit pd table ↔ dates_fit pd table') as Hfit.
  { unfold dates_fit. by rewrite Hdf. }
  destruct (decide (dates_fit pd table)) as [Hok|Hbad].
  2:{ by rewrite decide_False by (by rewrite <-Hfit). }
  rewrite decide_True by (by apply Hfit).
  unfold groupby_month.
  assert (ret_month <$> observations table ≡ₚ ret_month <$> observations table')
    as Hmonths by (by rewrite Hdf).
  rewrite <-(unique_sorted_Permutation_eq date_le _ _ Hmonths).
  rewrite (for_each_fmap_ext (month_records pd sqrt min_days)
             (λ m, (m, filter (λ r, ret_month r = m) (observations table)))
             (λ m, (m, filter (λ r, ret_month r = m) (observations table'))));
    [done|].
  intros m _. unfold month_records. simpl.
  by rewrite (pivot_Permutation _ (filter (λ r, ret_month r = m)
                                      (observations table')))
    by (by rewrite Hdf).
Qed.

End RowOrder.

Section MonthByMonth.
Import Correlations CorrelationSpec.
Context (pd : pandas) (sqrt : Q → Q) (min_days : nat).

Lemma read_sql_filter_month (table : list ohlc_daily) (m : date) :
  observations (filter (λ t, to_month (ohlc_day t) = m) table)
  = month_rows table m.
Proof.
  unfold month_rows, observations. induction table as [|t table IH]; [done|].
  rewrite filter_cons. cbn [omap list_omap].
  destruct (ohlc_log_return t) as [x|] eqn:Hx; simpl.
  - rewrite filter_cons. simpl. case_decide.
    + cbn [omap list_omap]. rewrite Hx. simpl. by rewrite IH.
    + done.
  - case_decide; [|done]. cbn [omap list_omap]. by rewrite Hx.
Qed.

Lemma month_rows_filter_month (table : list ohlc_daily) (m m' : date) :
  month_rows (filter (λ t, to_month (ohlc_day t) = m) table) m'
  = if decide (m' = m) then month_rows table m else [].
Proof.
  unfold month_rows at 1. rewrite read_sql_filter_month. unfold month_rows.
  case_decide as Hm.
  - subst. apply filter_all. by intros r [? _]%list_elem_of_filter.
  - apply filter_none. intros r [? _]%list_elem_of_filter. congruence.
Qed.

(** X14.  The months do not influence each other: the run on the rows of
    one month alone completes and gives exactly the edges that the full
    run emits for that month. *)
Theorem X14_months_are_independent (table : list ohlc_daily)
    (out : list corr_row) (m : date) :
  monthly_corr pd sqrt min_days table = Ok out →
  monthly_corr pd sqrt min_days (filter (λ t, to_month (ohlc_day t) = m) table)
  = Ok (edges_in m out).
Proof.
  intros Hrun. set (table_m := filter _ table).
  destruct (monthly_corr_Ok pd sqrt min_days table_m) as [out_m Hrun_m].
  { unfold dates_fit, table_m. rewrite read_sql_filter_month.
    apply Forall_forall. intros r [_ Hr]%list_elem_of_filter.
    assert (dates_fit pd table) as Hfit by (by eapply monthly_corr_dates_fit).
    by apply (proj1 (Forall_forall _ _) Hfit). }
  { unfold table_m. rewrite read_sql_filter_month.
    apply NoDup_key_filter. by eapply monthly_corr_Ok_inv. }
  rewrite Hrun_m. f_equal.
  assert (out_m = edges_in m out_m) as ->.
  { symmetry. apply filter_all. intros e He.
    apply (elem_of_monthly_corr _ _ _ _ _ _ Hrun_m) in He as (Hi & _).
    apply elem_of_survivors in Hi as (_ & (r & Hr & _) & _).
    unfold table_m in Hr. rewrite month_rows_filter_month in Hr.
    case_decide; [done|by apply elem_of_nil in Hr]. }
  rewrite (edges_in_spec _ _ _ _ _ m Hrun_m), (edges_in_spec _ _ _ _ _ m Hrun).
  unfold survivors, pair_corr, month_frame, table_m.
  by rewrite month_rows_filter_month, decide_True.
Qed.

End MonthByMonth.

Section BothDirections.
Import Correlations CorrelationSpec Network NetworkSpec GraphSpec.

Lemma pair_set_eq (p p' : string * string) :
  pair_set p = pair_set p' ↔ p = p' ∨ p = (p'.2, p'.1).
Proof.
  destruct p as [a b], p' as [c d]. unfold pair_set. simpl.
  rewrite doubleton_eq. naive_solver.
Qed.

(** A list of ordered pairs that has no repetition, no pair [(a, a)] and
    with every pair its reverse holds each unordered pair twice. *)
Lemma length_symmetric_pairs (L : list (string * string)) :
  NoDup L → (∀ p, p ∈ L → p.1 ≠ p.2) → (∀ p, p ∈ L → (p.2, p.1) ∈ L) →
  length L = 2 * size (list_to_set (C := gset (gset string)) (pair_set <$> L)).
Proof.
  intros Hnd Hirr Hsym.
  set (up := λ p : string * string, string_le p.1 p.2).
  set (A := filter up L). set (B := filter (λ p, ¬ up p) L).
  assert (length L = length A + length B) as ->.
  { unfold A, B. clear. induction L as [|p L IH]; [done|].
    rewrite !filter_cons. destruct (decide (up p)) as [Hup|Hup].
    - rewrite (decide_False (P := ¬ up p)) by tauto. simpl. lia.
    - rewrite (decide_True (P := ¬ up p)) by done. simpl. lia. }
  assert (B ≡ₚ (λ p, (p.2, p.1)) <$> A) as HB.
  { apply NoDup_Permutation.
    - by apply NoDup_filter.
    - apply NoDup_fmap_2; [|by apply NoDup_filter].
      intros [a b] [c d]. simpl. congruence.
    - intros [a b]. unfold A, B.
      rewrite list_elem_of_fmap, list_elem_of_filter. unfold up. simpl. split.
      + intros [Hab Hin]. exists (b, a). split; [done|].
        apply list_elem_of_filter. simpl. split; [|by apply (Hsym (a, b))].
        by destruct (total string_le a b).
      + intros ([c d] & [= -> ->] & [Hup Hin]%list_elem_of_filter).
        simpl in Hup. split; [|by apply (Hsym (c, d))].
        intros Hdc. apply (Hirr (c, d) Hin). simpl.
        by apply (anti_symm string_le). }
  rewrite HB, length_fmap.
  assert (list_to_set (C := gset (gset string)) (pair_set <$> L)
          = list_to_set (pair_set <$> A)) as ->.
  { apply set_eq. intros s.
    rewrite !elem_of_list_to_set, !list_elem_of_fmap. split.
    - intros (p & -> & Hp). destruct (decide (up p)) as [Hup|Hup].
      + exists p. split; [done|]. by apply list_elem_of_filter.
      + exists (p.2, p.1). split.
        * apply pair_set_eq. right. by destruct p.
        * apply list_elem_of_filter. unfold up in *. simpl.
          split; [|by apply Hsym]. by destruct (total string_le p.1 p.2).
    - intros (p & -> & [_ Hp]%list_elem_of_filter). eauto. }
  rewrite size_list_to_set; [rewrite length_fmap; lia|].
  apply NoDup_fmap_2_strong; [|by apply NoDup_filter].
  intros p p' [Hup Hp]%list_elem_of_filter [Hup' Hp']%list_elem_of_filter
    [?| ->]%pair_set_eq; [done|].
  unfold up in *. simpl in *.
  destruct (Hirr p' Hp'). by apply (anti_symm string_le).
Qed.

Context (pd : pandas) (sqrt : Q → Q) (min_days : nat) (threshold : Q).
Context (table : list ohlc_daily) (out : list corr_row).
Context (Hout : monthly_corr pd sqrt min_days table = Ok out).

Lemma pipeline_month_edges (m : date) :
  month_edges threshold (copy_row <$> out) m
  = filter (λ r, abs_ge threshold (corr r) = true) (edges_in m out).
Proof.
  unfold month_edges, edges_in. rewrite read_sql_copy_rows.
  rewrite !list_filter_filter. apply list_filter_iff. intros r.
  destruct (corr r); naive_solver.
Qed.

Lemma pipeline_pairs_NoDup (m : date) :
  NoDup ((λ r, (asset_i r, asset_j r))
           <$> month_edges threshold (copy_row <$> out) m).
Proof.
  rewrite pipeline_month_edges.
  apply (sublist_NoDup _ ((λ r, (asset_i r, asset_j r)) <$> edges_in m out));
    [|apply fmap_sublist, sublist_filter].
  rewrite (edges_in_spec _ _ _ _ _ m Hout), <-list_fmap_compose.
  rewrite (list_fmap_ext _ id) by (by intros _ [] _).
  rewrite list_fmap_id.
  apply NoDup_filter, NoDup_cprod; apply NoDup_survivors.
Qed.

Lemma pipeline_row (m : date) (r : corr_row) :
  r ∈ month_edges threshold (copy_row <$> out) m
  ↔ r ∈ out ∧ month r = m ∧ abs_ge threshold (corr r) = true.
Proof.
  rewrite pipeline_month_edges. unfold edges_in.
  rewrite !list_elem_of_filter. tauto.
Qed.

(** X15.  The first script writes every pair in both orders and the graph
    keeps one edge per unordered pair: in the graph built from its output,
    every month has exactly half as many edges as rows that pass the
    threshold. *)
Theorem X15_two_rows_per_edge (rows : list metrics_row) (row : metrics_row) :
  metrics_df pd threshold (copy_row <$> out) = Ok rows → row ∈ rows →
  length (month_edges threshold (copy_row <$> out) (m_month row))
  = 2 * n_edges row.
Proof.
  intros Hrun Hrow.
  destruct (row_fields pd threshold _ rows row Hrun Hrow) as (_ & _ & -> & _).
  unfold month_graph. rewrite number_of_edges_build_graph.
  set (m := m_month row).
  rewrite <-(length_fmap (λ r, (asset_i r, asset_j r)) (month_edges _ _ m)).
  rewrite (length_symmetric_pairs _ (pipeline_pairs_NoDup m)).
  - unfold edge_set. by rewrite <-list_fmap_compose.
  - intros p (r & -> & [Hr _]%pipeline_row)%list_elem_of_fmap. simpl.
    by apply (elem_of_monthly_corr _ _ _ _ _ _ Hout) in Hr as (_ & _ & ? & _).
  - intros p (r & -> & (Hr & Hm & Hge)%pipeline_row)%list_elem_of_fmap. simpl.
    apply list_elem_of_fmap.
    exists (mkCorr (month r) (asset_j r) (asset_i r) (corr r)).
    split; [done|]. apply pipeline_row. split_and!; [|done..].
    apply (elem_of_monthly_corr _ _ _ _ _ _ Hout) in Hr
      as (Hi & Hj & Hne & Hcorr & Hna).
    apply (elem_of_monthly_corr _ _ _ _ _ _ Hout). simpl.
    split_and!; [done|done|by apply not_eq_sym| |done].
    rewrite Hcorr. unfold pair_corr. apply corr_at_sym.
Qed.

End BothDirections.

Section Triangles.
Import Network NetworkSpec GraphSpec.
Context (pd : pandas) (threshold : Q) (table : list monthly_correlations).

Lemma Qsum_zero (l : list Q) :
  Forall (λ x, 0 <= x)%Q l → (Qsum l == 0)%Q ↔ Forall (λ x, x == 0)%Q l.
Proof.
  induction 1 as [|x l Hx Hl IH].
  { split; intros _; [constructor|reflexivity]. }
  cbn [Qsum foldr]. fold (Qsum l).
  assert (0 <= Qsum l)%Q as Hsum.
  { clear IH. induction Hl as [|y l Hy _ IH]; [done|].
    cbn [Qsum foldr]. fold (Qsum l).
    rewrite <-(Qplus_0_r 0). by apply Qplus_le_compat. }
  rewrite Forall_cons, <-IH. split.
  - intros Hzero. split; apply Qle_antisym; try done.
    + rewrite <-Hzero. apply Qle_trans with (x + 0)%Q.
      * rewrite Qplus_0_r. apply Qle_refl.
      * by apply Qplus_le_r.
    + rewrite <-Hzero. apply Qle_trans with (0 + Qsum l)%Q.
      * rewrite Qplus_0_l. apply Qle_refl.
      * by apply Qplus_le_l.
  - intros [-> ->]. reflexivity.
Qed.

Lemma sum_list_fmap_zero_inv {A} (f : A → nat) (l : list A) :
  sum_list (f <$> l) = 0 → ∀ x, x ∈ l → f x = 0.
Proof.
  induction l as [|y l IH]; intros Hsum x Hx; [by apply elem_of_nil in Hx|].
  cbn [fmap list_fmap sum_list_with] in Hsum. unfold id at 1 in Hsum.
  apply elem_of_cons in Hx as [->|Hx]; [lia|]. apply IH; [lia|done].
Qed.

Lemma connected_pairs_zero G (L : list string) :
  undirected G → NoDup L →
  connected_pairs G L = 0
  ↔ ∀ a b, a ∈ L → b ∈ L → a ≠ b → ¬ has_edge G a b.
Proof.
  intros Hsym Hnd.
  pose proof (twice_connected_pairs G L Hsym Hnd) as Htwice. split.
  - intros Hzero a b Ha Hb Hab Hedge. rewrite Hzero in Htwice.
    pose proof (sum_list_fmap_zero_inv _ _ Htwice a Ha) as Hlen. simpl in Hlen.
    apply length_zero_iff_nil in Hlen.
    assert (b ∈ filter (λ x, has_edge G a x ∧ x ≠ a) L) as Hin.
    { apply list_elem_of_filter. split; [|done]. split; [done|].
      by apply not_eq_sym. }
    rewrite Hlen in Hin. by apply elem_of_nil in Hin.
  - intros Hnone. rewrite sum_list_fmap_zero in Htwice; [lia|].
    intros a Ha. apply length_zero_iff_nil, filter_none.
    intros b Hb [Hedge Hne]. by apply (Hnone a b Ha Hb); [apply not_eq_sym|].
Qed.

(** The clustering coefficient of a node is zero exactly when no two of
    its neighbours are joined. *)
Lemma local_clustering_zero G (v : string) :
  undirected G →
  (local_clustering G v == 0)%Q
  ↔ ¬ ∃ a b, a ≠ b ∧ a ≠ v ∧ b ≠ v
             ∧ has_edge G v a ∧ has_edge G v b ∧ has_edge G a b.
Proof.
  intros Hsym. unfold local_clustering.
  set (nb := elements (neighbors G v ∖ {[v]})).
  assert (∀ a, a ∈ nb ↔ has_edge G v a ∧ a ≠ v) as Hnb.
  { intros a. unfold nb, has_edge. rewrite elem_of_elements. set_solver. }
  assert (NoDup nb) as Hnd by apply NoDup_elements.
  assert (connected_pairs G nb = 0
          ↔ ¬ ∃ a b, a ≠ b ∧ a ≠ v ∧ b ≠ v
                     ∧ has_edge G v a ∧ has_edge G v b ∧ has_edge G a b)
    as <-.
  { rewrite (connected_pairs_zero G nb Hsym Hnd). split.
    - intros Hnone (a & b & Hab & Hav & Hbv & Hva & Hvb & Hedge).
      apply (Hnone a b); [by apply Hnb|by apply Hnb|done..].
    - intros Hnone a b [Hva Hav]%Hnb [Hvb Hbv]%Hnb Hab Hedge.
      apply Hnone. exists a, b. done. }
  pose proof (connected_pairs_bound G nb) as Hbound.
  destruct (Nat.ltb_spec (length nb) 2) as [Hlt|Hge].
  { split; [intros _|done]. destruct (length nb) as [|[|?]]; simpl in *; lia. }
  assert (0 < length nb * (length nb - 1)) as Hpos by nia.
  revert Hpos. generalize (length nb * (length nb - 1)). intros n Hpos.
  generalize (connected_pairs G nb). intros p. split.
  - intros Hzero. destruct p as [|p]; [done|]. exfalso.
    assert (0 < inject_Z (Z.of_nat (S p)) / (inject_Z (Z.of_nat n) / 2))%Q
      as Hlt; [|rewrite Hzero in Hlt; by apply Qlt_irrefl in Hlt].
    apply Qlt_shift_div_l; [|rewrite Qmult_0_l]; unfold Qlt; simpl; lia.
  - intros ->. unfold Qdiv. apply Qmult_0_l.
Qed.

Lemma Forall2_zero (cd : list (string * Q)) (vs : list string) (f : string → Q) :
  Forall2 (λ c v, c.2 == f v)%Q cd vs →
  Forall (λ x, x == 0)%Q cd.*2 ↔ Forall (λ v, f v == 0)%Q vs.
Proof.
  induction 1 as [|c v cd vs Hcv _ IH].
  { split; intros _; constructor. }
  cbn [fmap list_fmap]. rewrite !Forall_cons, IH, Hcv. done.
Qed.

(** X16.  The reported average clustering vanishes exactly when the graph
    of the month has no triangle, that is, no three different assets that
    are joined pairwise. *)
Theorem X16_zero_clustering_iff_no_triangle (out : list metrics_row)
    (row : metrics_row) :
  metrics_df pd threshold table = Ok out → row ∈ out →
  ∃ q, avg_clustering row = Fin q
    ∧ ((q == 0)%Q
       ↔ ¬ ∃ u v w, u ≠ v ∧ v ≠ w ∧ u ≠ w
            ∧ has_edge (month_graph threshold table (m_month row)) u v
            ∧ has_edge (month_graph threshold table (m_month row)) v w
            ∧ has_edge (month_graph threshold table (m_month row)) u w).
Proof.
  intros Hrun Hrow%(elem_of_metrics_df _ _ _ _ _ Hrun).
  destruct (month_row_spec threshold table (m_month row))
    as [[_ Hnone]|(_ & q & cd & c & _ & Hcd & Hcdne & _ & Hsome)]; [congruence|].
  rewrite Hsome in Hrow. injection Hrow as <-. simpl.
  set (G := month_graph threshold table _) in *.
  pose proof (month_graph_undirected threshold table (m_month row)) as Hsym.
  simpl in Hsym. fold G in Hsym.
  destruct (clustering_spec G Hsym) as (cd' & Hcd' & Hspec & Hrange).
  rewrite Hcd in Hcd'. injection Hcd' as <-.
  assert (cd.*2 ≠ []) as Hne by (by intros ?%fmap_nil_inv).
  rewrite (mean_nonempty _ Hne). eexists. split; [done|].
  assert (0 < inject_Z (Z.of_nat (length cd.*2)))%Q as Hlen.
  { destruct cd.*2; [done|]. unfold Qlt. simpl. lia. }
  assert ((Qsum cd.*2 / inject_Z (Z.of_nat (length cd.*2)) == 0)%Q
          ↔ (Qsum cd.*2 == 0)%Q) as ->.
  { split.
    - intros Hzero.
      rewrite <-(Qmult_div_r (Qsum cd.*2) (inject_Z (Z.of_nat (length cd.*2)))).
      + rewrite Hzero. apply Qmult_0_r.
      + intros H0. rewrite H0 in Hlen. by apply Qlt_irrefl in Hlen.
    - intros ->. unfold Qdiv. apply Qmult_0_l. }
  rewrite Qsum_zero by (by eapply Forall_impl; [exact Hrange|intros ? []]).
  rewrite (Forall2_zero cd (nodes G) (local_clustering G) Hspec).
  rewrite Forall_forall. split.
  - intros Hall (u & v & w & Huv & Hvw & Huw & Euv & Evw & Euw).
    assert (u ∈ nodes G) as Hu.
    { unfold nodes. rewrite nodes_Permutation, elem_of_elements.
      by apply (has_edge_dom G u v Hsym). }
    apply (proj1 (local_clustering_zero G u Hsym) (Hall u Hu)).
    exists v, w. split_and!; [done|by apply not_eq_sym|by apply not_eq_sym|done..].
  - intros Hnone v _. apply (local_clustering_zero G v Hsym).
    intros (a & b & Hab & Hav & Hbv & Eva & Evb & Eab). apply Hnone.
    exists v, a, b. split_and!; [by apply not_eq_sym|done|by apply not_eq_sym|done..].
Qed.

End Triangles.

(** ** The further properties at the sample inputs *)

Section MoreSamples.
Import Correlations CorrelationSpec Network NetworkSpec.
Import TableSpec GraphSpec Examples PipelineExamples.

Lemma small_metrics_run :
  metrics_df pandas2 CORR_THRESHOLD (copy_row <$> small_out) = Ok small_metrics.
Proof. vm_compute. reflexivity. Defined.

Lemma small_row_emitted : small_row ∈ small_metrics.
Proof. left. Defined.

Lemma sample_edges_run_low :
  metrics_df pandas2 (1 # 10) sample_edges = Ok sample_metrics_low.
Proof. vm_compute. reflexivity. Defined.

Lemma sqrt_exact_zero (q : Q) : (q == 0)%Q → (sqrt_exact q == 0)%Q.
Proof.
  unfold Qeq, sqrt_exact. simpl. intros Hq.
  assert (Qnum q = 0%Z) as -> by lia. reflexivity.
Defined.

Lemma X1_witness :
  ¬ dates_fit pandas2 far_future
  ∧ monthly_corr pandas2 sqrt_exact min_days_per_asset far_future
    = Raise OutOfBoundsDatetime.
Proof.
  assert (¬ dates_fit pandas2 far_future) as Hbad.
  { apply (bool_decide_unpack _). vm_compute. exact I. }
  split; [exact Hbad|].
  destruct (X1_outcome_of_the_run pandas2 sqrt_exact min_days_per_asset
              far_future) as [Hout _].
  exact (proj2 Hout Hbad).
Defined.

Lemma X2_witness :
  let e := mkCorr (jan 1) "X" "Y" (Fin (442368 # 442368)) in
  monthly_corr pandas2 sqrt_exact 2 small_table = Ok small_out
  ∧ (e ∈ small_out
     ↔ asset_i e ≠ asset_j e
       ∧ (listed small_table (month e) (asset_i e)
          ∧ 2 ≤ valid_days small_table (month e) (asset_i e))
       ∧ (listed small_table (month e) (asset_j e)
          ∧ 2 ≤ valid_days small_table (month e) (asset_j e))
       ∧ corr e = pair_corr sqrt_exact 2 small_table (month e) (asset_i e) (asset_j e)
       ∧ (stack_dropna pandas2 = true → isna (corr e) = false)).
Proof.
  intros e. split; [exact small_table_run|].
  exact (X2_edge_iff_both_qualify pandas2 sqrt_exact 2 small_table small_out e
           small_table_run).
Defined.

Lemma X3_witness :
  let e := mkCorr (jan 1) "X" "Y" (Fin (442368 # 442368)) in
  monthly_corr pandas2 sqrt_exact 2 small_table = Ok small_out
  ∧ e ∈ small_out
  ∧ mday (month e) = 1%Z
  ∧ ∃ t, t ∈ small_table ∧ ohlc_log_return t ≠ None
         ∧ year (ohlc_day t) = year (month e)
         ∧ mon (ohlc_day t) = mon (month e).
Proof.
  intros e.
  assert (e ∈ small_out) as He by left.
  split; [exact small_table_run|]. split; [exact He|].
  exact (X3_month_is_first_of_observed_month pandas2 sqrt_exact 2 small_table small_out
           e small_table_run He).
Defined.

Lemma X5_witness :
  metrics_df pandas2 CORR_THRESHOLD sample_edges = Ok sample_metrics
  ∧ february_row ∈ sample_metrics
  ∧ n_assets february_row
    = size (node_set (month_edges CORR_THRESHOLD sample_edges
                        (m_month february_row)))
  ∧ n_edges february_row
    = size (edge_set (month_edges CORR_THRESHOLD sample_edges
                        (m_month february_row))).
Proof.
  split; [exact sample_edges_run|]. split; [exact february_row_emitted|].
  exact (X5_counts_distinct_assets_and_pairs pandas2 CORR_THRESHOLD sample_edges
           sample_metrics february_row sample_edges_run february_row_emitted).
Defined.

Lemma X6_witness :
  metrics_df pandas2 CORR_THRESHOLD sample_edges = Ok sample_metrics
  ∧ february_row ∈ sample_metrics
  ∧ sum_list (degrees (month_graph CORR_THRESHOLD sample_edges
                         (m_month february_row)))
    = 2 * n_edges february_row
  ∧ ∃ q, avg_degree february_row = Fin q
      ∧ (q == 2 * inject_Z (Z.of_nat (n_edges february_row))
              / inject_Z (Z.of_nat (n_assets february_row)))%Q.
Proof.
  split; [exact sample_edges_run|]. split; [exact february_row_emitted|].
  exact (X6_average_degree pandas2 CORR_THRESHOLD sample_edges sample_metrics
           february_row sample_edges_run february_row_emitted).
Defined.

Lemma X7_witness :
  metrics_df pandas2 CORR_THRESHOLD sample_edges = Ok sample_metrics
  ∧ february_row ∈ sample_metrics
  ∧ n_assets february_row ≤ 2 * n_edges february_row
  ∧ ∃ q, avg_degree february_row = Fin q
      ∧ (1 <= q <= inject_Z (Z.of_nat (max_degree february_row)))%Q.
Proof.
  split; [exact sample_edges_run|]. split; [exact february_row_emitted|].
  exact (X7_no_isolated_node pandas2 CORR_THRESHOLD sample_edges sample_metrics
           february_row sample_edges_run february_row_emitted).
Defined.

Lemma X8_witness :
  no_self_pairs sample_edges
  ∧ metrics_df pandas2 CORR_THRESHOLD sample_edges = Ok sample_metrics
  ∧ february_row ∈ sample_metrics
  ∧ (0 < m_density february_row <= 1)%Q
  ∧ ((m_density february_row == 1)%Q
     ↔ complete (month_graph CORR_THRESHOLD sample_edges
                   (m_month february_row)))
  ∧ max_degree february_row ≤ n_assets february_row - 1
  ∧ max_degree february_row + 1 ≤ lcc_size february_row.
Proof.
  split; [exact sample_edges_no_self_pairs|].
  split; [exact sample_edges_run|]. split; [exact february_row_emitted|].
  exact (X8_simple_graph_bounds pandas2 CORR_THRESHOLD sample_edges
           sample_edges_no_self_pairs sample_metrics february_row
           sample_edges_run february_row_emitted).
Defined.

Lemma X9_witness :
  metrics_df pandas2 CORR_THRESHOLD sample_edges = Ok sample_metrics
  ∧ StronglySorted date_lt (m_month <$> sample_metrics).
Proof.
  split; [exact sample_edges_run|].
  exact (proj2 (X9_rows_collected_in_month_order pandas2 CORR_THRESHOLD sample_edges)
           sample_metrics sample_edges_run).
Defined.

Lemma X10_witness :
  (1 # 10 <= CORR_THRESHOLD)%Q
  ∧ metrics_df pandas2 (1 # 10) sample_edges = Ok sample_metrics_low
  ∧ metrics_df pandas2 CORR_THRESHOLD sample_edges = Ok sample_metrics
  ∧ january_row ∈ sample_metrics
  ∧ ∃ row1, row1 ∈ sample_metrics_low ∧ m_month row1 = m_month january_row
      ∧ n_assets january_row ≤ n_assets row1
      ∧ n_edges january_row ≤ n_edges row1
      ∧ max_degree january_row ≤ max_degree row1
      ∧ lcc_size january_row ≤ lcc_size row1.
Proof.
  assert (1 # 10 <= CORR_THRESHOLD)%Q as Hle.
  { unfold Qle. simpl. lia. }
  split; [exact Hle|]. split; [exact sample_edges_run_low|].
  split; [exact sample_edges_run|]. split; [exact january_row_emitted|].
  exact (X10_threshold_monotone pandas2 sample_edges (1 # 10) CORR_THRESHOLD Hle
           sample_metrics_low sample_metrics january_row sample_edges_run_low
           sample_edges_run january_row_emitted).
Defined.

Lemma X11_witness :
  monthly_corr pandas2 sqrt_exact 2 small_table = Ok small_out
  ∧ metrics_df pandas2 CORR_THRESHOLD (copy_row <$> small_out) = Ok small_metrics
  ∧ small_row ∈ small_metrics
  ∧ (∀ u v,
       has_edge (month_graph CORR_THRESHOLD (copy_row <$> small_out)
                   (m_month small_row)) u v
       ↔ u ≠ v ∧ u ∈ survivors 2 small_table (m_month small_row)
         ∧ v ∈ survivors 2 small_table (m_month small_row)
         ∧ ∃ q, pair_corr sqrt_exact 2 small_table (m_month small_row) u v
                = Fin q
                ∧ (CORR_THRESHOLD <= Qabs q)%Q)
  ∧ n_assets small_row ≤ length (survivors 2 small_table (m_month small_row)).
Proof.
  split; [exact small_table_run|]. split; [exact small_metrics_run|].
  split; [exact small_row_emitted|].
  exact (X11_graph_of_daily_table pandas2 sqrt_exact 2 CORR_THRESHOLD small_table
           small_out small_table_run small_metrics small_row
           small_metrics_run small_row_emitted).
Defined.

Lemma X12_witness :
  let e := mkCorr (jan 1) "X" "Y" (Fin (442368 # 442368)) in
  (∀ q, (q == 0)%Q → (sqrt_exact q == 0)%Q)
  ∧ monthly_corr pandas2 sqrt_exact 2 small_table = Ok small_out
  ∧ e ∈ small_out
  ∧ isna (corr e) = false
  ∧ 2 ≤ common_days small_table (month e) (asset_i e) (asset_j e).
Proof.
  intros e.
  assert (e ∈ small_out) as He by left.
  assert (isna (corr e) = false) as Hna by reflexivity.
  split; [exact sqrt_exact_zero|]. split; [exact small_table_run|].
  split; [exact He|]. split; [exact Hna|].
  exact (X12_edge_needs_two_common_days pandas2 sqrt_exact sqrt_exact_zero 2
           small_table small_out e small_table_run He Hna).
Defined.

Lemma X13_witness :
  small_table ≡ₚ reverse small_table
  ∧ monthly_corr pandas2 sqrt_exact 2 small_table
    = monthly_corr pandas2 sqrt_exact 2 (reverse small_table).
Proof.
  assert (small_table ≡ₚ reverse small_table) as Hperm.
  { symmetry. apply reverse_Permutation. }
  split; [exact Hperm|].
  exact (X13_row_order_irrelevant pandas2 sqrt_exact 2 small_table
           (reverse small_table) Hperm).
Defined.

Lemma X14_witness :
  monthly_corr pandas2 sqrt_exact 2 small_table = Ok small_out
  ∧ monthly_corr pandas2 sqrt_exact 2
      (filter (λ t, to_month (ohlc_day t) = jan 1) small_table)
    = Ok (edges_in (jan 1) small_out).
Proof.
  split; [exact small_table_run|].
  exact (X14_months_are_independent pandas2 sqrt_exact 2 small_table small_out
           (jan 1) small_table_run).
Defined.

Lemma X15_witness :
  monthly_corr pandas2 sqrt_exact 2 small_table = Ok small_out
  ∧ metrics_df pandas2 CORR_THRESHOLD (copy_row <$> small_out) = Ok small_metrics
  ∧ small_row ∈ small_metrics
  ∧ length (month_edges CORR_THRESHOLD (copy_row <$> small_out)
              (m_month small_row))
    = 2 * n_edges small_row.
Proof.
  split; [exact small_table_run|]. split; [exact small_metrics_run|].
  split; [exact small_row_emitted|].
  exact (X15_two_rows_per_edge pandas2 sqrt_exact 2 CORR_THRESHOLD small_table
           small_out small_table_run small_metrics small_row
           small_metrics_run small_row_emitted).
Defined.

Lemma X16_witness :
  metrics_df pandas2 CORR_THRESHOLD sample_edges = Ok sample_metrics
  ∧ february_row ∈ sample_metrics
  ∧ ∃ q, avg_clustering february_row = Fin q
      ∧ ((q == 0)%Q
         ↔ ¬ ∃ u v w, u ≠ v ∧ v ≠ w ∧ u ≠ w
              ∧ has_edge (month_graph CORR_THRESHOLD sample_edges
                            (m_month february_row)) u v
              ∧ has_edge (month_graph CORR_THRESHOLD sample_edges
                            (m_month february_row)) v w
              ∧ has_edge (month_graph CORR_THRESHOLD sample_edges
                            (m_month february_row)) u w).
Proof.
  split; [exact sample_edges_run|]. split; [exact february_row_emitted|].
  exact (X16_zero_clustering_iff_no_triangle pandas2 CORR_THRESHOLD sample_edges
           sample_metrics february_row sample_edges_run february_row_emitted).
Defined.

Lemma X17_witness :
  monthly_corr pandas2 sqrt_exact 2 small_table = Ok small_out
  ∧ ∀ m,
      let K := survivors 2 small_table m in
      NoDup (edges_in m small_out)
      ∧ (∀ i j c,
           mkCorr m i j c ∈ small_out
           ↔ i ∈ K ∧ j ∈ K ∧ i ≠ j
             ∧ c = pair_corr sqrt_exact 2 small_table m i j
             ∧ (stack_dropna pandas2 = true → isna c = false))
      ∧ length (edges_in m small_out)
        + (if stack_dropna pandas2
           then length (absent_pairs sqrt_exact 2 small_table m) else 0)
        = length K * (length K - 1).
Proof.
  split; [exact small_table_run|].
  exact (X17_one_row_per_kept_pair pandas2 sqrt_exact 2 small_table small_out
           small_table_run).
Defined.

End MoreSamples.
